(** * Job queue and lifecycle of the media downloader: a shallow embedding

    The development follows the Python sources module by module:
    - [jobs.py], [jobs_memory.py], [jobs_rq.py]: the job record store,
    - [worker.py], [main.py], [routes/download.py]: the processing pipeline,
      the two workers and the HTTP handlers that write job records,
    - [ratelimit.py]: the sliding-window limiter,
    - [cleanup.py]: the sweep of the temporary directory,
    - [paths.py]: [safe_filename].

    Conventions.  A Python [dict] with string keys is a [gmap string _];
    keyword arguments ([**fields]) are such a map as well.  Numbers are
    integers: [time.time()] is a clock read in integral ticks.  The clock,
    [uuid.uuid4()] and the outcomes of yt-dlp and ffmpeg are inputs of the
    functions that consult them.  A raised exception is the [Raise] branch
    of [result]; the text of a message built with an f-string is shortened.
    Sizes in megabytes, which the code rounds to two decimals, are integers
    in hundredths; the percentage the progress hook computes through a
    float is an input as well. *)

From Stdlib Require Import Ascii String ZArith Lia.
From stdpp Require Import gmap strings list fin_maps sorting.
From Equations Require Import Equations.

#[local] Set Warnings "-register-all,-clear-no-such-hyp".

(** ** Python values *)

(** JSON-like data, as stored in job records. *)
Inductive value :=
| VNone
| VNum (n : Z)
| VStr (s : string)
| VDict (kvs : list (string * value)).

(** Python truthiness, as used by [if not x] and [x or y]. *)
Definition truthy (v : value) : bool :=
  match v with
  | VNone => false
  | VNum n => negb (n =? 0)%Z
  | VStr s => negb (String.eqb s "")
  | VDict kvs => match kvs with [] => false | _ => true end
  end.

(** [x or y] *)
Definition py_or (x y : value) : value := if truthy x then x else y.

(** [d.get(k)] on a value that is a dict literal; [None] when absent.
    What is not a dict has no [get]: the pipeline looks at its payload
    only once it is known to be a dict. *)
Fixpoint assoc_get (kvs : list (string * value)) (k : string) : value :=
  match kvs with
  | [] => VNone
  | (k', v) :: rest => if String.eqb k' k then v else assoc_get rest k
  end.

Definition dict_get (d : value) (k : string) : value :=
  match d with
  | VDict kvs => assoc_get kvs k
  | _ => VNone
  end.

Inductive exn :=
| RuntimeError (msg : string)
| ValueError (msg : string)
| DownloadError (msg : string)
| OSError (msg : string)
| FileNotFoundError (msg : string)
| AttributeError (msg : string)
| KeyError (msg : string)
| TypeError (msg : string)
| HTTPException (status_code : Z) (detail : string).

(** [str(exc)] *)
Definition str_exn (e : exn) : string :=
  match e with
  | RuntimeError m | ValueError m | DownloadError m | OSError m
  | FileNotFoundError m | AttributeError m | KeyError m | TypeError m
  | HTTPException _ m => m
  end.

Inductive result (A : Type) :=
| Ok (a : A)
| Raise (e : exn).
Arguments Ok {A} a.
Arguments Raise {A} e.

(** A job record: [Dict[str, Any]]. *)
Abbreviation record := (gmap string value).

(** [d.get(k)] on a record, [None] when the key is absent. *)
Definition rec_get (r : record) (k : string) : value := default VNone (r !! k).

(** Truthiness of a dict object. *)
Definition truthy_rec (r : record) : bool := negb (bool_decide (size r = 0%nat)).

(** The record both backends write in [enqueue]. *)
Definition initial_record (job_id : string) (now : Z) (payload : value) : record :=
  <["job_id" := VStr job_id]>
  {[ "status" := VStr "queued";
     "progress" := VNum 0;
     "message" := VStr "В очереди";
     "result" := VNone;
     "error" := VNone;
     "reason" := VNone;
     "file_path" := VNone;
     "filename" := VNone;
     "mimetype" := VNone;
     "meta" := VNone;
     "payload" := payload;
     "created_at" := VNum now;
     "updated_at" := VNum now ]}.

(** ** jobs.py: the backend protocol *)

Class JobBackend (B : Type) := {
  enqueue : B → string → Z → value → B * string;
  get : B → string → option record;
  set : B → string → record → B
}.

(** ** jobs_memory.py *)

Module MemoryBackend.

Record t := mk {
  jobs : gmap string record;
  queue : list string
}.

Definition init : t := mk ∅ [].

(** [job_id] is the fresh [uuid.uuid4().hex], [now] is [time.time()]. *)
Definition enqueue (self : t) (job_id : string) (now : Z) (payload : value)
  : t * string :=
  (mk (<[job_id := initial_record job_id now payload]> (jobs self))
      (queue self ++ [job_id]),
   job_id).

(** [dict(job) if job else None] *)
Definition get (self : t) (job_id : string) : option record :=
  match jobs self !! job_id with
  | Some job => if truthy_rec job then Some job else None
  | None => None
  end.

Definition set (self : t) (job_id : string) (data : record) : t :=
  mk (<[job_id := data]> (jobs self)) (queue self).

End MemoryBackend.

#[export] Instance memory_backend : JobBackend MemoryBackend.t := {
  enqueue := MemoryBackend.enqueue;
  get := MemoryBackend.get;
  set := MemoryBackend.set
}.

(** ** jobs_rq.py *)

Module RQBackend.

Record settings := mk_settings {
  rq_queue : string;
  rq_job_ttl_sec : Z;
  rq_result_ttl_sec : Z;
  rq_failure_ttl_sec : Z
}.

(** A call of [Queue.enqueue]. *)
Record rq_call := mk_call {
  call_func : string;
  call_arg : string;
  call_job_timeout : Z;
  call_result_ttl : Z;
  call_failure_ttl : Z;
  call_job_id : string
}.

(** Redis holds, per key, the serialized record and the expiry [ex] it
    was written with.  [json.loads (json.dumps r) = r] for the records
    of this program, so the serialized text is identified with the
    record it encodes. *)
Record t := mk {
  config : settings;
  redis : gmap string (record * Z);
  queue : list rq_call
}.

Definition init (s : settings) : t := mk s ∅ [].

Definition _key (job_id : string) : string := "job:" +:+ job_id.

Definition enqueue (self : t) (job_id : string) (now : Z) (payload : value)
  : t * string :=
  let data := initial_record job_id now payload in
  let ttl := rq_result_ttl_sec (config self) in
  (mk (config self)
      (<[_key job_id := (data, ttl)]> (redis self))
      (queue self ++
         [mk_call "project.app.worker.run_job" job_id
            (rq_job_ttl_sec (config self))
            (rq_result_ttl_sec (config self))
            (rq_failure_ttl_sec (config self))
            job_id]),
   job_id).

(** [None if not raw else json.loads(raw)]: serialized text is never
    empty, so every stored key yields its record. *)
Definition get (self : t) (job_id : string) : option record :=
  match redis self !! _key job_id with
  | Some (raw, _) => Some raw
  | None => None
  end.

Definition set (self : t) (job_id : string) (data : record) : t :=
  let ttl := rq_result_ttl_sec (config self) in
  mk (config self) (<[_key job_id := (data, ttl)]> (redis self)) (queue self).

End RQBackend.

#[export] Instance rq_backend : JobBackend RQBackend.t := {
  enqueue := RQBackend.enqueue;
  get := RQBackend.get;
  set := RQBackend.set
}.

(** ** jobs.py: the operations on the configured backend

    [_backend] is the module-level handle, [None] until [set_backend] is
    called.  Every operation takes it and returns it next to its result. *)

Section jobs.
Context {B : Type} `{JobBackend B}.

Definition not_configured : exn := RuntimeError "Job backend is not configured.".

Definition create_job (_backend : option B) (payload : value)
    (job_id : string) (now : Z) : result string * option B :=
  match _backend with
  | None => (Raise not_configured, None)
  | Some b => let '(b', id) := enqueue b job_id now payload in (Ok id, Some b')
  end.

Definition job_status (_backend : option B) (job_id : string)
  : result (option record) * option B :=
  match _backend with
  | None => (Raise not_configured, None)
  | Some b =>
      match get b job_id with
      | None => (Ok None, Some b)
      | Some job => (Ok (Some job), Some b)
      end
  end.

(** [current = _backend.get(job_id) or {}] *)
Definition get_or_empty (b : B) (job_id : string) : record :=
  match get b job_id with
  | Some job => if truthy_rec job then job else ∅
  | None => ∅
  end.

(** [current.setdefault("job_id", job_id)] *)
Definition setdefault (k : string) (v : value) (r : record) : record :=
  match r !! k with
  | Some _ => r
  | None => <[k := v]> r
  end.

(** The record [job_update] builds: [fields] over the current record,
    then the time stamp.  [fields] are the keyword arguments of the call:
    the interpreter refuses a call that passes [job_id] among them, so
    that key is not one of theirs. *)
Definition merged (current : record) (job_id : string) (fields : record)
    (now : Z) : record :=
  <["updated_at" := VNum now]> (fields ∪ setdefault "job_id" (VStr job_id) current).

Definition job_update (_backend : option B) (job_id : string)
    (fields : record) (now : Z) : result record * option B :=
  match _backend with
  | None => (Raise not_configured, None)
  | Some b =>
      let current := merged (get_or_empty b job_id) job_id fields now in
      (Ok current, Some (set b job_id current))
  end.

End jobs.

(** ** utils/paths.py: [guess_mimetype] and the [pathlib] accessors used
    by the worker *)

Definition lower_ascii (c : ascii) : ascii :=
  let n := nat_of_ascii c in
  if (65 <=? n)%nat && (n <=? 90)%nat then ascii_of_nat (n + 32) else c.

Definition upper_ascii (c : ascii) : ascii :=
  let n := nat_of_ascii c in
  if (97 <=? n)%nat && (n <=? 122)%nat then ascii_of_nat (n - 32) else c.

Fixpoint map_string (f : ascii → ascii) (s : string) : string :=
  match s with
  | EmptyString => EmptyString
  | String c rest => String (f c) (map_string f rest)
  end.

(** [s.lower()] and [s.upper()] as they act on ASCII text, which is what
    format names and extensions are: the letters A to Z and a to z change,
    every other character stays.  The interpreter also folds letters
    beyond ASCII; properties that depend on the case of arbitrary text
    are stated for [is_ascii] strings. *)
Definition lower (s : string) : string := map_string lower_ascii s.
Definition upper (s : string) : string := map_string upper_ascii s.

(** [s.isascii()] *)
Fixpoint is_ascii (s : string) : bool :=
  match s with
  | EmptyString => true
  | String c rest => (nat_of_ascii c <? 128)%nat && is_ascii rest
  end.

(** The text after the last occurrence of [sep], if there is one. *)
Fixpoint after_last (sep : ascii) (s : string) : option string :=
  match s with
  | EmptyString => None
  | String c rest =>
      match after_last sep rest with
      | Some t => Some t
      | None => if Ascii.eqb c sep then Some rest else None
      end
  end.

(** [Path(p).name] *)
Definition path_name (p : string) : string := default p (after_last "/" p).

(** [Path(p).suffix]: from the last dot of the name, unless that dot is
    the first or the last character of the name. *)
Definition path_suffix (p : string) : string :=
  let name := path_name p in
  match name, after_last "." name with
  | String c _, Some ext =>
      if Ascii.eqb c "." && (String.length ext + 1 =? String.length name)%nat then ""
      else if String.eqb ext "" then "" else "." +:+ ext
  | _, _ => ""
  end.

(** [ext.lstrip(".")] *)
Fixpoint lstrip_dots (s : string) : string :=
  match s with
  | String "." rest => lstrip_dots rest
  | _ => s
  end.

Definition guess_mimetype (ext : string) : string :=
  let ext := lower (lstrip_dots ext) in
  if bool_decide (ext ∈ ["mp4"; "webm"]) then "video/" +:+ ext
  else if String.eqb ext "mkv" then "video/x-matroska"
  else if String.eqb ext "mp3" then "audio/mpeg"
  else if String.eqb ext "m4a" then "audio/mp4"
  else if String.eqb ext "ogg" then "audio/ogg"
  else "application/octet-stream".

(** ** services/downloader.py *)

Definition DEFAULT_QUALITY : string := "720p".

Definition QUALITY_PRESETS : list (string * value) :=
  [("360p", VNum 360); ("480p", VNum 480); ("720p", VNum 720);
   ("1024p", VNum 1024); ("1080p", VNum 1080)].

Fixpoint has_key (kvs : list (string * value)) (k : string) : bool :=
  match kvs with
  | [] => false
  | (k', _) :: rest => String.eqb k' k || has_key rest k
  end.

(** [QUALITY_PRESETS.get(quality, QUALITY_PRESETS[DEFAULT_QUALITY])]: the
    lookup hashes its key, and a dict cannot be hashed. *)
Definition quality_to_height (quality : value) : result value :=
  match quality with
  | VStr q => Ok (if has_key QUALITY_PRESETS q then assoc_get QUALITY_PRESETS q
                  else assoc_get QUALITY_PRESETS DEFAULT_QUALITY)
  | VDict _ => Raise (TypeError "unhashable type: 'dict'")
  | _ => Ok (assoc_get QUALITY_PRESETS DEFAULT_QUALITY)
  end.

(** Sizes in megabytes are held in hundredths, the precision
    [round(value / (1024 * 1024), 2)] keeps.  The quotient by [2^20] is
    exact in a float, and [round] takes it to the nearest hundredth, a
    tie to the even one. *)
Definition _bytes_to_mb (bytes : Z) : Z :=
  let q := (bytes * 100 / 1048576)%Z in
  let r := (bytes * 100 mod 1048576)%Z in
  if (r <? 524288)%Z then q
  else if (524288 <? r)%Z then (q + 1)%Z
  else if Z.even q then q else (q + 1)%Z.

Definition check_size_or_fail (estimated_size_mb : value) (max_size_mb : Z)
  : result unit :=
  match estimated_size_mb with
  | VNum est =>
      if (max_size_mb * 100 <? est)%Z
      then Raise (ValueError "Оценочный размер превышает лимит.")
      else Ok tt
  | _ => Ok tt
  end.

(** [int(15 + (done / total) * 70)] with the quotient taken exactly.
    The hook computes in floats: the two agree where [done / total] and
    its product with 70 are exact, as they are for the byte counts of the
    scripted downloads below, whose totals are powers of two.  What the
    hook computes in general is the [percent_of] of the environment. *)
Definition percent (done total : Z) : Z := ((15 * total + done * 70) ÷ total)%Z.

(** The world outside the repository, as one run of the pipeline meets
    it: configuration, the interpreter's floats, yt-dlp, the file system
    and ffmpeg. *)
Record env := {
  max_file_size_mb : Z;
  tmp_dir : string;
  (** [validate_url] accepts the URL *)
  url_allowed : value → bool;
  (** [probe(url, target_height)]: the metadata dict, or an exception *)
  probe : value → value → result value;
  (** [YoutubeDL(opts).extract_info(url, download=True)] for a format
      selector: the dicts passed to the progress hooks, in order, then
      the resolved file path or an exception *)
  ydl_download : string → value → list value * result string;
  (** [path.stat().st_size] *)
  st_size : string → result Z;
  (** [convert_any(source_path, want)] *)
  convert_any : string → string → result string;
  (** [int(15 + (done / total) * 70)], as floats compute it *)
  percent_of : Z → Z → Z
}.

Definition validate_url (e : env) (url : value) : result unit :=
  if url_allowed e url then Ok tt
  else Raise (ValueError "Ссылка с неподдерживаемого домена").

Definition ensure_size_within_limit (e : env) (path : string) (max_size_mb : Z)
  : result unit :=
  match st_size e path with
  | Raise x => Raise x
  | Ok bytes =>
      let size_mb := _bytes_to_mb bytes in
      if negb (size_mb =? 0)%Z && (max_size_mb * 100 <? size_mb)%Z
      then Raise (ValueError "Размер файла превышает лимит.")
      else Ok tt
  end.

(** ** The pipeline monad

    The pipeline runs over a store [S] it only reaches through the
    [update] callback it is given; exceptions leave the writes made so far
    in place. *)

Section pipeline_monad.
Context {S : Type}.

Definition pipeline (A : Type) : Type := S → result A * S.

Definition ret {A} (a : A) : pipeline A := λ s, (Ok a, s).

Definition bind {A C} (m : pipeline A) (f : A → pipeline C) : pipeline C :=
  λ s, match m s with
       | (Ok a, s') => f a s'
       | (Raise x, s') => (Raise x, s')
       end.

Definition lift {A} (r : result A) : pipeline A := λ s, (r, s).

(** A call of a callback that returns nothing. *)
Definition call (f : S → S) : pipeline unit := λ s, (Ok tt, f s).

(** [try: m  except Exception as exc: h exc] *)
Definition try_except {A} (m : pipeline A) (h : exn → pipeline A) : pipeline A :=
  λ s, match m s with
       | (Ok a, s') => (Ok a, s')
       | (Raise x, s') => h x s'
       end.

End pipeline_monad.

Declare Scope pipeline_scope.
Delimit Scope pipeline_scope with pipeline.
Notation "x <- m ;; k" := (bind m (λ x, k))
  (at level 100, m at next level, right associativity) : pipeline_scope.
Notation "m ;; k" := (bind m (λ _, k))
  (at level 100, right associativity) : pipeline_scope.

(** ** worker.py *)

Definition ALLOWED_FORMATS : list string :=
  ["mp4"; "webm"; "mkv"; "mp3"; "m4a"; "ogg"; "source"].

Section worker.
Context {S : Type}.
Variable e : env.

(** The progress hook handed to yt-dlp.  Byte counts are numbers or
    absent; anything else counts as absent. *)
Definition hook (update : record → S → S) (data : value) : S → S :=
  let total := py_or (py_or (dict_get data "total_bytes")
                            (dict_get data "total_bytes_estimate")) (VNum 0) in
  let done := py_or (dict_get data "downloaded_bytes") (VNum 0) in
  match total, done with
  | VNum total, VNum done =>
      if negb (total =? 0)%Z
      then update {[ "progress" :=
                       VNum (Z.min 90 (Z.max 20 (percent_of e done total))) ]}
      else id
  | _, _ => id
  end.

(** One [extract_info(url, download=True)]: the hooks fire, then the call
    returns or raises. *)
Definition run_ydl (fmt : string) (url : value) (progress_cb : value → S → S)
  : pipeline string :=
  λ s, let '(datas, r) := ydl_download e fmt url in
       (r, foldl (λ s d, progress_cb d s) s datas).

(** [download_video]: the first attempt, and on [DownloadError] the retry
    with the generic selector and the same hooks. *)
Definition download_video (url : value) (out_dir : string)
    (progress_cb : value → S → S) (quality : value) : pipeline string :=
  (lift (validate_url e url) ;;
   try_except (run_ydl "bestvideo+bestaudio/best" url progress_cb)
     (λ exc, match exc with
             | DownloadError _ => run_ydl "best" url progress_cb
             | _ => lift (Raise exc)
             end))%pipeline.

(** What comes before the [try] raises to the caller: [payload.get] on a
    payload that is not a dict, [lower] on a format that is not a string,
    the lookup of a quality that cannot be hashed. *)
Definition process_job_async (job_id : string) (payload : value)
    (update : record → S → S) : pipeline unit :=
  match payload with
  | VDict _ =>
  let url := dict_get payload "url" in
  if negb (truthy url) then
    call (update {[ "status" := VStr "error";
                    "message" := VStr "URL отсутствует.";
                    "error" := VStr "missing_url" ]})
  else
  match py_or (py_or (dict_get payload "want") (dict_get payload "format"))
              (VStr "mp4") with
  | VStr w =>
    let want := lower w in
    if negb (bool_decide (want ∈ ALLOWED_FORMATS)) then
      call (update {[ "status" := VStr "error";
                      "message" := VStr ("Формат '" +:+ want +:+ "' не поддерживается.");
                      "error" := VStr "unsupported_format" ]})
    else
    let quality :=
      match payload with
      | VDict kvs => if has_key kvs "quality" then assoc_get kvs "quality"
                     else VStr DEFAULT_QUALITY
      | _ => VStr DEFAULT_QUALITY
      end in
    match quality_to_height quality with
    | Raise exc => lift (Raise exc)
    | Ok target_height =>
    let output_dir := tmp_dir e +:+ "/" +:+ job_id in
    try_except
      (call (update {[ "status" := VStr "fetching";
                       "message" := VStr "Получаю метаданные";
                       "progress" := VNum 5 ]}) ;;
       meta <- lift (probe e url target_height) ;;
       call (update {[ "meta" := meta ]}) ;;
       lift (check_size_or_fail (dict_get meta "estimated_size_mb")
                                (max_file_size_mb e)) ;;
       call (update {[ "status" := VStr "downloading";
                       "message" := VStr "Скачиваю медиаконтент...";
                       "progress" := VNum 15 ]}) ;;
       source_path <- download_video url output_dir (hook update) quality ;;
       lift (ensure_size_within_limit e source_path (max_file_size_mb e)) ;;
       final <-
         (if String.eqb want "source" then
            ret (Some (source_path, guess_mimetype (path_suffix source_path)))
          else if bool_decide (want ∈ ALLOWED_FORMATS) then
            let is_video_format := bool_decide (want ∈ ["mp4"; "webm"; "mkv"]) in
            let converting_progress := if is_video_format then 95%Z else 92%Z in
            call (update {[ "status" := VStr "converting";
                            "message" := VStr ("Конвертация в " +:+ upper want +:+ "...");
                            "progress" := VNum converting_progress ]}) ;;
            final_path <- lift (convert_any e source_path want) ;;
            ret (Some (final_path, guess_mimetype (path_suffix final_path)))
          else
            call (update {[ "status" := VStr "error";
                            "message" := VStr ("Формат " +:+ want +:+ " не поддерживается.");
                            "error" := VStr "unsupported_format" ]}) ;;
            ret None) ;;
       match final with
       | None => ret tt
       | Some (final_path, mimetype) =>
           call (update {[ "status" := VStr "done";
                           "message" := VStr "Файл готов к скачиванию.";
                           "progress" := VNum 100;
                           "result" := VDict [("file_path", VStr final_path);
                                              ("filename", VStr (path_name final_path));
                                              ("mimetype", VStr mimetype);
                                              ("meta", meta)];
                           "file_path" := VStr final_path;
                           "filename" := VStr (path_name final_path);
                           "mimetype" := VStr mimetype ]})
       end)%pipeline
      (λ exc, call (update {[ "status" := VStr "error";
                              "message" := VStr (str_exn exc);
                              "error" := VStr (str_exn exc) ]}))
    end
  | _ => lift (Raise (AttributeError "object has no attribute 'lower'"))
  end
  | _ => lift (Raise (AttributeError "object has no attribute 'get'"))
  end.

End worker.

(** [job.get("payload") or {}] *)
Definition payload_of (job : record) : value := py_or (rec_get job "payload") (VDict []).

(** The closure [update] of [run_job]: read, merge, write back; neither
    [job_id] nor [updated_at] is touched. *)
Definition run_job_update (job_id : string) (fields : record)
    (backend : RQBackend.t) : RQBackend.t :=
  let current := match RQBackend.get backend job_id with
                 | Some job => if truthy_rec job then job else ∅
                 | None => ∅
                 end in
  RQBackend.set backend job_id (fields ∪ current).

(** [run_job]: the entry point of an RQ worker process, on the backend it
    connects to.  An exception leaving the pipeline leaves the process. *)
Definition run_job (e : env) (job_id : string) (backend : RQBackend.t)
  : result unit * RQBackend.t :=
  match RQBackend.get backend job_id with
  | None => (Ok tt, backend)
  | Some job =>
      if negb (truthy_rec job) then (Ok tt, backend)
      else process_job_async e job_id (payload_of job) (run_job_update job_id) backend
  end.

(** ** main.py: one turn of [start_worker]

    The store is the configured handle and the clock [job_update] reads. *)

Record world (B : Type) := World {
  backend : option B;
  clock : Z
}.
Arguments World {B} _ _.
Arguments backend {B} _.
Arguments clock {B} _.

Section memory_worker.
Context {B : Type} `{JobBackend B}.

(** [job_update(job_id, **fields)] as a callback: its return value and,
    on a configured backend, its exception are not used. *)
Definition updater (job_id : string) (fields : record) (w : world B) : world B :=
  World (job_update (backend w) job_id fields (clock w)).2 (clock w).

Definition start_worker_turn (e : env) (job_id : string) (w : world B)
  : result unit * world B :=
  match job_status (backend w) job_id with
  | (Ok (Some job), _) =>
      if negb (truthy_rec job) then (Ok tt, w)
      else
        try_except
          (process_job_async e job_id (payload_of job) (updater job_id))
          (λ exc, call (updater job_id
                          {[ "status" := VStr "error";
                             "message" := VStr (str_exn exc);
                             "error" := VStr (str_exn exc) ]}))
          w
  | (Ok None, _) => (Ok tt, w)
  | (Raise exc, _) =>
      (* the handler's own [job_update] raises again *)
      (Raise exc, w)
  end.

End memory_worker.

(** ** routes/download.py

    The handlers that read or write job records.  A response is the
    handler's return value; an [HTTPException] is raised like any other
    exception.  Removing the artifact from disk is the caller-supplied
    outcome of [os.remove]; [delete_path] swallows its own errors. *)

Definition is_str (v : value) (s : string) : bool :=
  match v with
  | VStr s' => String.eqb s' s
  | _ => false
  end.

Definition is_none (v : value) : bool :=
  match v with
  | VNone => true
  | _ => false
  end.

(** [d[k]] on a dict value *)
Definition dict_item (d : value) (k : string) : result value :=
  match d with
  | VDict kvs => if has_key kvs k then Ok (assoc_get kvs k) else Raise (KeyError k)
  | _ => Raise (KeyError k)
  end.

(** [job[k]] on a record *)
Definition rec_item (job : record) (k : string) : result value :=
  match job !! k with
  | Some v => Ok v
  | None => Raise (KeyError k)
  end.

Section routes.
Context {B : Type} `{JobBackend B}.

(** [GET /status/{job_id}] *)
Definition status (job_id : string) (w : world B) : result value * world B :=
  match job_status (backend w) job_id with
  | (Raise exc, _) => (Raise exc, w)
  | (Ok None, _) => (Raise (HTTPException 404 "job not found"), w)
  | (Ok (Some job), _) =>
      if negb (truthy_rec job) then (Raise (HTTPException 404 "job not found"), w)
      else
        match rec_item job "status", rec_item job "progress",
              rec_item job "message", rec_item job "error" with
        | Ok st, Ok pr, Ok msg, Ok err =>
            let data := [("status", st); ("progress", pr); ("message", msg);
                         ("error", err); ("reason", rec_get job "reason")] in
            if is_str st "done" && truthy (rec_get job "result") then
              let result := rec_get job "result" in
              (Ok (VDict (data ++ [("filename", dict_get result "filename");
                                   ("meta", dict_get result "meta")])), w)
            else (Ok (VDict data), w)
        | Raise exc, _, _, _ | _, Raise exc, _, _
        | _, _, Raise exc, _ | _, _, _, Raise exc => (Raise exc, w)
        end
  end.

(** [GET /file/{job_id}]: the response (path, media type, file name) and
    the background task ([job_id], [file_path]) it schedules. *)
Definition file (job_id : string) (w : world B)
  : result ((string * value * value) * (string * string)) * world B :=
  match job_status (backend w) job_id with
  | (Raise exc, _) => (Raise exc, w)
  | (Ok None, _) => (Raise (HTTPException 404 "file not ready"), w)
  | (Ok (Some job), _) =>
      if negb (truthy_rec job) || is_none (rec_get job "result")
      then (Raise (HTTPException 404 "file not ready"), w)
      else
        match rec_item job "status" with
        | Raise exc => (Raise exc, w)
        | Ok st =>
            if negb (is_str st "done")
            then (Raise (HTTPException 404 "file not ready"), w)
            else
              let result := rec_get job "result" in
              match dict_item result "file_path", dict_item result "mimetype",
                    dict_item result "filename" with
              | Ok (VStr path), Ok mimetype, Ok filename =>
                  (Ok ((path, mimetype, filename), (job_id, path)), w)
              | Raise exc, _, _ | _, Raise exc, _ | _, _, Raise exc =>
                  (Raise exc, w)
              | Ok _, _, _ => (Raise (KeyError "file_path"), w)
              end
        end
  end.

(** [DELETE /file/{job_id}]; [os_remove] is what [os.remove(path)] does. *)
Definition delete_file (os_remove : string → result unit) (job_id : string)
    (w : world B) : result unit * world B :=
  match job_status (backend w) job_id with
  | (Raise exc, _) => (Raise exc, w)
  | (Ok None, _) => (Raise (HTTPException 404 "not found"), w)
  | (Ok (Some job), _) =>
      if negb (truthy_rec job) || is_none (rec_get job "result")
      then (Raise (HTTPException 404 "not found"), w)
      else
        match dict_item (rec_get job "result") "file_path" with
        | Raise exc => (Raise exc, w)
        | Ok path =>
            let removed :=
              match path with
              | VStr p => match os_remove p with
                          | Raise (FileNotFoundError _) => Ok tt
                          | r => r
                          end
              | _ => Raise (OSError "not a path")
              end in
            match removed with
            | Raise exc => (Raise exc, w)
            | Ok _ =>
                match job_update (backend w) job_id
                        {[ "result" := VNone;
                           "status" := VStr "deleted";
                           "message" := VStr "Файл удалён" ]} (clock w) with
                | (Raise exc, b) => (Raise exc, World b (clock w))
                | (Ok _, b) => (Ok tt, World b (clock w))
                end
            end
        end
  end.

(** The background task scheduled by [file]. *)
Definition _cleanup_after_download (job_id : string) (file_path : string)
    (w : world B) : result unit * world B :=
  match job_update (backend w) job_id
          {[ "result" := VNone;
             "status" := VStr "deleted";
             "message" := VStr "Файл удалён после скачивания" ]} (clock w) with
  | (Raise exc, b) => (Raise exc, World b (clock w))
  | (Ok _, b) => (Ok tt, World b (clock w))
  end.

End routes.

(** ** The life of one job

    What happens to the record of one job [jid] between its creation and
    the end of the process, as a sequence of events: the worker takes the
    job and performs its writes one at a time; between any two of them the
    clock may advance, requests for the job's file may arrive, scheduled
    background tasks may run, and other jobs may be created and updated.

    The worker's writes are the calls of [update] that
    [process_job_async] makes, recorded in order: the pipeline reaches the
    store through [update] only and never reads it back. *)

(** [update] as a recorder of its keyword arguments. *)
Definition record_call (fields : record) (calls : list record) : list record :=
  calls ++ [fields].

(** The writes of the pipeline for a job, and how it ends. *)
Definition pipeline_writes (e : env) (job_id : string) (payload : value)
  : result unit * list record :=
  process_job_async e job_id payload record_call [].

Inductive event :=
| Tick (d : Z)
| Pickup
| WorkerWrite
| GetFile
| DeleteFile (os_remove : string → result unit)
| Cleanup
| OtherUpdate (job_id : string) (fields : record)
| OtherEnqueue (job_id : string) (payload : value).

Record sys (B : Type) := Sys {
  sys_world : world B;
  (** the writes the worker still has to make, once it has taken the job *)
  sys_worker : option (list record);
  (** background tasks scheduled by [file] and not yet run *)
  sys_tasks : list (string * string)
}.
Arguments Sys {B} _ _ _.
Arguments sys_world {B} _.
Arguments sys_worker {B} _.
Arguments sys_tasks {B} _.

Section lifecycle.
Context {B : Type} `{JobBackend B}.
Variable e : env.
Variable jid : string.
(** How the worker writes: [updater] in the in-process worker, the
    closure of [run_job] in an RQ worker. *)
Variable write : string → record → world B → world B.
(** Whether an exception leaving the pipeline is written to the record
    ([start_worker]) or not ([run_job]). *)
Variable catches : bool.

Definition worker_writes (job : record) : list record :=
  let '(r, calls) := pipeline_writes e jid (payload_of job) in
  match r with
  | Raise exc =>
      if catches
      then calls ++ [ {[ "status" := VStr "error";
                         "message" := VStr (str_exn exc);
                         "error" := VStr (str_exn exc) ]} ]
      else calls
  | Ok _ => calls
  end.

(** The record of the job, as [job_status] returns it. *)
Definition record_of (w : world B) : option record :=
  match job_status (backend w) jid with
  | (Ok (Some job), _) => Some job
  | _ => None
  end.

Definition step (s : sys B) (ev : event) : sys B :=
  let w := sys_world s in
  match ev with
  | Tick d => Sys (World (backend w) (clock w + Z.max 0 d)) (sys_worker s) (sys_tasks s)
  | Pickup =>
      match sys_worker s with
      | Some _ => s
      | None =>
          match record_of w with
          | Some job =>
              Sys w (Some (if truthy_rec job then worker_writes job else []))
                  (sys_tasks s)
          | None => Sys w (Some []) (sys_tasks s)
          end
      end
  | WorkerWrite =>
      match sys_worker s with
      | Some (fields :: rest) => Sys (write jid fields w) (Some rest) (sys_tasks s)
      | _ => s
      end
  | GetFile =>
      match file jid w with
      | (Ok (_, task), w') => Sys w' (sys_worker s) (sys_tasks s ++ [task])
      | (Raise _, w') => Sys w' (sys_worker s) (sys_tasks s)
      end
  | DeleteFile os_remove =>
      Sys (delete_file os_remove jid w).2 (sys_worker s) (sys_tasks s)
  | Cleanup =>
      match sys_tasks s with
      | (job_id, file_path) :: rest =>
          Sys (_cleanup_after_download job_id file_path w).2 (sys_worker s) rest
      | [] => s
      end
  | OtherUpdate job_id fields =>
      if decide (job_id = jid) then s
      else Sys (updater job_id fields w) (sys_worker s) (sys_tasks s)
  | OtherEnqueue job_id payload =>
      if decide (job_id = jid) then s
      else Sys (World (create_job (backend w) payload job_id (clock w)).2 (clock w))
               (sys_worker s) (sys_tasks s)
  end.

(** The states a sequence of events goes through, the first included. *)
Fixpoint states (s : sys B) (evs : list event) : list (sys B) :=
  s :: match evs with
       | [] => []
       | ev :: evs' => states (step s ev) evs'
       end.

(** The system right after [create_job] returned [jid]. *)
Definition created (b : B) (now : Z) (payload : value) : sys B :=
  Sys (World (create_job (Some b) payload jid now).2 now) None [].

(** The records of the job that a sequence of events makes observable. *)
Definition history (b : B) (now : Z) (payload : value) (evs : list event)
  : list record :=
  omap (λ s, record_of (sys_world s)) (states (created b now payload) evs).

End lifecycle.

(** The two deployments. *)
Definition memory_history (e : env) (jid : string) :=
  history (B := MemoryBackend.t) e jid updater true.

Definition rq_write (job_id : string) (fields : record) (w : world RQBackend.t)
  : world RQBackend.t :=
  World (run_job_update job_id fields <$> backend w) (clock w).

Definition rq_history (e : env) (jid : string) :=
  history (B := RQBackend.t) e jid rq_write false.

(** The fields the properties of a record's life look at. *)
Definition status_of (r : record) : value := rec_get r "status".
Definition progress_of (r : record) : value := rec_get r "progress".
Definition result_of (r : record) : value := rec_get r "result".

(** ** utils/ratelimit.py *)

Module ratelimit.

Definition WINDOW_SECONDS : Z := 600.
Definition LIMIT : Z := 10.

(** [while queue and now - queue[0] > window: queue.pop(0)] *)
Fixpoint drop_old (now window : Z) (queue : list Z) : list Z :=
  match queue with
  | [] => []
  | t :: rest => if (window <? now - t)%Z then drop_old now window rest else queue
  end.

(** [_hits] is a [defaultdict(list)]: reading a missing identifier
    creates its empty list.  [now] is the clock read of this call. *)
Definition allow (_hits : gmap string (list Z)) (identifier : string) (now : Z)
    (limit window : Z) : bool * gmap string (list Z) :=
  let queue := drop_old now window (default [] (_hits !! identifier)) in
  if (limit <=? Z.of_nat (length queue))%Z
  then (false, <[identifier := queue]> _hits)
  else (true, <[identifier := queue ++ [now]]> _hits).

Definition reset (_hits : gmap string (list Z)) : gmap string (list Z) := ∅.

(** A sequence of calls [(identifier, now)], in the order they are made:
    the answers, and the state left behind. *)
Fixpoint serve (limit window : Z) (_hits : gmap string (list Z))
    (calls : list (string * Z)) : list bool * gmap string (list Z) :=
  match calls with
  | [] => ([], _hits)
  | (identifier, now) :: rest =>
      let '(ok, hits') := allow _hits identifier now limit window in
      let '(oks, hits'') := serve limit window hits' rest in
      (ok :: oks, hits'')
  end.

(** The times at which [identifier] was admitted. *)
Fixpoint admissions (identifier : string) (calls : list (string * Z))
    (answers : list bool) : list Z :=
  match calls, answers with
  | (i, now) :: calls', ok :: answers' =>
      if ok && bool_decide (i = identifier)
      then now :: admissions identifier calls' answers'
      else admissions identifier calls' answers'
  | _, _ => []
  end.

(** The answers to a sequence of calls made on a fresh limiter, the
    state they leave, and the admissions of an identifier among them. *)
Definition answers (limit window : Z) (calls : list (string * Z)) : list bool :=
  (serve limit window ∅ calls).1.

Definition state (limit window : Z) (calls : list (string * Z))
  : gmap string (list Z) :=
  (serve limit window ∅ calls).2.

Definition admitted (limit window : Z) (identifier : string)
    (calls : list (string * Z)) : list Z :=
  admissions identifier calls (answers limit window calls).

(** The events of a list that are not older than the window at [now]. *)
Definition in_window (now window : Z) (events : list Z) : list Z :=
  filter (λ t, (now - t ≤ window)%Z) events.

(** The admissions that fall in the closed interval [[a, a + window]]. *)
Definition within (a window : Z) (events : list Z) : list Z :=
  filter (λ t, (a ≤ t ≤ a + window)%Z) events.

End ratelimit.

(** ** utils/cleanup.py

    The temporary directory as a tree.  A directory maps names to its
    entries; every entry carries its last-modified time.  The file system
    raises no error, and removing an entry stamps the directory it is
    removed from, as [unlink] and [rmdir] do; the sweep is short with
    respect to the clock, so that stamp is [now]. *)

Module cleanup.

Inductive node :=
| File (mtime : Z)
| Dir (mtime : Z) (entries : gmap string node).

Definition mtime_of (n : node) : Z :=
  match n with
  | File m | Dir m _ => m
  end.

(** What is left of a path after [delete_path]: nothing when the path is
    a file; for a directory, every child is deleted, then [rmdir]
    succeeds on the empty directory. *)
Fixpoint delete_path (n : node) : option node :=
  match n with
  | File _ => None
  | Dir m entries =>
      let left := omap delete_path entries in
      if bool_decide (size left = 0%nat) then None else Some (Dir m left)
  end.

(** The time stamp of a directory after its entries went from [before] to
    [after]. *)
Definition touched (now m : Z) (before after : gmap string node) : Z :=
  if bool_decide (size after = size before) then m else now.

(** One path yielded by [_iter_all_paths] and handled by the loop of
    [cleanup_expired_files]: for a directory, everything below it has
    been yielded and handled before the directory itself is. *)
Fixpoint sweep (now ttl_seconds : Z) (n : node) : option node :=
  match n with
  | File m =>
      if (ttl_seconds <? now - m)%Z then delete_path n else Some n
  | Dir m entries =>
      let entries' := omap (sweep now ttl_seconds) entries in
      let m' := touched now m entries entries' in
      if (ttl_seconds <? now - m')%Z
      then delete_path (Dir m' entries')
      else Some (Dir m' entries')
  end.

(** [base_dir] is [None] when the path does not exist.  The base
    directory itself is not among the paths visited. *)
Definition cleanup_expired_files (now : Z) (base_dir : option node)
    (ttl_seconds : Z) : option node :=
  match base_dir with
  | None => None
  | Some (File m) => Some (File m) (* [iterdir] raises, nothing is removed *)
  | Some (Dir m entries) =>
      let entries' := omap (sweep now ttl_seconds) entries in
      Some (Dir (touched now m entries entries') entries')
  end.

(** The number of entries of a tree, itself included. *)
Fixpoint weight (n : node) : nat :=
  match n with
  | File _ => 1
  | Dir _ entries => S (map_fold (λ _ child acc, weight child + acc) 0 entries)
  end.

(** The entry at a relative path. *)
Fixpoint lookup_path (n : node) (path : list string) : option node :=
  match path with
  | [] => Some n
  | name :: path' =>
      match n with
      | Dir _ entries =>
          match entries !! name with
          | Some child => lookup_path child path'
          | None => None
          end
      | File _ => None
      end
  end.

Definition at_path (base_dir : option node) (path : list string) : option node :=
  match base_dir with
  | Some n => lookup_path n path
  | None => None
  end.

(** The directories strictly between [n] and the entry at [path] all have
    an age within the TTL. *)
Fixpoint ancestors_fresh (now ttl_seconds : Z) (n : node) (path : list string)
  : Prop :=
  match path with
  | [] | [_] => True
  | name :: path' =>
      match n with
      | Dir _ entries =>
          match entries !! name with
          | Some child =>
              (now - mtime_of child ≤ ttl_seconds)%Z
              ∧ ancestors_fresh now ttl_seconds child path'
          | None => True
          end
      | File _ => True
      end
  end.

End cleanup.

(** ** utils/paths.py: [safe_filename]

    A [str] is its sequence of Unicode code points.  What [\w] matches
    among non-ASCII code points is the Unicode database's business and is
    left open; on ASCII it is the letters, the digits and the underscore. *)

Module paths.

Definition str := list Z.

Definition inspect {A} (a : A) : {b | a = b} := exist _ a eq_refl.

(** The code points of an ASCII literal. *)
Fixpoint of_string (s : string) : str :=
  match s with
  | EmptyString => []
  | String c rest => Z.of_nat (nat_of_ascii c) :: of_string rest
  end.

Definition in_range (lo hi c : Z) : bool := (lo <=? c)%Z && (c <=? hi)%Z.

Section safe_filename.
(** [\w] beyond ASCII *)
Variable unicode_word : Z → bool.

Definition is_word (c : Z) : bool :=
  if (c <? 128)%Z
  then in_range 97 122 c || in_range 65 90 c || in_range 48 57 c || (c =? 95)%Z
  else unicode_word c.

(** The characters [SAFE_FILENAME_RE] does not match:
    [\w], [-], [.], space, [(], [)] and U+0400..U+04FF. *)
Definition kept (c : Z) : bool :=
  is_word c || (c =? 45)%Z || (c =? 46)%Z || (c =? 32)%Z
  || (c =? 40)%Z || (c =? 41)%Z || in_range 1024 1279 c.

(** [SAFE_FILENAME_RE.sub("_", name)] *)
Definition re_sub (name : str) : str :=
  map (λ c, if kept c then c else 95%Z) name.

(** [a + b in s] for two characters [a], [b] *)
Fixpoint contains2 (a b : Z) (s : str) : bool :=
  match s with
  | [] => false
  | c :: rest =>
      match rest with
      | d :: _ => ((c =? a)%Z && (d =? b)%Z) || contains2 a b rest
      | [] => false
      end
  end.

(** [s.replace(a + b, new)]: the occurrences are taken from the left and
    do not overlap. *)
Fixpoint replace2 (a b : Z) (new : str) (s : str) : str :=
  match s with
  | [] => []
  | c :: rest =>
      match rest with
      | d :: rest' =>
          if (c =? a)%Z && (d =? b)%Z then new ++ replace2 a b new rest'
          else c :: replace2 a b new rest
      | [] => [c]
      end
  end.

(** [while ".." in sanitized: sanitized = sanitized.replace("..", "_")] *)
Equations? collapse_dots (s : str) : str by wf (length s) lt :=
  collapse_dots s with inspect (contains2 46 46 s) => {
    | exist _ true _ := collapse_dots (replace2 46 46 [95%Z] s);
    | exist _ false _ := s }.
Proof.
  clear collapse_dots.
  assert (Hle : ∀ n t, length t ≤ n →
                       length (replace2 46 46 [95%Z] t) ≤ length t).
  { induction n as [|n IH]; intros [|c [|d t]]; simpl; try lia.
    destruct (_ && _); simpl; intros Hn.
    - specialize (IH t). lia.
    - specialize (IH (d :: t)). simpl in IH. lia. }
  revert e. induction s as [|c [|d t] IH]; simpl; [done..|].
  destruct ((c =? 46)%Z && (d =? 46)%Z); simpl.
  - intros _. specialize (Hle _ t (le_n _)). lia.
  - intros Hc. specialize (IH Hc). simpl in IH. lia.
Qed.

(** The characters of [" ._"] *)
Definition stripped (c : Z) : bool := (c =? 32)%Z || (c =? 46)%Z || (c =? 95)%Z.

Fixpoint lstrip (s : str) : str :=
  match s with
  | [] => []
  | c :: rest => if stripped c then lstrip rest else s
  end.

(** [s.strip(" ._")] *)
Definition strip (s : str) : str := rev (lstrip (rev (lstrip s))).

(** [name] is [None] or a string. *)
Definition safe_filename (name : option str) (fallback : str) : str :=
  let name := match name with
              | Some (c :: s) => c :: s
              | _ => fallback
              end in
  let sanitized := re_sub name in
  let sanitized := collapse_dots sanitized in
  let sanitized := replace2 95 95 [95%Z] sanitized in
  let sanitized := strip sanitized in
  match sanitized with
  | [] => fallback
  | _ => sanitized
  end.

End safe_filename.

(** The default of [fallback]. *)
Definition default_fallback : str := of_string "file".

End paths.

(** ** Records as shared objects

    [dict(job)] copies the top level of a dict: the values of the copy
    are the very objects the original holds.  To see what a caller can do
    with the dict returned by [get], dicts are objects on a heap here and
    a value that is a dict is a reference to one. *)

Module aliasing.

Definition loc := nat.

Inductive pyval :=
| PNone
| PNum (n : Z)
| PStr (s : string)
| PRef (l : loc).

Record heap := Heap {
  objs : gmap loc (gmap string pyval);
  next : loc
}.

Definition empty_heap : heap := Heap ∅ 0.

(** A new dict object. *)
Definition alloc (h : heap) (d : gmap string pyval) : loc * heap :=
  (next h, Heap (<[next h := d]> (objs h)) (S (next h))).

(** [dict(d)] *)
Definition copy_dict (h : heap) (l : loc) : loc * heap :=
  alloc h (default ∅ (objs h !! l)).

(** [d[k] = v] *)
Definition setitem (h : heap) (l : loc) (k : string) (v : pyval) : heap :=
  Heap (alter (λ d, <[k := v]> d) l (objs h)) (next h).

(** [d[k1][k2] = v] *)
Definition setitem2 (h : heap) (l : loc) (k1 k2 : string) (v : pyval) : heap :=
  match objs h !! l with
  | Some d => match d !! k1 with
              | Some (PRef l1) => setitem h l1 k2 v
              | _ => h
              end
  | None => h
  end.

(** [d[k]] and [d[k1][k2]], [None] when there is no such item *)
Definition getitem (h : heap) (l : loc) (k : string) : pyval :=
  match objs h !! l with
  | Some d => default PNone (d !! k)
  | None => PNone
  end.

Definition getitem2 (h : heap) (l : loc) (k1 k2 : string) : pyval :=
  match getitem h l k1 with
  | PRef l1 => getitem h l1 k2
  | _ => PNone
  end.

(** The value an object graph denotes, read [fuel] levels deep. *)
Fixpoint snapshot (fuel : nat) (h : heap) (v : pyval) : value :=
  match v with
  | PNone => VNone
  | PNum n => VNum n
  | PStr s => VStr s
  | PRef l =>
      match fuel with
      | 0 => VNone
      | S fuel' =>
          VDict (map (λ kv, (kv.1, snapshot fuel' h kv.2))
                     (map_to_list (default ∅ (objs h !! l))))
      end
  end.

(** [MemoryBackend]: [self.jobs] maps a job id to its record object. *)
Record memory := Memory {
  jobs : gmap string loc;
  queue : list string
}.

Definition initial_object (job_id : string) (now : Z) (payload : pyval)
  : gmap string pyval :=
  <["job_id" := PStr job_id]>
  {[ "status" := PStr "queued";
     "progress" := PNum 0;
     "message" := PStr "В очереди";
     "result" := PNone;
     "error" := PNone;
     "reason" := PNone;
     "file_path" := PNone;
     "filename" := PNone;
     "mimetype" := PNone;
     "meta" := PNone;
     "payload" := payload;
     "created_at" := PNum now;
     "updated_at" := PNum now ]}.

Definition enqueue (self : memory) (h : heap) (job_id : string) (now : Z)
    (payload : pyval) : memory * heap :=
  let '(l, h') := alloc h (initial_object job_id now payload) in
  (Memory (<[job_id := l]> (jobs self)) (queue self ++ [job_id]), h').

(** [dict(job) if job else None] *)
Definition get (self : memory) (h : heap) (job_id : string)
  : option loc * heap :=
  match jobs self !! job_id with
  | Some l =>
      if bool_decide (size (default ∅ (objs h !! l)) = 0%nat) then (None, h)
      else let '(l', h') := copy_dict h l in (Some l', h')
  | None => (None, h)
  end.

Definition set (self : memory) (h : heap) (job_id : string) (data : loc)
  : memory * heap :=
  let '(l, h') := copy_dict h data in
  (Memory (<[job_id := l]> (jobs self)) (queue self), h').

(** [job_status] on a configured [MemoryBackend]: [get], then [dict(job)]
    once more. *)
Definition job_status (self : memory) (h : heap) (job_id : string)
  : option loc * heap :=
  match get self h job_id with
  | (Some l, h') => let '(l', h'') := copy_dict h' l in (Some l', h'')
  | (None, h') => (None, h')
  end.

(** [self.jobs[job_id][k1][k2]], read in the store itself. *)
Definition stored_item2 (self : memory) (h : heap) (job_id : string)
    (k1 k2 : string) : pyval :=
  match jobs self !! job_id with
  | Some l => getitem2 h l k1 k2
  | None => PNone
  end.

(** The stored record of a job, as a value. *)
Definition stored (fuel : nat) (self : memory) (h : heap) (job_id : string)
  : option value :=
  (λ l, snapshot fuel h (PRef l)) <$> jobs self !! job_id.

(** [json.loads]: a new object for every dict of the text. *)
Fixpoint loads (h : heap) (v : value) : pyval * heap :=
  match v with
  | VNone => (PNone, h)
  | VNum n => (PNum n, h)
  | VStr s => (PStr s, h)
  | VDict kvs =>
      let fix items (h : heap) (kvs : list (string * value))
          : gmap string pyval * heap :=
        match kvs with
        | [] => (∅, h)
        | (k, v) :: rest =>
            let '(d, h1) := items h rest in
            let '(pv, h2) := loads h1 v in
            (<[k := pv]> d, h2)
        end in
      let '(d, h') := items h kvs in
      let '(l, h'') := alloc h' d in
      (PRef l, h'')
  end.

(** [RQBackend.get]: Redis holds the text, [get] parses it anew. *)
Definition rq_get (redis : gmap string value) (h : heap) (job_id : string)
  : option pyval * heap :=
  match redis !! RQBackend._key job_id with
  | Some raw => let '(v, h') := loads h raw in (Some v, h')
  | None => (None, h)
  end.

End aliasing.

(** ** Vocabulary of the properties *)

(** What the operations of [jobs.py] rely on in a backend. *)
Class JobBackendLaws (B : Type) `{JobBackend B} : Prop := {
  get_set_eq (b : B) id r : truthy_rec r = true → get (set b id r) id = Some r;
  get_set_ne (b : B) id id' r : id ≠ id' → get (set b id r) id' = get b id';
  get_enqueue_eq (b : B) id now p :
    get (enqueue b id now p).1 id = Some (initial_record id now p);
  get_enqueue_ne (b : B) id id' now p :
    id ≠ id' → get (enqueue b id now p).1 id' = get b id';
  enqueue_id (b : B) id now p : (enqueue b id now p).2 = id
}.

(** Calls on the configured backend, for histories of the store. *)
Inductive op :=
| OpCreate (job_id : string) (payload : value) (now : Z)
| OpUpdate (job_id : string) (fields : record) (now : Z)
| OpStatus (job_id : string).

Definition op_id (o : op) : string :=
  match o with
  | OpCreate job_id _ _ | OpUpdate job_id _ _ | OpStatus job_id => job_id
  end.

Definition run_op {B : Type} `{JobBackend B} (_backend : option B) (o : op)
  : option B :=
  match o with
  | OpCreate job_id payload now => (create_job _backend payload job_id now).2
  | OpUpdate job_id fields now => (job_update _backend job_id fields now).2
  | OpStatus job_id => (job_status _backend job_id).2
  end.

(** The keyword arguments of the calls of [update] in the pipeline. *)
Definition w_error (message error : string) : record :=
  {[ "status" := VStr "error"; "message" := VStr message; "error" := VStr error ]}.

Definition w_failed (exc : exn) : record := w_error (str_exn exc) (str_exn exc).

Definition w_fetching : record :=
  {[ "status" := VStr "fetching";
     "message" := VStr "Получаю метаданные";
     "progress" := VNum 5 ]}.

Definition w_meta (meta : value) : record := {[ "meta" := meta ]}.

Definition w_downloading : record :=
  {[ "status" := VStr "downloading";
     "message" := VStr "Скачиваю медиаконтент...";
     "progress" := VNum 15 ]}.

Definition w_progress (p : Z) : record := {[ "progress" := VNum p ]}.

Definition converting_progress (want : string) : Z :=
  if bool_decide (want ∈ ["mp4"; "webm"; "mkv"]) then 95%Z else 92%Z.

Definition w_converting (want : string) : record :=
  {[ "status" := VStr "converting";
     "message" := VStr ("Конвертация в " +:+ upper want +:+ "...");
     "progress" := VNum (converting_progress want) ]}.

Definition w_done (meta : value) (final_path : string) : record :=
  let mimetype := guess_mimetype (path_suffix final_path) in
  {[ "status" := VStr "done";
     "message" := VStr "Файл готов к скачиванию.";
     "progress" := VNum 100;
     "result" := VDict [("file_path", VStr final_path);
                        ("filename", VStr (path_name final_path));
                        ("mimetype", VStr mimetype);
                        ("meta", meta)];
     "file_path" := VStr final_path;
     "filename" := VStr (path_name final_path);
     "mimetype" := VStr mimetype ]}.

(** What one call of the progress hook writes, if it writes. *)
Definition hook_progress (e : env) (data : value) : option Z :=
  match py_or (py_or (dict_get data "total_bytes")
                     (dict_get data "total_bytes_estimate")) (VNum 0),
        py_or (dict_get data "downloaded_bytes") (VNum 0) with
  | VNum total, VNum done =>
      if negb (total =? 0)%Z
      then Some (Z.min 90 (Z.max 20 (percent_of e done total)))
      else None
  | _, _ => None
  end.

Definition hook_values (e : env) (datas : list value) : list Z :=
  omap (hook_progress e) datas.

(** The hook calls of one [download_video]: those of the first attempt
    and, after a [DownloadError], those of the retry. *)
Definition hooks_fired (e : env) (url : value) : list value :=
  let '(datas, r) := ydl_download e "bestvideo+bestaudio/best" url in
  match r with
  | Raise (DownloadError _) => datas ++ (ydl_download e "best" url).1
  | _ => datas
  end.

(** How [download_video] ends, and the values its hooks write: those of
    the first attempt and, after a [DownloadError], those of the retry. *)
Definition download_outcome (e : env) (url : value) : result string * list Z :=
  if url_allowed e url then
    let '(datas, r) := ydl_download e "bestvideo+bestaudio/best" url in
    match r with
    | Raise (DownloadError _) =>
        let '(datas', r') := ydl_download e "best" url in
        (r', hook_values e (datas ++ datas'))
    | _ => (r, hook_values e datas)
    end
  else (Raise (ValueError "Ссылка с неподдерживаемого домена"), []).

(** The ways through [process_job_async]. *)
Inductive outcome :=
| MissingUrl
| Unsupported (want : string)
| Crashed (exc : exn)
| ProbeFailed (exc : exn)
| SizeRefused (meta : value) (exc : exn)
| DownloadFailed (meta : value) (ps : list Z) (exc : exn)
| KeptSource (meta : value) (ps : list Z) (path : string)
| ConvertFailed (meta : value) (ps : list Z) (want : string) (exc : exn)
| Converted (meta : value) (ps : list Z) (want : string) (final_path : string).

Definition outcome_result (o : outcome) : result unit :=
  match o with
  | Crashed exc => Raise exc
  | _ => Ok tt
  end.

Definition downloading_writes (meta : value) (ps : list Z) : list record :=
  [w_fetching; w_meta meta; w_downloading] ++ map w_progress ps.

Definition outcome_writes (o : outcome) : list record :=
  match o with
  | MissingUrl => [w_error "URL отсутствует." "missing_url"]
  | Unsupported want =>
      [w_error ("Формат '" +:+ want +:+ "' не поддерживается.") "unsupported_format"]
  | Crashed _ => []
  | ProbeFailed exc => [w_fetching; w_failed exc]
  | SizeRefused meta exc => [w_fetching; w_meta meta; w_failed exc]
  | DownloadFailed meta ps exc => downloading_writes meta ps ++ [w_failed exc]
  | KeptSource meta ps path => downloading_writes meta ps ++ [w_done meta path]
  | ConvertFailed meta ps want exc =>
      downloading_writes meta ps ++ [w_converting want; w_failed exc]
  | Converted meta ps want final_path =>
      downloading_writes meta ps ++ [w_converting want; w_done meta final_path]
  end.

Definition outcome_hooks (o : outcome) : list Z :=
  match o with
  | DownloadFailed _ ps _ | KeptSource _ ps _
  | ConvertFailed _ ps _ _ | Converted _ ps _ _ => ps
  | _ => []
  end.

(** Performing recorded calls of [update], in order. *)
Definition replay {S : Type} (u : record → S → S) (s : S) (calls : list record) : S :=
  foldl (λ s fields, u fields s) s calls.

(** The fields of a record the properties of a job's life speak of, and the
    payload the worker reads when it takes the job. *)
Record view := View {
  v_status : value;
  v_progress : value;
  v_result : value;
  v_payload : value
}.

Definition view_of (r : record) : view :=
  View (status_of r) (progress_of r) (result_of r) (rec_get r "payload").

(** The fields after a merge of [fields]. *)
Definition merge_view (v : view) (fields : record) : view :=
  View (default (v_status v) (fields !! "status"))
       (default (v_progress v) (fields !! "progress"))
       (default (v_result v) (fields !! "result"))
       (default (v_payload v) (fields !! "payload")).

(** The fields of a job just created. *)
Definition created_view (payload : value) : view :=
  View (VStr "queued") (VNum 0) VNone payload.

(** The keyword arguments of the two deletions. *)
Definition w_deleted (message : string) : record :=
  {[ "result" := VNone; "status" := VStr "deleted"; "message" := VStr message ]}.

(** [result] is non-null exactly when [status] is ["done"]. *)
Definition result_iff_done (r : record) : Prop :=
  result_of r ≠ VNone ↔ status_of r = VStr "done".

(** [progress] is an integer between 0 and 100. *)
Definition progress_in_range (r : record) : Prop :=
  ∃ p, progress_of r = VNum p ∧ (0 ≤ p ≤ 100)%Z.

(** The path [queued → fetching → downloading → converting → done]. *)
Definition on_path (a b : string) : bool :=
  bool_decide ((a, b) ∈ [("queued", "fetching"); ("fetching", "downloading");
                         ("downloading", "converting"); ("converting", "done")]).

Definition non_terminal (a : string) : bool :=
  bool_decide (a ∈ ["queued"; "fetching"; "downloading"; "converting"]).

(** The transitions as the specification lists them. *)
Definition listed_transition (a b : string) : bool :=
  on_path a b
  || (non_terminal a && String.eqb b "error")
  || (bool_decide (a ∈ ["done"; "error"]) && String.eqb b "deleted").

(** The transitions with the step over [converting] that a job kept in
    its source format takes. *)
Definition transition (a b : string) : bool :=
  listed_transition a b || (String.eqb a "downloading" && String.eqb b "done").

(** Every two consecutive elements are related by [R]. *)
Fixpoint chained {A} (R : A → A → Prop) (l : list A) : Prop :=
  match l with
  | x :: (y :: _) as rest => R x y ∧ chained R rest
  | _ => True
  end.

(** Consecutive statuses are equal or a transition of [T]. *)
Definition status_moves (T : string → string → bool) (x y : value) : Prop :=
  x = y ∨ ∃ a b, x = VStr a ∧ y = VStr b ∧ T a b = true.

Definition progress_le (x y : value) : Prop :=
  ∃ p q, x = VNum p ∧ y = VNum q ∧ (p ≤ q)%Z.


(** An outside world that follows a script: what [probe] returns, what
    the first download attempt and the retry do, what the conversion
    returns.  Every URL is allowed and the file has one megabyte. *)
Definition scripted_env (probe_result : result value)
    (first retry : list value * result string)
    (conversion : result string) : env :=
  {| max_file_size_mb := 500;
     tmp_dir := "./temp";
     url_allowed := λ _, true;
     probe := λ _ _, probe_result;
     ydl_download := λ fmt _, if String.eqb fmt "best" then retry else first;
     st_size := λ _, Ok 1048576%Z;
     convert_any := λ _ _, conversion;
     percent_of := percent |}.

(** The dict yt-dlp hands to a progress hook. *)
Definition hook_data (downloaded total : Z) : value :=
  VDict [("status", VStr "downloading");
         ("downloaded_bytes", VNum downloaded);
         ("total_bytes", VNum total)].

Definition sample_meta : value :=
  VDict [("title", VStr "Sample Video"); ("duration", VNum 120);
         ("thumbnail", VNone); ("estimated_size_mb", VNum 200)].

(** The payload [create_download] builds. *)
Definition sample_payload (format : string) : value :=
  VDict [("url", VStr "https://www.youtube.com/watch?v=abc");
         ("quality", VStr "720p");
         ("format", VStr format)].

(** A job that fails while its status is [st]. *)
Definition failing_env (st : string) : env :=
  scripted_env
    (if String.eqb st "fetching" then Raise (DownloadError "probe failed")
     else Ok sample_meta)
    ([hook_data 512 1024],
     if String.eqb st "downloading" then Raise (OSError "disk full")
     else Ok "./temp/job1/Sample Video.mp4")
    ([], Raise (DownloadError "retry failed"))
    (if String.eqb st "converting" then Raise (RuntimeError "ffmpeg failed")
     else Ok "./temp/job1/Sample Video.mp3").


(** A job kept in its source format: one hook call at half of the
    download, no conversion. *)
Definition source_env : env :=
  scripted_env (Ok sample_meta)
    ([hook_data 512 1024], Ok "./temp/job1/Sample Video.webm")
    ([], Raise (DownloadError "not reached"))
    (Ok "not reached").

(** A download whose first attempt fails at half of the file and whose
    retry starts over. *)
Definition retry_env : env :=
  scripted_env (Ok sample_meta)
    ([hook_data 512 1024], Raise (DownloadError "format not available"))
    ([hook_data 0 1024; hook_data 1024 1024], Ok "./temp/job1/Sample Video.mp4")
    (Ok "./temp/job1/Sample Video.mp4").

(** The worker takes the job and makes up to [n] writes. *)
Definition worker_run (n : nat) : list event := Pickup :: repeat WorkerWrite n.

(** A record's fields are sound: [result] is non-null exactly when
    [status] is ["done"], and [progress] is between 0 and 100. *)
Definition good (v : view) : Prop :=
  (v_result v ≠ VNone ↔ v_status v = VStr "done")
  ∧ ∃ p, v_progress v = VNum p ∧ (0 ≤ p ≤ 100)%Z.

(** One write takes the fields from [v] to [v']: the status stays or
    makes a transition of [T], the payload stays and, when [mono] is set,
    the progress does not decrease. *)
Definition moves (T : string → string → bool) (mono : bool) (v v' : view) : Prop :=
  status_moves T (v_status v) (v_status v')
  ∧ (mono = true → progress_le (v_progress v) (v_progress v'))
  ∧ v_payload v' = v_payload v.

(** The writes still to come are sound from [v] on; as long as there is
    one to come, the job has no result. *)
Fixpoint chain (T : string → string → bool) (mono : bool) (v : view)
    (l : list record) : Prop :=
  match l with
  | [] => True
  | fields :: l' =>
      v_result v = VNone
      ∧ good (merge_view v fields)
      ∧ moves T mono v (merge_view v fields)
      ∧ chain T mono (merge_view v fields) l'
  end.

(** What can follow the download. *)
Definition after_download (rest : list record) : Prop :=
  (∃ exc, rest = [w_failed exc])
  ∨ (∃ meta path, rest = [w_done meta path])
  ∨ (∃ want exc, rest = [w_converting want; w_failed exc])
  ∨ (∃ want meta path, rest = [w_converting want; w_done meta path]).

(** The hooks of the job's download report values that do not decrease. *)
Definition hooks_sorted (e : env) (payload : value) : Prop :=
  Sorted Z.le (hook_values e (hooks_fired e (dict_get (py_or payload (VDict [])) "url"))).

(** What holds of the system at every moment of a job's life: the job
    has a record, its fields are sound, the payload is the one it was
    created with; a job not yet taken is as it was created; the writes
    still to come are sound; background tasks are scheduled for it only
    once it is done, and then no write of the worker is to come. *)
Definition inv {B : Type} `{JobBackend B} (jid : string)
    (T : string → string → bool) (mono : bool)
    (payload : value) (s : sys B) : Prop :=
  ∃ b r,
    backend (sys_world s) = Some b
    ∧ get b jid = Some r
    ∧ truthy_rec r = true
    ∧ good (view_of r)
    ∧ v_payload (view_of r) = payload
    ∧ match sys_worker s with
      | None => view_of r = created_view payload ∧ sys_tasks s = []
      | Some l => chain T mono (view_of r) l ∧ (l ≠ [] → sys_tasks s = [])
      end
    ∧ (sys_tasks s ≠ [] →
       v_status (view_of r) = VStr "done" ∨ v_status (view_of r) = VStr "deleted")
    ∧ Forall (λ t, t.1 = jid) (sys_tasks s).

(** What the life of a job needs of the way its worker writes: the
    record stays in place and the fields written are merged into it. *)
Definition merging_write {B : Type} `{JobBackend B} (jid : string)
    (write : string → record → world B → world B) : Prop :=
  ∀ fields (w : world B) b r,
    backend w = Some b → get b jid = Some r → truthy_rec r = true →
    ∃ b' r',
      write jid fields w = World (Some b') (clock w)
      ∧ get b' jid = Some r'
      ∧ truthy_rec r' = true
      ∧ view_of r' = merge_view (view_of r) fields.

(** ** Further vocabulary *)

(** The ids of the jobs a history of calls creates, in order. *)
Definition created_ids (ops : list op) : list string :=
  omap (λ o, match o with OpCreate job_id _ _ => Some job_id | _ => None end) ops.

(** The task [RQBackend.enqueue] puts on the RQ queue for a job. *)
Definition run_job_call (s : RQBackend.settings) (job_id : string) : RQBackend.rq_call :=
  RQBackend.mk_call "project.app.worker.run_job" job_id
    (RQBackend.rq_job_ttl_sec s) (RQBackend.rq_result_ttl_sec s)
    (RQBackend.rq_failure_ttl_sec s) job_id.

(** The format a payload asks for:
    [payload.get("want") or payload.get("format") or "mp4"]. *)
Definition wanted (payload : value) : value :=
  py_or (py_or (dict_get payload "want") (dict_get payload "format")) (VStr "mp4").

(** The job asks for the file as it was downloaded: the format the
    worker reads from the payload, in lower case, is ["source"]. *)
Definition asks_for_source (payload : value) : bool :=
  match wanted (py_or payload (VDict [])) with
  | VStr w => String.eqb (lower w) "source"
  | _ => false
  end.


(** A record as the last write of a finished job leaves it. *)
Definition finished (r : record) (meta : value) (path : string) : Prop :=
  status_of r = VStr "done"
  ∧ progress_of r = VNum 100
  ∧ result_of r = VDict [("file_path", VStr path);
                         ("filename", VStr (path_name path));
                         ("mimetype", VStr (guess_mimetype (path_suffix path)));
                         ("meta", meta)]
  ∧ rec_get r "file_path" = VStr path
  ∧ rec_get r "filename" = VStr (path_name path)
  ∧ rec_get r "mimetype" = VStr (guess_mimetype (path_suffix path)).

(** A record as the last write of a failed job leaves it. *)
Definition failed (r : record) (message error : string) : Prop :=
  status_of r = VStr "error"
  ∧ rec_get r "message" = VStr message
  ∧ rec_get r "error" = VStr error.

(** ** routes/download.py: [POST /download]

    The application state a request meets: the limiter's [_hits] and the
    store.  [client] is [request.client.host], [None] when the request has
    no client; [job_id] is the [uuid4] that [enqueue] would draw. *)

Definition SUPPORTED_FORMATS : list string :=
  ["mp4"; "webm"; "mkv"; "mp3"; "m4a"; "ogg"; "source"].

Record app_state (B : Type) := AppState {
  app_hits : gmap string (list Z);
  app_world : world B
}.
Arguments AppState {B} _ _.
Arguments app_hits {B} _.
Arguments app_world {B} _.

(** The payload [create_download] hands to [create_job]. *)
Definition download_payload (url quality fmt : string) : value :=
  VDict [("url", VStr url); ("quality", VStr quality); ("format", VStr fmt)].

Section submission.
Context {B : Type} `{JobBackend B}.

Definition create_download (e : env) (client : option string)
    (url quality format : string) (job_id : string) (s : app_state B)
  : result value * app_state B :=
  let w := app_world s in
  let client_ip := default "unknown" client in
  let '(allowed, hits) :=
    ratelimit.allow (app_hits s) client_ip (clock w)
      ratelimit.LIMIT ratelimit.WINDOW_SECONDS in
  if negb allowed then
    (Raise (HTTPException 429 "Rate limit exceeded"), AppState hits w)
  else
  let fmt := lower format in
  if negb (bool_decide (fmt ∈ SUPPORTED_FORMATS)) then
    (Raise (HTTPException 400 ("Unsupported format: " +:+ fmt)), AppState hits w)
  else if negb (has_key QUALITY_PRESETS quality) && negb (String.eqb quality "auto") then
    (Raise (HTTPException 400 "quality must be one of the presets or 'auto'"),
     AppState hits w)
  else
  let actual_quality := if String.eqb quality "auto" then DEFAULT_QUALITY else quality in
  match validate_url e (VStr url) with
  | Raise (ValueError msg) => (Raise (HTTPException 400 msg), AppState hits w)
  | Raise exc => (Raise exc, AppState hits w)
  | Ok _ =>
      match create_job (backend w) (download_payload url actual_quality fmt)
              job_id (clock w) with
      | (Raise exc, b) => (Raise exc, AppState hits (World b (clock w)))
      | (Ok id, b) => (Ok (VDict [("job_id", VStr id)]), AppState hits (World b (clock w)))
      end
  end.

End submission.

(** [payload.get("quality", DEFAULT_QUALITY)] *)
Definition quality_of (payload : value) : value :=
  match payload with
  | VDict kvs => if has_key kvs "quality" then assoc_get kvs "quality"
                 else VStr DEFAULT_QUALITY
  | _ => VStr DEFAULT_QUALITY
  end.

(** The conditions under which the pipeline goes each of its ways. *)
Definition way (e : env) (payload : value) (o : outcome) : Prop :=
  let url := dict_get payload "url" in
  let sized meta :=
    check_size_or_fail (dict_get meta "estimated_size_mb") (max_file_size_mb e) in
  let limited path := ensure_size_within_limit e path (max_file_size_mb e) in
  match o with
  | MissingUrl => (∃ kvs, payload = VDict kvs) ∧ truthy url = false
  | Crashed exc =>
      (∀ kvs, payload ≠ VDict kvs)
      ∨ truthy url = true
        ∧ ((∀ w, wanted payload ≠ VStr w)
           ∨ ∃ w, wanted payload = VStr w ∧ lower w ∈ ALLOWED_FORMATS
                  ∧ quality_to_height (quality_of payload) = Raise exc)
  | Unsupported want =>
      truthy url = true
      ∧ ∃ w, wanted payload = VStr w ∧ want = lower w ∧ want ∉ ALLOWED_FORMATS
  | _ =>
      truthy url = true
      ∧ ∃ w, wanted payload = VStr w ∧ lower w ∈ ALLOWED_FORMATS
        ∧ ∃ height, quality_to_height (quality_of payload) = Ok height
        ∧ let probed := probe e url height in
          match o with
          | ProbeFailed exc => probed = Raise exc
          | SizeRefused meta exc => probed = Ok meta ∧ sized meta = Raise exc
          | DownloadFailed meta ps exc =>
              probed = Ok meta ∧ sized meta = Ok tt
              ∧ ps = (download_outcome e url).2
              ∧ ((download_outcome e url).1 = Raise exc
                 ∨ ∃ path, (download_outcome e url).1 = Ok path
                           ∧ limited path = Raise exc)
          | KeptSource meta ps path =>
              probed = Ok meta ∧ sized meta = Ok tt
              ∧ download_outcome e url = (Ok path, ps)
              ∧ limited path = Ok tt
              ∧ lower w = "source"
          | ConvertFailed meta ps want exc =>
              probed = Ok meta ∧ sized meta = Ok tt
              ∧ want = lower w ∧ want ≠ "source"
              ∧ ∃ path, download_outcome e url = (Ok path, ps)
                        ∧ limited path = Ok tt
                        ∧ convert_any e path want = Raise exc
          | Converted meta ps want final_path =>
              probed = Ok meta ∧ sized meta = Ok tt
              ∧ want = lower w ∧ want ≠ "source"
              ∧ ∃ path, download_outcome e url = (Ok path, ps)
                        ∧ limited path = Ok tt
                        ∧ convert_any e path want = Ok final_path
          | _ => True
          end
  end.

(** ** What a sweep leaves: vocabulary *)

Module cleanup_after.
Import cleanup.

(** What is left was there: a file with its time stamp, a directory with
    its time stamp or with the time of the sweep. *)
Definition came_from (now : Z) (n' n : node) : Prop :=
  match n', n with
  | File m', File m => m' = m
  | Dir m' _, Dir m _ => m' = m ∨ m' = now
  | _, _ => False
  end.

End cleanup_after.

(** A character [safe_filename] neither replaces nor trims: one the
    pattern keeps, other than the space, the dot and the underscore. *)
Definition solid (unicode_word : Z → bool) (c : Z) : bool :=
  paths.kept unicode_word c && negb ((c =? 32)%Z || (c =? 46)%Z || (c =? 95)%Z).

(** A name [safe_filename] has nothing to do on: not empty, made of
    characters the pattern keeps, without two dots or two underscores in
    a row, and with no space, dot or underscore at either end. *)
Definition clean_name (unicode_word : Z → bool) (s : paths.str) : Prop :=
  s ≠ []
  ∧ Forall (λ c, paths.kept unicode_word c = true) s
  ∧ paths.contains2 46 46 s = false
  ∧ paths.contains2 95 95 s = false
  ∧ (∀ c, head s = Some c → paths.stripped c = false)
  ∧ (∀ c, last s = Some c → paths.stripped c = false).

(** ** services/converter.py

    A [Path] is the string [str] gives for it; the accessors of [pathlib]
    act on its last component.  ffmpeg is the return code of the process
    for a command line; the commands run are logged in order. *)

Module converter.

Definition VIDEO_PRESETS : list (string * list string) :=
  [("mp4", ["-c:v"; "libx264"; "-c:a"; "aac"; "-movflags"; "+faststart"]);
   ("webm", ["-c:v"; "libvpx-vp9"; "-c:a"; "libopus"]);
   ("mkv", ["-c:v"; "libx264"; "-c:a"; "aac"])].

Definition AUDIO_PRESETS : list (string * list string) :=
  [("mp3", ["-vn"; "-c:a"; "libmp3lame"; "-b:a"; "192k"]);
   ("m4a", ["-vn"; "-c:a"; "aac"; "-b:a"; "192k"]);
   ("ogg", ["-vn"; "-c:a"; "libvorbis"; "-q:a"; "4"])].

(** [presets[k]], if [k in presets] *)
Fixpoint preset (presets : list (string * list string)) (k : string)
  : option (list string) :=
  match presets with
  | [] => None
  | (k', args) :: rest => if String.eqb k' k then Some args else preset rest k
  end.

(** The text before the last occurrence of [sep], if there is one. *)
Fixpoint before_last (sep : ascii) (s : string) : option string :=
  match s with
  | EmptyString => None
  | String c rest =>
      match before_last sep rest with
      | Some t => Some (String c t)
      | None => if Ascii.eqb c sep then Some EmptyString else None
      end
  end.

Fixpoint contains (c : ascii) (s : string) : bool :=
  match s with
  | EmptyString => false
  | String d rest => Ascii.eqb d c || contains c rest
  end.

(** [Path(p).name]; the path ["."] has none. *)
Definition name (p : string) : string :=
  if String.eqb p "." then "" else path_name p.

(** [Path(p).stem]: the name without its suffix. *)
Definition stem (p : string) : string :=
  if String.eqb (path_suffix p) "" then path_name p
  else default (path_name p) (before_last "." (path_name p)).

(** What precedes the name in [str(p)]: the parent and its separator. *)
Definition parent (p : string) : string :=
  match before_last "/" p with
  | Some d => d +:+ "/"
  | None => ""
  end.

(** [str(Path(p).with_name(new))] *)
Definition with_name (p new : string) : result string :=
  if String.eqb (name p) "" then Raise (ValueError "path has an empty name")
  else if String.eqb new "" || contains "/" new || String.eqb new "."
  then Raise (ValueError "Invalid name")
  else Ok (parent p +:+ new).

(** [str(Path(p).with_suffix(suffix))] *)
Definition with_suffix (p suffix : string) : result string :=
  if contains "/" suffix
     || (negb (String.eqb suffix "") && negb (String.prefix "." suffix))
     || String.eqb suffix "."
  then Raise (ValueError "Invalid suffix")
  else if String.eqb (name p) "" then Raise (ValueError "path has an empty name")
  else Ok (parent p +:+ stem p +:+ suffix).

Section ffmpeg.
(** [subprocess.run(cmd).returncode] *)
Variable ffmpeg : list string → Z.

Definition command (input_path output_path : string) (args : list string)
  : list string :=
  ["ffmpeg"; "-y"; "-i"; input_path] ++ args ++ [output_path].

Definition run_ffmpeg (input_path output_path : string) (args : list string)
    (log : list (list string)) : result string * list (list string) :=
  let cmd := command input_path output_path args in
  if (ffmpeg cmd =? 0)%Z then (Ok output_path, log ++ [cmd])
  else (Raise (RuntimeError "ffmpeg conversion failed"), log ++ [cmd]).

Definition convert_any (input_path target_format : string)
    (log : list (list string)) : result string * list (list string) :=
  let target_format := lower target_format in
  if String.eqb target_format "source" || String.eqb target_format ""
  then (Ok input_path, log)
  else
    match (if String.eqb (lower (path_suffix input_path)) ("." +:+ target_format)
           then with_name input_path (stem input_path +:+ "_conv." +:+ target_format)
           else with_suffix input_path ("." +:+ target_format)) with
    | Raise exc => (Raise exc, log)
    | Ok output_path =>
        match preset VIDEO_PRESETS target_format with
        | Some args => run_ffmpeg input_path output_path args log
        | None =>
            match preset AUDIO_PRESETS target_format with
            | Some args => run_ffmpeg input_path output_path args log
            | None =>
                (Raise (ValueError ("Unsupported target format: " +:+ target_format)),
                 log)
            end
        end
    end.

Definition to_mp3 (source : string) : list (list string) → result string * list (list string) :=
  convert_any source "mp3".

End ffmpeg.

(** The formats that have a preset. *)
Definition formats : list string := ["mp4"; "webm"; "mkv"; "mp3"; "m4a"; "ogg"].

End converter.

(** ** utils/cleanup.py: the loop over [_iter_all_paths]

    The loop of [cleanup_expired_files] as it is written: the paths
    [_iter_all_paths] yields are taken one after the other, each is
    [stat]ed on the tree as the deletions made so far have left it, and
    deleted when it is older than the TTL.  The generator lists a
    directory when it enters it, before anything below it is deleted, so
    the paths are those of the tree the sweep starts from.  The children
    of one directory come in the order of the map; on a base path that is
    a file [iterdir] raises before a path is yielded. *)

Module cleanup_loop.
Import cleanup.

(** [child.is_dir()] *)
Definition is_dir (n : node) : bool :=
  match n with
  | Dir _ _ => true
  | File _ => false
  end.

(** The paths yielded, relative to [directory], in the order of the
    generator: for every child, what is below it, then the child. *)
Fixpoint _iter_all_paths (directory : node) : list (list string) :=
  match directory with
  | File _ => []
  | Dir _ entries =>
      map_fold (λ name child rest,
                  ((if is_dir child then map (cons name) (_iter_all_paths child)
                    else []) ++ [[name]]) ++ rest)
        [] entries
  end.

(** [path.stat().st_mtime]; [None] when the path is gone and [stat]
    raises. *)
Definition st_mtime (base : node) (path : list string) : option Z :=
  mtime_of <$> lookup_path base path.

(** The tree after [delete_path(path)]: the entry is removed from its
    directory, which is stamped with the time of the removal. *)
Fixpoint delete_at (now : Z) (path : list string) (base : node) : node :=
  match path, base with
  | name :: rest, Dir m entries =>
      match entries !! name with
      | Some child =>
          match rest with
          | [] =>
              match delete_path child with
              | None => Dir now (delete name entries)
              | Some remains => Dir m (<[name := remains]> entries)
              end
          | _ => Dir m (<[name := delete_at now rest child]> entries)
          end
      | None => base
      end
  | _, _ => base
  end.

(** The body of the loop for one path. *)
Definition visit (now ttl_seconds : Z) (base : node) (path : list string) : node :=
  match st_mtime base path with
  | None => base
  | Some mtime =>
      if (ttl_seconds <? now - mtime)%Z then delete_at now path base else base
  end.

Definition cleanup_expired_files (now : Z) (base_dir : option node)
    (ttl_seconds : Z) : option node :=
  match base_dir with
  | None => None
  | Some base => Some (foldl (visit now ttl_seconds) base (_iter_all_paths base))
  end.

(** [x] lies below [p]. *)
Definition below (p x : list string) : Prop := ∃ q, q ≠ [] ∧ x = p ++ q.

(** What the generator yields for one child of a directory. *)
Definition block (name : string) (child : node) : list (list string) :=
  (if is_dir child then map (cons name) (_iter_all_paths child) else [])
    ++ [[name]].

Definition blocks (children : list (string * node)) : list (list string) :=
  foldr (λ kv rest, block kv.1 kv.2 ++ rest) [] children.

(** An entry once the paths below it have been handled, before the
    entry itself is. *)
Definition swept (now ttl_seconds : Z) (n : node) : node :=
  match n with
  | File m => File m
  | Dir m entries =>
      let entries' := omap (sweep now ttl_seconds) entries in
      Dir (touched now m entries entries') entries'
  end.

(** The entries of a directory once the blocks of [children] have been
    handled. *)
Definition handled (now ttl_seconds : Z) (entries : gmap string node)
    (children : list (string * node)) : gmap string node :=
  foldl (λ es kv, match sweep now ttl_seconds kv.2 with
                  | Some child => <[kv.1 := child]> es
                  | None => delete kv.1 es
                  end) entries children.

End cleanup_loop.

(** * Properties *)

(** ** The record store *)

Section truthy_facts.

Lemma truthy_rec_insert (r : record) k v : truthy_rec (<[k := v]> r) = true.
Proof.
  unfold truthy_rec. rewrite bool_decide_eq_false_2; [done|].
  intros Hsize. apply map_size_empty_inv in Hsize.
  by apply insert_non_empty in Hsize.
Qed.

Lemma truthy_rec_empty : truthy_rec ∅ = false.
Proof. done. Qed.

Lemma truthy_rec_false (r : record) : truthy_rec r = false → r = ∅.
Proof.
  unfold truthy_rec. intros Hr. apply map_size_empty_inv.
  destruct (bool_decide (size r = 0%nat)) eqn:Hs; [|done].
  by apply bool_decide_eq_true in Hs.
Qed.

Lemma truthy_initial_record job_id now payload :
  truthy_rec (initial_record job_id now payload) = true.
Proof. apply truthy_rec_insert. Qed.

Lemma truthy_merged current job_id fields now :
  truthy_rec (merged current job_id fields now) = true.
Proof. apply truthy_rec_insert. Qed.

End truthy_facts.

#[export] Instance memory_backend_laws : JobBackendLaws MemoryBackend.t.
Proof.
  split.
  - intros b id r Hr. cbn. unfold MemoryBackend.get, MemoryBackend.set; cbn.
    by rewrite lookup_insert_eq, Hr.
  - intros b id id' r Hne. cbn. unfold MemoryBackend.get, MemoryBackend.set; cbn.
    by rewrite lookup_insert_ne.
  - intros b id now p. cbn. unfold MemoryBackend.get, MemoryBackend.enqueue; cbn.
    by rewrite lookup_insert_eq, truthy_initial_record.
  - intros b id id' now p Hne. cbn.
    unfold MemoryBackend.get, MemoryBackend.enqueue; cbn.
    by rewrite lookup_insert_ne.
  - done.
Qed.

Lemma rq_key_inj id id' : RQBackend._key id = RQBackend._key id' → id = id'.
Proof. unfold RQBackend._key. intros Hk. by simplify_eq/=. Qed.

#[export] Instance rq_backend_laws : JobBackendLaws RQBackend.t.
Proof.
  split.
  - intros b id r _. cbn. unfold RQBackend.get, RQBackend.set; cbn.
    by rewrite lookup_insert_eq.
  - intros b id id' r Hne. cbn. unfold RQBackend.get, RQBackend.set; cbn.
    rewrite lookup_insert_ne; [done|]. intros Hk. by apply rq_key_inj in Hk.
  - intros b id now p. cbn. unfold RQBackend.get, RQBackend.enqueue; cbn.
    by rewrite lookup_insert_eq.
  - intros b id id' now p Hne. cbn.
    unfold RQBackend.get, RQBackend.enqueue; cbn.
    rewrite lookup_insert_ne; [done|]. intros Hk. by apply rq_key_inj in Hk.
  - done.
Qed.

Section jobs_facts.
Context {B : Type} `{JobBackendLaws B}.

Lemma setdefault_lookup k v (r : record) k' :
  setdefault k v r !! k' =
    match r !! k' with
    | Some x => Some x
    | None => if decide (k = k') then Some v else None
    end.
Proof.
  unfold setdefault. destruct (r !! k) eqn:Hk.
  - destruct (r !! k') eqn:Hk'; [done|]. case_decide; congruence.
  - rewrite lookup_insert. case_decide; subst.
    + by rewrite Hk.
    + by destruct (r !! k').
Qed.

(** Where a field of the record written by [job_update] comes from. *)
Lemma merged_lookup current job_id fields now k :
  k ≠ "updated_at" →
  merged current job_id fields now !! k =
    match fields !! k with
    | Some v => Some v
    | None => setdefault "job_id" (VStr job_id) current !! k
    end.
Proof.
  intros Hk. unfold merged. rewrite lookup_insert_ne by done.
  rewrite lookup_union.
  by destruct (fields !! k), (setdefault _ _ _ !! k).
Qed.

Lemma merged_keeps current job_id fields now k v :
  k ≠ "updated_at" → fields !! k = None → current !! k = Some v →
  merged current job_id fields now !! k = Some v.
Proof.
  intros Hk Hf Hc. rewrite merged_lookup, Hf, setdefault_lookup by done.
  by rewrite Hc.
Qed.

Lemma merged_updated_at current job_id fields now :
  merged current job_id fields now !! "updated_at" = Some (VNum now).
Proof. unfold merged. by rewrite lookup_insert_eq. Qed.

Lemma job_update_configured (b : B) job_id fields now :
  job_update (Some b) job_id fields now =
    (Ok (merged (get_or_empty b job_id) job_id fields now),
     Some (set b job_id (merged (get_or_empty b job_id) job_id fields now))).
Proof. done. Qed.

(** Reading back what [job_update] wrote. *)
Lemma get_after_job_update (b : B) job_id fields now :
  get (set b job_id (merged (get_or_empty b job_id) job_id fields now)) job_id
  = Some (merged (get_or_empty b job_id) job_id fields now).
Proof. apply get_set_eq, truthy_merged. Qed.

Lemma get_or_empty_after_job_update (b : B) job_id fields now :
  get_or_empty (set b job_id (merged (get_or_empty b job_id) job_id fields now))
    job_id
  = merged (get_or_empty b job_id) job_id fields now.
Proof.
  unfold get_or_empty at 1. by rewrite get_after_job_update, truthy_merged.
Qed.

Lemma job_status_configured (b : B) job_id :
  job_status (Some b) job_id = (Ok (get b job_id), Some b).
Proof. unfold job_status. by destruct (get b job_id). Qed.

Lemma get_or_empty_Some (b : B) job_id r :
  get b job_id = Some r → get_or_empty b job_id = r.
Proof.
  unfold get_or_empty. intros ->. destruct (truthy_rec r) eqn:Hr; [done|].
  symmetry. by apply truthy_rec_false.
Qed.

End jobs_facts.

(** The closure [update] of [run_job] merges too. *)
Lemma run_job_update_get (rb : RQBackend.t) job_id fields :
  RQBackend.get (run_job_update job_id fields rb) job_id
  = Some (fields ∪ get_or_empty rb job_id).
Proof.
  unfold run_job_update, RQBackend.get at 1, RQBackend.set; cbn.
  by rewrite lookup_insert_eq.
Qed.

Lemma get_or_empty_Some_rq (rb : RQBackend.t) job_id r :
  RQBackend.get rb job_id = Some r → get_or_empty rb job_id = r.
Proof. exact (get_or_empty_Some (B := RQBackend.t) rb job_id r). Qed.

Lemma union_lookup_l (f r : record) k v : f !! k = Some v → (f ∪ r) !! k = Some v.
Proof. intros Hf. by apply lookup_union_Some_l. Qed.

Lemma union_lookup_r (f r : record) k : f !! k = None → (f ∪ r) !! k = r !! k.
Proof. intros Hf. by apply lookup_union_r. Qed.

(** C1.  Two updates of the same job, then a read: the read returns the
    record the second update built; every field the second update set is
    there, every field the first update set and the second did not is
    still there, and so is every field the record had before.  This holds
    for [job_update] on any backend and for the closure [update] of
    [run_job]; a write never replaces the record.  [updated_at] is the one
    field every [job_update] rewrites. *)
Theorem update_never_erases
    {B : Type} `{JobBackendLaws B} (b : B) (rb : RQBackend.t)
    (job_id : string) (f1 f2 : record) (t1 t2 : Z) :
  (∃ r1 b1 r2 b2,
      job_update (Some b) job_id f1 t1 = (Ok r1, Some b1)
      ∧ job_update (Some b1) job_id f2 t2 = (Ok r2, Some b2)
      ∧ job_status (Some b2) job_id = (Ok (Some r2), Some b2)
      ∧ (∀ k v, k ≠ "updated_at" → f2 !! k = Some v → r2 !! k = Some v)
      ∧ (∀ k v, k ≠ "updated_at" → f1 !! k = Some v → f2 !! k = None →
                r2 !! k = Some v)
      ∧ (∀ k v, k ≠ "updated_at" → get_or_empty b job_id !! k = Some v →
                f1 !! k = None → f2 !! k = None → r2 !! k = Some v))
  ∧ (∃ r2,
      RQBackend.get (run_job_update job_id f2 (run_job_update job_id f1 rb)) job_id
        = Some r2
      ∧ (∀ k v, f2 !! k = Some v → r2 !! k = Some v)
      ∧ (∀ k v, f1 !! k = Some v → f2 !! k = None → r2 !! k = Some v)
      ∧ (∀ k v, get_or_empty rb job_id !! k = Some v →
                f1 !! k = None → f2 !! k = None → r2 !! k = Some v)).
Proof.
  split.
  - eexists _, _, _, _.
    split; [apply job_update_configured|].
    split; [apply job_update_configured|].
    rewrite job_status_configured, get_after_job_update.
    split; [done|].
    rewrite get_or_empty_after_job_update.
    split; [|split].
    + intros k v Hk Hf2. by rewrite merged_lookup, Hf2.
    + intros k v Hk Hf1 Hf2. apply merged_keeps; [done..|].
      by rewrite merged_lookup, Hf1.
    + intros k v Hk Hb Hf1 Hf2. apply merged_keeps; [done..|].
      by apply merged_keeps.
  - eexists. split; [apply run_job_update_get|].
    rewrite (get_or_empty_Some_rq _ _ _ (run_job_update_get rb job_id f1)).
    split; [|split].
    + intros k v Hf2. by apply union_lookup_l.
    + intros k v Hf1 Hf2. rewrite union_lookup_r by done.
      by apply union_lookup_l.
    + intros k v Hb Hf1 Hf2. by rewrite !union_lookup_r.
Qed.

(** The round trip of the specification, on the in-memory backend:
    [update(meta=X)], [update(progress=50)], then a read. *)
Lemma update_never_erases_witness :
  ∃ r, (job_status
          (job_update
             (job_update (Some MemoryBackend.init) "job1"
                {[ "meta" := VStr "X" ]} 1).2
             "job1" {[ "progress" := VNum 50 ]} 2).2
          "job1").1 = Ok (Some r)
       ∧ r !! "meta" = Some (VStr "X")
       ∧ r !! "progress" = Some (VNum 50).
Proof.
  destruct (update_never_erases MemoryBackend.init
              (RQBackend.init (RQBackend.mk_settings "downloads" 1800 3600 86400))
              "job1" {[ "meta" := VStr "X" ]} {[ "progress" := VNum 50 ]} 1 2)
    as [(r1 & b1 & r2 & b2 & H1 & H2 & H3 & Hf2 & Hf1 & _) _].
  exists r2. rewrite H1. cbn [snd]. rewrite H2. cbn [snd]. rewrite H3.
  split; [reflexivity|]. split.
  - apply Hf1; [discriminate|reflexivity|reflexivity].
  - apply Hf2; [discriminate|reflexivity].
Defined.

(** [job_update] stamps what it writes with the clock it read. *)
Lemma job_update_stamps {B : Type} `{JobBackendLaws B} (b : B) job_id fields now :
  ∃ r b', job_update (Some b) job_id fields now = (Ok r, Some b')
          ∧ get b' job_id = Some r
          ∧ r !! "updated_at" = Some (VNum now).
Proof.
  eexists _, _. split; [apply job_update_configured|].
  split; [apply get_after_job_update|apply merged_updated_at].
Qed.

(** The closure [update] of [run_job] leaves [updated_at] as it finds it. *)
Lemma run_job_update_no_stamp (rb : RQBackend.t) job_id fields r :
  RQBackend.get rb job_id = Some r → fields !! "updated_at" = None →
  ∃ r', RQBackend.get (run_job_update job_id fields rb) job_id = Some r'
        ∧ r' !! "updated_at" = r !! "updated_at".
Proof.
  intros Hr Hf. eexists. split; [apply run_job_update_get|].
  rewrite union_lookup_r by done. by rewrite (get_or_empty_Some_rq _ _ _ Hr).
Qed.

(** C7.  A job enqueued on the RQ backend at time 100; the worker's first
    write, [update(status="fetching", ...)], is issued at time 200.  The
    stored [updated_at] is still 100, while the same write through
    [job_update] stores 200. *)
Theorem run_job_update_stale_stamp :
  let settings := RQBackend.mk_settings "downloads" 1800 3600 86400 in
  let payload := VDict [("url", VStr "https://youtu.be/x"); ("format", VStr "mp4")] in
  let rb := (RQBackend.enqueue (RQBackend.init settings) "job1" 100 payload).1 in
  (λ r, rec_get r "updated_at")
    <$> RQBackend.get (run_job_update "job1" w_fetching rb) "job1"
  = Some (VNum 100)
  ∧ (λ r, rec_get r "updated_at")
      <$> (job_update (Some rb) "job1" w_fetching 200).2 ≫= (λ b, RQBackend.get b "job1")
    = Some (VNum 200).
Proof. split; reflexivity. Qed.

(** A backend just constructed knows no job. *)
Lemma memory_init_empty job_id : get MemoryBackend.init job_id = None.
Proof. done. Qed.

Lemma rq_init_empty settings job_id : get (RQBackend.init settings) job_id = None.
Proof. done. Qed.

Section unknown_ids.
Context {B : Type} `{JobBackendLaws B}.

(** Calls about other jobs leave an absent job absent. *)
Lemma run_op_absent (b : B) job_id o :
  get b job_id = None → op_id o ≠ job_id →
  ∃ b', run_op (Some b) o = Some b' ∧ get b' job_id = None.
Proof.
  intros Hb Ho. destruct o as [id payload now|id fields now|id]; cbn in *.
  - destruct (enqueue b id now payload) as [b' id'] eqn:He. cbn.
    exists b'. split; [done|].
    replace b' with (enqueue b id now payload).1 by by rewrite He.
    by rewrite get_enqueue_ne.
  - eexists. split; [done|]. by rewrite get_set_ne.
  - exists b. split; [|done]. unfold job_status. by destruct (get b id).
Qed.

Lemma run_ops_absent (b : B) job_id ops :
  get b job_id = None → Forall (λ o, op_id o ≠ job_id) ops →
  ∃ b', foldl run_op (Some b) ops = Some b' ∧ get b' job_id = None.
Proof.
  intros Hb Hops. revert b Hb.
  induction Hops as [|o ops Ho Hops IH]; intros b Hb; cbn.
  - by exists b.
  - destruct (run_op_absent b job_id o Hb Ho) as (b' & -> & Hb'). by apply IH.
Qed.

End unknown_ids.

(** C9.  With no backend configured, [create_job], [job_status] and
    [job_update] raise the configuration error and the handle stays
    unset.  With a backend configured, an id that was absent at the start
    and that no call since has named is reported absent by [job_status],
    without an exception and without a change of the store; the status
    route turns that into a 404. *)
Theorem unconfigured_raises_unknown_absent
    {B : Type} `{JobBackendLaws B} (b0 : B) (job_id : string)
    (ops : list op) (now : Z) (payload : value) (fields : record) :
  get b0 job_id = None →
  Forall (λ o, op_id o ≠ job_id) ops →
  create_job (B := B) None payload job_id now = (Raise not_configured, None)
  ∧ job_status (B := B) None job_id = (Raise not_configured, None)
  ∧ job_update (B := B) None job_id fields now = (Raise not_configured, None)
  ∧ ∃ b, foldl run_op (Some b0) ops = Some b
         ∧ job_status (Some b) job_id = (Ok None, Some b)
         ∧ status job_id (World (Some b) now)
           = (Raise (HTTPException 404 "job not found"), World (Some b) now).
Proof.
  intros Hb0 Hops. do 3 (split; [reflexivity|]).
  destruct (run_ops_absent b0 job_id ops Hb0 Hops) as (b & Hrun & Hb).
  exists b. split; [done|].
  assert (Hst : job_status (Some b) job_id = (Ok None, Some b))
    by by rewrite job_status_configured, Hb.
  split; [done|]. unfold status. cbn [backend]. by rewrite Hst.
Qed.

(** A store on which one job was created and updated; another id is
    asked for. *)
Lemma unconfigured_raises_unknown_absent_witness :
  let ops := [OpCreate "a" (VDict [("url", VStr "https://youtu.be/x")]) 1;
              OpUpdate "a" {[ "progress" := VNum 50 ]} 2;
              OpStatus "a"] in
  ∃ b, foldl run_op (Some MemoryBackend.init) ops = Some b
       ∧ job_status (Some b) "b" = (Ok None, Some b).
Proof.
  intros ops.
  destruct (unconfigured_raises_unknown_absent MemoryBackend.init "b" ops 3
              VNone ∅) as (_ & _ & _ & b & Hrun & Hst & _).
  - reflexivity.
  - repeat constructor; discriminate.
  - exists b. split; [exact Hrun|exact Hst].
Defined.

(** ** The writes of the pipeline *)

Section pipeline_facts.
Context {S : Type}.
Variable u : record → S → S.

Lemma replay_app s l1 l2 : replay u s (l1 ++ l2) = replay u (replay u s l1) l2.
Proof. apply foldl_app. Qed.

Lemma hook_spec e data s :
  hook e u data s =
    match hook_progress e data with
    | Some p => u (w_progress p) s
    | None => s
    end.
Proof.
  unfold hook, hook_progress.
  destruct (py_or (py_or _ _) _) as [|total| |]; try reflexivity.
  destruct (py_or _ _) as [|bytes| |]; try reflexivity.
  by destruct (total =? 0)%Z.
Qed.

Lemma hooks_replay e datas s :
  foldl (λ s d, hook e u d s) s datas
  = replay u s (map w_progress (hook_values e datas)).
Proof.
  revert s. induction datas as [|d datas IH]; intros s; [done|].
  cbn [foldl]. rewrite IH, hook_spec. unfold hook_values. cbn [omap list_omap].
  by destruct (hook_progress e d).
Qed.

Lemma run_ydl_spec e fmt url s :
  run_ydl e fmt url (hook e u) s =
    ((ydl_download e fmt url).2,
     replay u s (map w_progress (hook_values e (ydl_download e fmt url).1))).
Proof.
  unfold run_ydl. destruct (ydl_download e fmt url) as [datas r].
  by rewrite hooks_replay.
Qed.

(** [download_video] with the worker's hook. *)
Lemma download_video_spec e url out_dir quality s :
  download_video e url out_dir (hook e u) quality s
  = ((download_outcome e url).1,
     replay u s (map w_progress (download_outcome e url).2)).
Proof.
  unfold download_video, download_outcome, bind, lift, try_except, validate_url.
  destruct (url_allowed e url); [|done].
  rewrite run_ydl_spec.
  destruct (ydl_download e "bestvideo+bestaudio/best" url) as [d1 r1]; cbn [fst snd].
  destruct r1 as [path|exc]; [done|].
  destruct exc; try done.
  rewrite run_ydl_spec.
  destruct (ydl_download e "best" url) as [d2 r2]; cbn [fst snd].
  unfold hook_values. by rewrite omap_app, map_app, replay_app.
Qed.

End pipeline_facts.

Lemma hook_progress_range e data p :
  hook_progress e data = Some p → (20 ≤ p ≤ 90)%Z.
Proof.
  unfold hook_progress.
  destruct (py_or (py_or _ _) _) as [|total| |]; try discriminate.
  destruct (py_or _ _) as [|bytes| |]; try discriminate.
  destruct (total =? 0)%Z; [discriminate|]. intros [= <-]. lia.
Qed.

Lemma download_outcome_hooks e url :
  (download_outcome e url).2 = []
  ∨ (download_outcome e url).2 = hook_values e (hooks_fired e url).
Proof.
  unfold download_outcome, hooks_fired.
  destruct (url_allowed e url); [|by left]. right.
  destruct (ydl_download e "bestvideo+bestaudio/best" url) as [d1 r1].
  destruct r1 as [path|exc]; [done|].
  destruct exc; try done.
  by destruct (ydl_download e "best" url) as [d2 r2].
Qed.

Lemma hook_values_range e datas :
  Forall (λ p, (20 ≤ p ≤ 90)%Z) (hook_values e datas).
Proof.
  apply Forall_forall. intros p Hp.
  unfold hook_values in Hp. apply list_elem_of_omap in Hp as (d & _ & Hd).
  by eapply hook_progress_range.
Qed.

(** Every run of the pipeline goes one of the ways of [outcome], under
    the conditions of [way]: whatever the callback, the run performs the
    writes of that way, in order. *)
Lemma process_way e job_id payload :
  ∃ o,
    way e payload o
    ∧ ∀ (S : Type) (u : record → S → S) (s : S),
        process_job_async e job_id payload u s
        = (outcome_result o, replay u s (outcome_writes o)).
Proof.
  destruct payload as [| | |kvs];
    try (eexists (Crashed _); split; [by left|reflexivity]).
  unfold way, wanted, quality_of, process_job_async. cbv zeta.
  destruct (truthy (dict_get (VDict kvs) "url")) eqn:Hurl; cbn [negb]; cycle 1.
  { exists MissingUrl. split; [split; [by eexists|done]|]. reflexivity. }
  destruct (py_or (py_or _ _) _) as [| |w|] eqn:Hw;
    try (eexists (Crashed _); split; [right; split; [done|by left]|]; reflexivity).
  destruct (bool_decide (lower w ∈ ALLOWED_FORMATS)) eqn:Hallowed;
    cbn [negb]; cycle 1.
  { exists (Unsupported (lower w)). split; [|reflexivity].
    split; [done|]. exists w. split; [done|]. split; [done|].
    by apply bool_decide_eq_false in Hallowed. }
  apply bool_decide_eq_true in Hallowed.
  set (url := dict_get (VDict kvs) "url").
  set (quality := if has_key kvs "quality" then _ else _).
  destruct (quality_to_height quality) as [height|exc] eqn:Hheight; cycle 1.
  { exists (Crashed exc). split; [|reflexivity].
    right. split; [done|]. right. by exists w. }
  set (out_dir := tmp_dir e +:+ "/" +:+ job_id).
  destruct (probe e url height) as [meta|exc] eqn:Hprobe; cycle 1.
  { exists (ProbeFailed exc). split; [|reflexivity].
    split; [done|]. exists w. split; [done|]. split; [done|].
    exists height. by split. }
  destruct (check_size_or_fail (dict_get meta "estimated_size_mb")
              (max_file_size_mb e)) as [[]|exc] eqn:Hsize; cycle 1.
  { exists (SizeRefused meta exc). split.
    { split; [done|]. exists w. split; [done|]. split; [done|].
      exists height. rewrite Hprobe. by split. }
    intros S u s.
    unfold try_except, bind, call, lift. cbv beta iota. by rewrite Hsize. }
  destruct (download_outcome e url) as [r ps] eqn:Hdl.
  assert (Hstart : ∀ (S : Type) (u : record → S → S) (s : S) (rest : list record),
    replay u
      (replay u (u w_downloading (u (w_meta meta) (u w_fetching s)))
         (map w_progress ps)) rest
    = replay u s (downloading_writes meta ps ++ rest)).
  { intros S u s rest. unfold downloading_writes. by rewrite !replay_app. }
  destruct r as [path|exc]; cycle 1.
  { exists (DownloadFailed meta ps exc). split.
    { split; [done|]. exists w. split; [done|]. split; [done|].
      exists height. rewrite Hprobe. repeat split; try done. by left. }
    intros S u s.
    unfold try_except, bind, call, lift. cbv beta iota. rewrite Hsize.
    rewrite download_video_spec, Hdl. cbn [fst snd].
    exact (f_equal (pair (Ok tt)) (Hstart S u s [w_failed exc])). }
  destruct (ensure_size_within_limit e path (max_file_size_mb e))
    as [[]|exc] eqn:Hens; cycle 1.
  { exists (DownloadFailed meta ps exc). split.
    { split; [done|]. exists w. split; [done|]. split; [done|].
      exists height. rewrite Hprobe. repeat split; try done.
      right. by exists path. }
    intros S u s.
    unfold try_except, bind, call, lift. cbv beta iota. rewrite Hsize.
    rewrite download_video_spec, Hdl. cbn [fst snd]. rewrite Hens.
    exact (f_equal (pair (Ok tt)) (Hstart S u s [w_failed exc])). }
  destruct (String.eqb (lower w) "source") eqn:Hsrc.
  { exists (KeptSource meta ps path). split.
    { split; [done|]. exists w. split; [done|]. split; [done|].
      exists height. rewrite Hprobe. repeat split; try done.
      by apply String.eqb_eq. }
    intros S u s.
    unfold try_except, bind, call, lift, ret. cbv beta iota. rewrite Hsize.
    rewrite download_video_spec, Hdl. cbn [fst snd]. rewrite Hens.
    exact (f_equal (pair (Ok tt)) (Hstart S u s [w_done meta path])). }
  apply String.eqb_neq in Hsrc.
  destruct (convert_any e path (lower w)) as [final|exc] eqn:Hconv.
  - exists (Converted meta ps (lower w) final). split.
    { split; [done|]. exists w. split; [done|]. split; [done|].
      exists height. rewrite Hprobe. repeat split; try done. by exists path. }
    intros S u s.
    unfold try_except, bind, call, lift, ret. cbv beta iota. rewrite Hsize.
    rewrite download_video_spec, Hdl. cbn [fst snd]. rewrite Hens, Hconv.
    exact (f_equal (pair (Ok tt))
             (Hstart S u s [w_converting (lower w); w_done meta final])).
  - exists (ConvertFailed meta ps (lower w) exc). split.
    { split; [done|]. exists w. split; [done|]. split; [done|].
      exists height. rewrite Hprobe. repeat split; try done. by exists path. }
    intros S u s.
    unfold try_except, bind, call, lift, ret. cbv beta iota. rewrite Hsize.
    rewrite download_video_spec, Hdl. cbn [fst snd]. rewrite Hens, Hconv.
    exact (f_equal (pair (Ok tt))
             (Hstart S u s [w_converting (lower w); w_failed exc])).
Qed.

(** The values the hooks write on a way are those of the download. *)
Lemma way_hooks e payload o :
  way e payload o →
  outcome_hooks o = []
  ∨ outcome_hooks o = hook_values e (hooks_fired e (dict_get payload "url")).
Proof.
  intros Hway.
  pose proof (download_outcome_hooks e (dict_get payload "url")) as Hhooks.
  unfold way in Hway. cbv zeta in Hway.
  destruct o as [|want|exc|exc|meta exc|meta ps exc|meta ps path
                |meta ps want exc|meta ps want path];
    cbn [outcome_hooks]; try by left.
  - destruct Hway as (_ & w & _ & _ & h & _ & _ & _ & -> & _). done.
  - destruct Hway as (_ & w & _ & _ & h & _ & _ & _ & Hdl & _).
    by rewrite Hdl in Hhooks.
  - destruct Hway as (_ & w & _ & _ & h & _ & _ & _ & _ & _ & p0 & Hdl & _).
    by rewrite Hdl in Hhooks.
  - destruct Hway as (_ & w & _ & _ & h & _ & _ & _ & _ & _ & p0 & Hdl & _).
    by rewrite Hdl in Hhooks.
Qed.

Lemma process_outcome e job_id payload :
  ∃ o,
    (outcome_hooks o = []
     ∨ outcome_hooks o = hook_values e (hooks_fired e (dict_get payload "url")))
    ∧ ∀ (S : Type) (u : record → S → S) (s : S),
        process_job_async e job_id payload u s
        = (outcome_result o, replay u s (outcome_writes o)).
Proof.
  destruct (process_way e job_id payload) as (o & Hway & Hrun).
  exists o. split; [by eapply way_hooks|done].
Qed.

(** ** The writes of the pipeline are sound *)

Lemma replay_record_call calls l : replay record_call calls l = calls ++ l.
Proof.
  revert calls. induction l as [|f l IH]; intros calls; cbn.
  - by rewrite app_nil_r.
  - unfold replay in IH. rewrite IH. unfold record_call. by rewrite <- app_assoc.
Qed.

Lemma pipeline_writes_outcome e job_id payload :
  ∃ o,
    (outcome_hooks o = []
     ∨ outcome_hooks o = hook_values e (hooks_fired e (dict_get payload "url")))
    ∧ pipeline_writes e job_id payload = (outcome_result o, outcome_writes o).
Proof.
  destruct (process_outcome e job_id payload) as (o & Hhooks & Hrun).
  exists o. split; [done|]. unfold pipeline_writes.
  by rewrite Hrun, replay_record_call.
Qed.

Lemma pipeline_writes_way e job_id payload :
  ∃ o,
    way e payload o
    ∧ pipeline_writes e job_id payload = (outcome_result o, outcome_writes o).
Proof.
  destruct (process_way e job_id payload) as (o & Hway & Hrun).
  exists o. split; [done|]. unfold pipeline_writes.
  by rewrite Hrun, replay_record_call.
Qed.

Section chain_facts.
Variable mono : bool.
Variable payload : value.
(** The transitions allowed: the listed ones at least. *)
Variable T : string → string → bool.
Hypothesis HT : ∀ a b, listed_transition a b = true → T a b = true.

Local Ltac status_step :=
  right; eexists _, _; split; [reflexivity|split; [reflexivity|by apply HT]].

Local Ltac good_none :=
  split; [split; [by intros []|discriminate]|eexists; split; [reflexivity|lia]].

Lemma moves_refl (v : view) : good v → moves T mono v v.
Proof.
  intros [_ (p & Hp & _)]. split; [by left|]. split; [|done].
  intros _. exists p, p. by rewrite Hp.
Qed.

(** A failure recorded before the job has a result. *)
Lemma chain_error st p message error :
  non_terminal st = true → (0 ≤ p ≤ 100)%Z →
  chain T mono (View (VStr st) (VNum p) VNone payload) [w_error message error].
Proof.
  intros Hst Hp. cbn. split; [done|]. split; [good_none|]. split; [|done].
  split; [|split; [|done]].
  - right. exists st, "error". split; [done|]. split; [done|].
    apply HT. unfold listed_transition. rewrite Hst. cbn.
    by rewrite orb_true_r.
  - intros _. exists p, p. split; [done|]. split; [done|lia].
Qed.

Lemma chain_failed st p exc :
  non_terminal st = true → (0 ≤ p ≤ 100)%Z →
  chain T mono (View (VStr st) (VNum p) VNone payload) [w_failed exc].
Proof. apply chain_error. Qed.

Lemma chain_done p meta path :
  (0 ≤ p ≤ 100)%Z →
  (T "downloading" "done" = true →
   chain T mono (View (VStr "downloading") (VNum p) VNone payload) [w_done meta path])
  ∧ chain T mono (View (VStr "converting") (VNum p) VNone payload) [w_done meta path].
Proof.
  intros Hp. split; [intros Hkept|]; cbn.
  - split; [done|]. split; [|split; [|done]].
    + split; [split; [done|discriminate]|]. eexists. split; [reflexivity|lia].
    + split; [right; by eexists _, _|]. split; [|done].
      intros _. eexists _, _. split; [reflexivity|]. split; [reflexivity|lia].
  - split; [done|]. split; [|split; [|done]].
    + split; [split; [done|discriminate]|]. eexists. split; [reflexivity|lia].
    + split; [status_step|]. split; [|done].
      intros _. eexists _, _. split; [reflexivity|]. split; [reflexivity|lia].
Qed.

Lemma converting_progress_range want :
  (92 ≤ converting_progress want ≤ 95)%Z.
Proof. unfold converting_progress. destruct (bool_decide _); lia. Qed.

Lemma chain_after_download p rest :
  (0 ≤ p ≤ 90)%Z → after_download rest →
  ((∃ meta path, rest = [w_done meta path]) → T "downloading" "done" = true) →
  chain T mono (View (VStr "downloading") (VNum p) VNone payload) rest.
Proof.
  intros Hp [(exc & ->)|[(meta & path & ->)|[(want & exc & ->)|(want & meta & path & ->)]]]
    Hkept.
  - apply chain_failed; [done|lia].
  - apply chain_done; [lia|]. apply Hkept. by eexists _, _.
  - pose proof (converting_progress_range want) as Hc.
    split; [done|]. split; [good_none|]. split.
    + split; [status_step|]. split; [|done].
      intros _. eexists _, _. split; [reflexivity|]. split; [reflexivity|lia].
    + apply (chain_failed "converting"); [done|lia].
  - pose proof (converting_progress_range want) as Hc.
    split; [done|]. split; [good_none|]. split.
    + split; [status_step|]. split; [|done].
      intros _. eexists _, _. split; [reflexivity|]. split; [reflexivity|lia].
    + apply chain_done. lia.
Qed.

(** The writes of the hooks, then what follows. *)
Lemma chain_hooks ps : ∀ p rest,
  (0 ≤ p ≤ 90)%Z →
  Forall (λ q, (20 ≤ q ≤ 90)%Z) ps →
  (mono = true → Sorted Z.le (p :: ps)) →
  after_download rest →
  ((∃ meta path, rest = [w_done meta path]) → T "downloading" "done" = true) →
  chain T mono (View (VStr "downloading") (VNum p) VNone payload)
    (map w_progress ps ++ rest).
Proof.
  induction ps as [|q ps IH]; intros p rest Hp Hps Hsorted Hrest Hkept.
  - by apply chain_after_download.
  - apply Forall_cons in Hps as [Hq Hps]. cbn.
    split; [done|]. split; [good_none|]. split.
    + split; [by left|]. split; [|done].
      intros Hmono. specialize (Hsorted Hmono).
      apply Sorted_inv in Hsorted as [_ Hhd]. apply HdRel_inv in Hhd.
      by exists p, q.
    + apply IH; [lia|done| |done..].
      intros Hmono. specialize (Hsorted Hmono). by apply Sorted_inv in Hsorted as [? _].
Qed.

Lemma chain_downloading meta ps rest :
  Forall (λ q, (20 ≤ q ≤ 90)%Z) ps →
  (mono = true → Sorted Z.le ps) →
  after_download rest →
  ((∃ meta path, rest = [w_done meta path]) → T "downloading" "done" = true) →
  chain T mono (created_view payload) (downloading_writes meta ps ++ rest).
Proof.
  intros Hps Hsorted Hrest Hkept. unfold downloading_writes. cbn.
  split; [done|]. split; [good_none|]. split.
  { split; [status_step|]. split; [|done].
    intros _. eexists _, _. split; [reflexivity|]. split; [reflexivity|lia]. }
  split; [done|]. split; [good_none|]. split.
  { split; [by left|]. split; [|done].
    intros _. eexists _, _. split; [reflexivity|]. split; [reflexivity|lia]. }
  split; [done|]. split; [good_none|]. split.
  { split; [status_step|]. split; [|done].
    intros _. eexists _, _. split; [reflexivity|]. split; [reflexivity|lia]. }
  apply (chain_hooks ps 15); [lia|done| |done..].
  intros Hmono. constructor; [by apply Hsorted|].
  destruct Hps as [|q ps Hq _]; constructor. lia.
Qed.

(** The writes of every way through the pipeline are sound for a job
    just created. *)
Lemma chain_outcome o :
  Forall (λ q, (20 ≤ q ≤ 90)%Z) (outcome_hooks o) →
  (mono = true → Sorted Z.le (outcome_hooks o)) →
  ((∃ meta ps path, o = KeptSource meta ps path) → T "downloading" "done" = true) →
  chain T mono (created_view payload) (outcome_writes o).
Proof.
  intros Hps Hsorted Hkept.
  destruct o as [|want|exc|exc|meta exc|meta ps exc|meta ps path
                |meta ps want exc|meta ps want path]; cbn [outcome_writes outcome_hooks] in *.
  - by apply (chain_error "queued" 0).
  - by apply (chain_error "queued" 0).
  - done.
  - cbn. split; [done|]. split; [good_none|]. split.
    { split; [status_step|]. split; [|done].
      intros _. eexists _, _. split; [reflexivity|]. split; [reflexivity|lia]. }
    apply (chain_failed "fetching"); [done|lia].
  - cbn. split; [done|]. split; [good_none|]. split.
    { split; [status_step|]. split; [|done].
      intros _. eexists _, _. split; [reflexivity|]. split; [reflexivity|lia]. }
    split; [done|]. split; [good_none|]. split.
    { split; [by left|]. split; [|done].
      intros _. eexists _, _. split; [reflexivity|]. split; [reflexivity|lia]. }
    apply (chain_failed "fetching"); [done|lia].
  - apply chain_downloading; [done..|left; by eexists|].
    by intros (? & ? & ?).
  - apply chain_downloading; [done..|right; left; by eexists _, _|].
    intros _. apply Hkept. by eexists _, _, _.
  - apply chain_downloading; [done..|right; right; left; by eexists _, _|].
    by intros (? & ? & ?).
  - apply chain_downloading; [done..|right; right; right; by eexists _, _, _|].
    by intros (? & ? & ?).
Qed.

End chain_facts.

(** ** The life of a job *)

Lemma rec_get_union (f r : record) k :
  rec_get (f ∪ r) k = default (rec_get r k) (f !! k).
Proof.
  unfold rec_get. destruct (f !! k) as [v|] eqn:Hf.
  - by rewrite (union_lookup_l _ _ _ v).
  - by rewrite union_lookup_r.
Qed.

Lemma view_of_union (f r : record) : view_of (f ∪ r) = merge_view (view_of r) f.
Proof.
  unfold view_of, merge_view, status_of, progress_of, result_of; cbn.
  by rewrite !rec_get_union.
Qed.

Lemma rec_get_merged r job_id fields now k :
  k ≠ "updated_at" → k ≠ "job_id" →
  rec_get (merged r job_id fields now) k = default (rec_get r k) (fields !! k).
Proof.
  intros Hk Hk'. unfold rec_get. rewrite merged_lookup by done.
  destruct (fields !! k); [done|]. rewrite setdefault_lookup.
  destruct (r !! k); [done|]. by rewrite decide_False.
Qed.

Lemma view_of_merged r job_id fields now :
  view_of (merged r job_id fields now) = merge_view (view_of r) fields.
Proof.
  unfold view_of, merge_view, status_of, progress_of, result_of; cbn.
  by rewrite !rec_get_merged.
Qed.

(** [job_update] is a merging write on every backend. *)
Lemma job_update_merges {B : Type} `{JobBackendLaws B} (b : B) job_id fields now r :
  get b job_id = Some r →
  ∃ b' r',
    job_update (Some b) job_id fields now = (Ok r', Some b')
    ∧ get b' job_id = Some r'
    ∧ truthy_rec r' = true
    ∧ view_of r' = merge_view (view_of r) fields.
Proof.
  intros Hr. eexists _, _. split; [apply job_update_configured|].
  split; [apply get_after_job_update|]. split; [apply truthy_merged|].
  by rewrite (get_or_empty_Some _ _ _ Hr), view_of_merged.
Qed.

Lemma updater_merging {B : Type} `{JobBackendLaws B} jid :
  merging_write (B := B) jid updater.
Proof.
  intros fields w b r Hb Hr Htr. unfold updater. rewrite Hb.
  destruct (job_update_merges b jid fields (clock w) r Hr)
    as (b' & r' & Hup & Hget & Htr' & Hview).
  exists b', r'. by rewrite Hup.
Qed.

Lemma truthy_rec_union (f r : record) : truthy_rec r = true → truthy_rec (f ∪ r) = true.
Proof.
  unfold truthy_rec. intros Hr. apply negb_true_iff, bool_decide_eq_false.
  apply negb_true_iff, bool_decide_eq_false in Hr.
  intros Hsize. apply Hr. apply map_size_empty_inv in Hsize.
  apply map_size_empty_iff. apply map_eq. intros k. rewrite lookup_empty.
  assert (Hk : (f ∪ r) !! k = None) by by rewrite Hsize.
  by apply lookup_union_None in Hk as [_ ?].
Qed.

Lemma rq_write_merging jid : merging_write (B := RQBackend.t) jid rq_write.
Proof.
  intros fields w b r Hb Hr Htr. unfold rq_write. rewrite Hb. cbn.
  eexists _, _. split; [done|]. split; [apply run_job_update_get|].
  rewrite (get_or_empty_Some_rq _ _ _ Hr).
  split; [by apply truthy_rec_union|apply view_of_union].
Qed.

Lemma is_none_false v : is_none v = false ↔ v ≠ VNone.
Proof. destruct v; cbn; split; congruence. Qed.

Lemma is_str_true v s : is_str v s = true ↔ v = VStr s.
Proof.
  destruct v as [| |s'|]; cbn; try (split; congruence).
  rewrite String.eqb_eq. split; congruence.
Qed.

Section routes_facts.
Context {B : Type} `{JobBackendLaws B}.
Variable jid : string.

Lemma record_of_get (w : world B) b r :
  backend w = Some b → get b jid = Some r → record_of jid w = Some r.
Proof.
  intros Hb Hr. unfold record_of. by rewrite Hb, job_status_configured, Hr.
Qed.

(** [GET /file]: refused, or the job is done and has a result; the store
    is as before. *)
Lemma file_spec (w : world B) b r :
  backend w = Some b → get b jid = Some r → truthy_rec r = true →
  (∃ exc, file jid w = (Raise exc, w))
  ∨ (∃ resp path, file jid w = (Ok (resp, (jid, path)), w)
                  ∧ result_of r ≠ VNone ∧ status_of r = VStr "done").
Proof.
  intros Hb Hr Htr. unfold file. rewrite Hb, job_status_configured, Hr, Htr.
  cbn [negb orb].
  destruct (is_none (rec_get r "result")) eqn:Hres; [left; by eexists|].
  unfold rec_item. destruct (r !! "status") as [st|] eqn:Hstatus;
    [|left; by eexists].
  destruct (is_str st "done") eqn:Hst; cbn [negb]; [|left; by eexists].
  apply is_none_false in Hres. apply is_str_true in Hst. subst st.
  assert (Hdone : status_of r = VStr "done")
    by (unfold status_of, rec_get; by rewrite Hstatus).
  destruct (dict_item (rec_get r "result") "file_path") as [[| |path|]|];
    destruct (dict_item (rec_get r "result") "mimetype");
    destruct (dict_item (rec_get r "result") "filename");
    try (left; by eexists).
  right. by eexists _, _.
Qed.

(** [DELETE /file]: refused with the store as before, or the job has a
    result and the deletion is merged into its record. *)
Lemma delete_file_spec os_remove (w : world B) b r :
  backend w = Some b → get b jid = Some r → truthy_rec r = true →
  (delete_file os_remove jid w).2 = w
  ∨ (result_of r ≠ VNone
     ∧ ∃ b' r', (delete_file os_remove jid w).2 = World (Some b') (clock w)
                ∧ get b' jid = Some r'
                ∧ truthy_rec r' = true
                ∧ view_of r' = merge_view (view_of r) (w_deleted "Файл удалён")).
Proof.
  intros Hb Hr Htr. unfold delete_file. rewrite Hb, job_status_configured, Hr, Htr.
  cbn [negb orb].
  destruct (is_none (rec_get r "result")) eqn:Hres; [by left|].
  apply is_none_false in Hres.
  destruct (dict_item (rec_get r "result") "file_path") as [path|]; [|by left].
  destruct (job_update_merges b jid (w_deleted "Файл удалён") (clock w) r Hr)
    as (b' & r' & Hup & Hget & Htr' & Hview).
  assert (Hdone :
    (match job_update (Some b) jid (w_deleted "Файл удалён") (clock w) with
     | (Raise exc, b0) => (Raise exc, World b0 (clock w))
     | (Ok _, b0) => (Ok tt, World b0 (clock w))
     end).2 = World (Some b') (clock w)) by by rewrite Hup.
  destruct path as [| |p|]; try by left.
  destruct (os_remove p) as [[]|exc].
  - right. split; [done|]. by exists b', r'.
  - destruct exc; try by left.
    right. split; [done|]. by exists b', r'.
Qed.

(** The background task merges the deletion into the record. *)
Lemma cleanup_spec file_path (w : world B) b r :
  backend w = Some b → get b jid = Some r →
  ∃ b' r', (_cleanup_after_download jid file_path w).2 = World (Some b') (clock w)
           ∧ get b' jid = Some r'
           ∧ truthy_rec r' = true
           ∧ view_of r' = merge_view (view_of r)
                            (w_deleted "Файл удалён после скачивания").
Proof.
  intros Hb Hr. unfold _cleanup_after_download. rewrite Hb.
  destruct (job_update_merges b jid (w_deleted "Файл удалён после скачивания")
              (clock w) r Hr) as (b' & r' & Hup & Hget & Htr' & Hview).
  exists b', r'. split; [|done]. unfold w_deleted in Hup. by rewrite Hup.
Qed.

End routes_facts.

Section life_facts.
Context {B : Type} `{JobBackendLaws B}.
Variable e : env.
Variable jid : string.
Variable write : string → record → world B → world B.
Variable catches mono : bool.
Variable payload : value.
Variable T : string → string → bool.
Hypothesis Hwrite : merging_write jid write.
Hypothesis Hsorted : mono = true → hooks_sorted e payload.
Hypothesis HT : ∀ a b, listed_transition a b = true → T a b = true.
Hypothesis Hsource :
  asks_for_source payload = true → T "downloading" "done" = true.

(** The writes of the worker are sound for the job as it was created. *)
Lemma chain_worker_writes job :
  v_payload (view_of job) = payload →
  chain T mono (created_view payload) (worker_writes e jid catches job).
Proof.
  intros Hpl. unfold worker_writes.
  destruct (pipeline_writes_way e jid (payload_of job)) as (o & Hway & ->).
  pose proof (way_hooks _ _ _ Hway) as Hhooks.
  assert (Hrange : Forall (λ q, (20 ≤ q ≤ 90)%Z) (outcome_hooks o)).
  { destruct Hhooks as [->| ->]; [done|apply hook_values_range]. }
  assert (Hs : mono = true → Sorted Z.le (outcome_hooks o)).
  { intros Hmono. destruct Hhooks as [->| ->]; [constructor|].
    specialize (Hsorted Hmono). unfold hooks_sorted in Hsorted.
    unfold payload_of. cbn in Hpl. by rewrite Hpl. }
  assert (Hkept : (∃ meta ps path, o = KeptSource meta ps path) →
                  T "downloading" "done" = true).
  { intros (meta & ps & path & ->). apply Hsource. unfold asks_for_source.
    cbn in Hpl. unfold payload_of in Hway. rewrite Hpl in Hway.
    destruct Hway as (_ & w & Hw & _ & h & _ & _ & _ & _ & _ & Hsrc).
    rewrite Hw. by apply String.eqb_eq. }
  pose proof (chain_outcome mono payload T HT o Hrange Hs Hkept) as Hchain.
  destruct o; cbn [outcome_result outcome_writes] in *; try done.
  destruct catches; [|done]. by apply (chain_error mono payload T HT "queued" 0).
Qed.

Lemma deleted_moves v message :
  good v →
  v_status v = VStr "done" ∨ v_status v = VStr "deleted" →
  good (merge_view v (w_deleted message))
  ∧ moves T mono v (merge_view v (w_deleted message)).
Proof.
  intros [Hres (p & Hp & Hrange)] Hst.
  change (merge_view v (w_deleted message))
    with (View (VStr "deleted") (v_progress v) VNone (v_payload v)).
  split; [split|split; [|split]]; cbn.
  - split; [done|discriminate].
  - by exists p.
  - destruct Hst as [-> | ->]; [|by left].
    right. exists "done", "deleted". split; [done|]. split; [done|]. by apply HT.
  - intros _. exists p, p. by rewrite Hp.
  - done.
Qed.

(** One event: the job keeps a record, the invariant holds after it, and
    the fields of the record moved by one sound step or not at all. *)
Lemma step_inv s ev :
  inv jid T mono payload s →
  ∃ r r',
    record_of jid (sys_world s) = Some r
    ∧ record_of jid (sys_world (step e jid write catches s ev)) = Some r'
    ∧ inv jid T mono payload (step e jid write catches s ev)
    ∧ good (view_of r')
    ∧ moves T mono (view_of r) (view_of r').
Proof.
  intros (b & r & Hb & Hr & Htr & Hgood & Hpl & Hworker & Htasks & Hids).
  pose proof (record_of_get jid _ _ _ Hb Hr) as Hrec.
  pose proof (moves_refl mono T (view_of r) Hgood) as Hstay.
  destruct s as [w worker tasks]; cbn [sys_world sys_worker sys_tasks] in *.
  exists r.
  assert (Hsame : ∀ worker' tasks' c,
    match worker' with
    | None => view_of r = created_view payload ∧ tasks' = []
    | Some l => chain T mono (view_of r) l ∧ (l ≠ [] → tasks' = [])
    end →
    (tasks' ≠ [] →
     v_status (view_of r) = VStr "done" ∨ v_status (view_of r) = VStr "deleted") →
    Forall (λ t, t.1 = jid) tasks' →
    ∃ r', record_of jid (World (Some b) c) = Some r'
          ∧ inv jid T mono payload (Sys (World (Some b) c) worker' tasks')
          ∧ good (view_of r') ∧ moves T mono (view_of r) (view_of r')).
  { intros worker' tasks' c Hw' Ht' Hi'. exists r.
    split; [by apply (record_of_get jid _ b)|].
    split; [|done]. by exists b, r. }
  assert (Hw : w = World (Some b) (clock w)) by (destruct w; cbn in *; by subst).
  assert (Hmerged : ∀ b' r' fields worker' tasks',
    get b' jid = Some r' → truthy_rec r' = true →
    view_of r' = merge_view (view_of r) fields →
    good (merge_view (view_of r) fields) →
    moves T mono (view_of r) (merge_view (view_of r) fields) →
    chain T mono (merge_view (view_of r) fields) worker' →
    (worker' ≠ [] → tasks' = []) →
    (tasks' ≠ [] → v_status (merge_view (view_of r) fields) = VStr "done"
                   ∨ v_status (merge_view (view_of r) fields) = VStr "deleted") →
    Forall (λ t, t.1 = jid) tasks' →
    ∃ r'', record_of jid (World (Some b') (clock w)) = Some r''
           ∧ inv jid T mono payload (Sys (World (Some b') (clock w)) (Some worker') tasks')
           ∧ good (view_of r'') ∧ moves T mono (view_of r) (view_of r'')).
  { intros b' r' fields worker' tasks' Hget Htr' Hview Hg Hm Hch Hno Ht' Hi'.
    exists r'. split; [by apply (record_of_get jid _ b')|].
    rewrite Hview. split; [|done].
    exists b', r'. rewrite Hview. repeat (split; [done|]).
    split; [|done]. destruct Hm as (_ & _ & ->). done. }
  assert (Hidle : v_result (view_of r) ≠ VNone ∨ tasks ≠ [] →
                  worker = Some []).
  { intros Hbusy. destruct worker as [[|fields l]|]; [done| |].
    - destruct Hworker as [[Hnone _] Hno].
      destruct Hbusy as [Hres|Ht]; [done|]. by specialize (Hno ltac:(done)).
    - destruct Hworker as [Hv Ht]. destruct Hbusy as [Hres|Ht']; [|done].
      by rewrite Hv in Hres. }
  enough (∃ r',
    record_of jid (sys_world (step e jid write catches (Sys w worker tasks) ev))
      = Some r'
    ∧ inv jid T mono payload (step e jid write catches (Sys w worker tasks) ev)
    ∧ good (view_of r') ∧ moves T mono (view_of r) (view_of r'))
    as (r' & Hgoal); [by exists r'|].
  destruct ev as [d| | | |os_remove| |job_id fields|job_id payload'];
    cbn [step sys_world sys_worker sys_tasks].
  - (* the clock advances *)
    cbn [backend clock]. rewrite Hb. by apply Hsame.
  - (* the worker takes the job *)
    rewrite Hw in Hrec |- *. destruct worker as [l|].
    + by apply Hsame.
    + rewrite Hrec. apply Hsame; [|done..]. rewrite Htr.
      destruct Hworker as [Hv ->]. rewrite Hv. split; [|done].
      by apply chain_worker_writes.
  - (* the worker writes *)
    destruct worker as [[|fields l]|]; [rewrite Hw; by apply Hsame| |rewrite Hw; by apply Hsame].
    destruct Hworker as [(Hnone & Hg & Hm & Hch) Hno].
    specialize (Hno ltac:(done)). subst tasks.
    destruct (Hwrite fields w b r Hb Hr Htr) as (b' & r' & -> & Hget & Htr' & Hview).
    by eapply Hmerged.
  - (* GET /file *)
    destruct (file_spec jid w b r Hb Hr Htr)
      as [(exc & ->)|(resp & path & -> & Hres & Hst)].
    + rewrite Hw. by apply Hsame.
    + rewrite Hw. rewrite (Hidle (or_introl Hres)) in *.
      apply Hsame; [done| |].
      * intros _. by left.
      * apply Forall_app. split; [done|]. by constructor.
  - (* DELETE /file *)
    destruct (delete_file_spec jid os_remove w b r Hb Hr Htr)
      as [->|(Hres & b' & r' & -> & Hget & Htr' & Hview)].
    + rewrite Hw. by apply Hsame.
    + rewrite (Hidle (or_introl Hres)) in *.
      assert (Hst : v_status (view_of r) = VStr "done")
        by by apply (proj1 (proj1 Hgood)).
      destruct (deleted_moves (view_of r) "Файл удалён" Hgood (or_introl Hst))
        as [Hg Hm].
      eapply Hmerged; try done. intros _. by right.
  - (* a background task runs *)
    destruct tasks as [|[job_id file_path] tasks]; [rewrite Hw; by apply Hsame|].
    apply Forall_cons in Hids as [Hid Hids]. cbn in Hid. subst job_id.
    assert (Hne : (jid, file_path) :: tasks ≠ []) by done.
    rewrite (Hidle (or_intror Hne)) in *.
    destruct (cleanup_spec jid file_path w b r Hb Hr)
      as (b' & r' & -> & Hget & Htr' & Hview).
    destruct (deleted_moves (view_of r) "Файл удалён после скачивания" Hgood
                (Htasks Hne)) as [Hg Hm].
    eapply Hmerged; try done. intros _. by right.
  - (* another job is updated *)
    case_decide; [rewrite Hw; by apply Hsame|].
    cbn [sys_world sys_worker sys_tasks]. unfold updater. rewrite Hb.
    rewrite job_update_configured. cbn [snd].
    set (b' := set b job_id _).
    assert (Hr' : get b' jid = Some r) by (unfold b'; by rewrite get_set_ne).
    exists r. split; [by apply (record_of_get jid _ b')|].
    split; [|done]. by exists b', r.
  - (* another job is created *)
    case_decide; [rewrite Hw; by apply Hsame|].
    cbn [sys_world sys_worker sys_tasks]. rewrite Hb. unfold create_job.
    destruct (enqueue b job_id (clock w) payload') as [b' id'] eqn:He. cbn [snd].
    assert (Hr' : get b' jid = Some r).
    { replace b' with (enqueue b job_id (clock w) payload').1 by by rewrite He.
      by rewrite get_enqueue_ne. }
    exists r. split; [by apply (record_of_get jid _ b')|].
    split; [|done]. by exists b', r.
Qed.

End life_facts.

Lemma chained_map {A C} (R : A → A → Prop) (R' : C → C → Prop) (f : A → C) l :
  (∀ x y, R x y → R' (f x) (f y)) → chained R l → chained R' (map f l).
Proof.
  intros HR. induction l as [|x [|y l] IH]; [done..|].
  intros [Hxy Hl]. split; [by apply HR|by apply IH].
Qed.

Section history_facts.
Context {B : Type} `{JobBackendLaws B}.
Variable e : env.
Variable jid : string.
Variable write : string → record → world B → world B.
Variable catches mono : bool.
Variable payload : value.
Variable T : string → string → bool.
Hypothesis Hwrite : merging_write jid write.
Hypothesis Hsorted : mono = true → hooks_sorted e payload.
Hypothesis HT : ∀ a b, listed_transition a b = true → T a b = true.
Hypothesis Hsource :
  asks_for_source payload = true → T "downloading" "done" = true.

Lemma created_inv (b : B) now :
  inv jid T mono payload (created jid b now payload).
Proof.
  unfold created, create_job.
  destruct (enqueue b jid now payload) as [b' id'] eqn:He. cbn [snd].
  assert (Hr : get b' jid = Some (initial_record jid now payload)).
  { replace b' with (enqueue b jid now payload).1 by by rewrite He.
    apply get_enqueue_eq. }
  exists b', (initial_record jid now payload). cbn [sys_world sys_worker sys_tasks backend].
  split; [done|]. split; [done|]. split; [apply truthy_initial_record|].
  split; [|done].
  split; [split; [done|discriminate]|]. exists 0%Z. split; [done|lia].
Qed.

(** The records a sequence of events makes observable, from a state
    where the invariant holds: one per state, each sound, each reached
    from the one before by a sound step. *)
Lemma history_inv evs : ∀ s r,
  inv jid T mono payload s →
  record_of jid (sys_world s) = Some r →
  ∃ hs, omap (λ s, record_of jid (sys_world s))
             (states e jid write catches s evs) = r :: hs
        ∧ length hs = length evs
        ∧ Forall (λ r, good (view_of r)) hs
        ∧ chained (λ r r', moves T mono (view_of r) (view_of r')) (r :: hs).
Proof.
  induction evs as [|ev evs IH]; intros s r Hinv Hrec.
  - exists []. cbn. by rewrite Hrec.
  - destruct (step_inv e jid write catches mono payload T Hwrite Hsorted HT Hsource
                s ev Hinv)
      as (r0 & r' & Hr0 & Hr' & Hinv' & Hgood' & Hmoves).
    assert (r0 = r) as -> by congruence.
    destruct (IH _ r' Hinv' Hr') as (hs & Hhs & Hlen & Hgood & Hchain).
    exists (r' :: hs). cbn [states omap list_omap]. rewrite Hrec.
    cbn [states] in Hhs. rewrite Hhs.
    split; [done|]. split; [cbn; by rewrite Hlen|].
    split; [by constructor|]. by split.
Qed.

(** The history of a job from its creation. *)
Lemma history_sound (b : B) now evs :
  let hs := history e jid write catches b now payload evs in
  length hs = S (length evs)
  ∧ Forall (λ r, good (view_of r)) hs
  ∧ chained (λ r r', moves T mono (view_of r) (view_of r')) hs.
Proof.
  pose proof (created_inv b now) as Hinv.
  destruct Hinv as (b' & r & Hb & Hr & Htr & Hgood & Hrest) eqn:Hi.
  pose proof (record_of_get jid _ _ _ Hb Hr) as Hrec.
  destruct (history_inv evs _ r (created_inv b now) Hrec)
    as (hs & Hhs & Hlen & Hgoods & Hchain).
  unfold history. rewrite Hhs. split; [cbn; by rewrite Hlen|].
  split; [by constructor|done].
Qed.

End history_facts.

(** ** Properties of the life of a job *)

Lemma good_result_iff_done r : good (view_of r) → result_iff_done r.
Proof. by intros [Hres _]. Qed.

Lemma good_progress_in_range r : good (view_of r) → progress_in_range r.
Proof. by intros [_ Hp]. Qed.

Lemma good_cleared r :
  good (view_of r) →
  status_of r = VStr "deleted" ∨ status_of r = VStr "error" → result_of r = VNone.
Proof.
  intros [Hres _] Hst. cbn in Hres.
  destruct (result_of r) eqn:Hr; [done|..];
    (assert (Hdone : status_of r = VStr "done") by by apply Hres);
    rewrite Hdone in Hst; by destruct Hst.
Qed.

Lemma no_hooks_needed e payload : false = true → hooks_sorted e payload.
Proof. discriminate. Qed.

Lemma transition_listed a b : listed_transition a b = true → transition a b = true.
Proof. unfold transition. by intros ->. Qed.

Lemma transition_source (payload : value) :
  asks_for_source payload = true → transition "downloading" "done" = true.
Proof. done. Qed.

(** C2.  In both deployments, whatever the outside world does and in
    whatever order the worker's writes, the requests for the file, the
    background tasks and the writes to other jobs come: every event leaves
    the job with a record, and in every record observed, from the creation
    on, [result] is non-null exactly when [status] is ["done"]; so
    [result] is null in every record whose status is ["deleted"] or
    ["error"]. *)
Theorem result_iff_done_always (e : env) (jid : string)
    (mb : MemoryBackend.t) (rb : RQBackend.t) (now : Z) (payload : value)
    (evs : list event) :
  (length (memory_history e jid mb now payload evs) = S (length evs)
   ∧ Forall result_iff_done (memory_history e jid mb now payload evs)
   ∧ Forall (λ r, status_of r = VStr "deleted" ∨ status_of r = VStr "error" →
                  result_of r = VNone)
       (memory_history e jid mb now payload evs))
  ∧ (length (rq_history e jid rb now payload evs) = S (length evs)
     ∧ Forall result_iff_done (rq_history e jid rb now payload evs)
     ∧ Forall (λ r, status_of r = VStr "deleted" ∨ status_of r = VStr "error" →
                    result_of r = VNone)
         (rq_history e jid rb now payload evs)).
Proof.
  split.
  - destruct (history_sound e jid updater true false payload transition
                (updater_merging jid) (no_hooks_needed e payload)
                transition_listed (transition_source payload) mb now evs)
      as (Hlen & Hgood & _).
    split; [done|]. split.
    + eapply Forall_impl; [exact Hgood|]. apply good_result_iff_done.
    + eapply Forall_impl; [exact Hgood|]. apply good_cleared.
  - destruct (history_sound e jid rq_write false false payload transition
                (rq_write_merging jid) (no_hooks_needed e payload)
                transition_listed (transition_source payload) rb now evs)
      as (Hlen & Hgood & _).
    split; [done|]. split.
    + eapply Forall_impl; [exact Hgood|]. apply good_result_iff_done.
    + eapply Forall_impl; [exact Hgood|]. apply good_cleared.
Qed.

(** The transitions, one by one. *)
Lemma transition_table a b :
  transition a b = true ↔
  (a, b) ∈ [("queued", "fetching"); ("fetching", "downloading");
            ("downloading", "converting"); ("converting", "done");
            ("downloading", "done");
            ("queued", "error"); ("fetching", "error");
            ("downloading", "error"); ("converting", "error");
            ("done", "deleted"); ("error", "deleted")].
Proof.
  unfold transition, listed_transition, on_path, non_terminal.
  rewrite !orb_true_iff, !andb_true_iff, !bool_decide_eq_true, !String.eqb_eq.
  rewrite !elem_of_cons, !elem_of_nil.
  split; naive_solver.
Qed.


Lemma moves_progress T r r' :
  moves T true (view_of r) (view_of r') → progress_le (progress_of r) (progress_of r').
Proof. intros (_ & Hp & _). by apply Hp. Qed.







(** C4 as the specification states it fails: the first attempt of a
    download reports half of the file and fails, the retry starts over,
    and the progress written goes from 50 back to 20. *)
Lemma retried_download_lowers_progress :
  ¬ chained progress_le
      (map progress_of
         (memory_history retry_env "job1" MemoryBackend.init 0
            (sample_payload "mp4") (worker_run 8))).
Proof.
  assert (Hhist :
    map progress_of
      (memory_history retry_env "job1" MemoryBackend.init 0
         (sample_payload "mp4") (worker_run 8))
    = [VNum 0; VNum 0; VNum 5; VNum 5; VNum 15; VNum 50; VNum 20; VNum 85;
       VNum 95; VNum 100])
    by (vm_compute; reflexivity).
  rewrite Hhist. cbn.
  intros (_ & _ & _ & _ & _ & (p & q & Hp & Hq & Hle) & _).
  injection Hp as <-. injection Hq as <-. lia.
Qed.

(** C4, amended.  In both deployments the progress of every record
    observed is an integer between 0 and 100; and when the values the
    download's hooks report do not decrease from one call to the next,
    first attempt and retry taken together, no write lowers the progress
    of the job. *)
Theorem progress_bounded_and_monotone (e : env) (jid : string)
    (mb : MemoryBackend.t) (rb : RQBackend.t) (now : Z) (payload : value)
    (evs : list event) :
  Forall progress_in_range (memory_history e jid mb now payload evs)
  ∧ Forall progress_in_range (rq_history e jid rb now payload evs)
  ∧ (hooks_sorted e payload →
     chained progress_le (map progress_of (memory_history e jid mb now payload evs))
     ∧ chained progress_le (map progress_of (rq_history e jid rb now payload evs))).
Proof.
  split; [|split].
  - destruct (history_sound e jid updater true false payload transition
                (updater_merging jid) (no_hooks_needed e payload)
                transition_listed (transition_source payload) mb now evs)
      as (_ & Hgood & _).
    eapply Forall_impl; [exact Hgood|]. apply good_progress_in_range.
  - destruct (history_sound e jid rq_write false false payload transition
                (rq_write_merging jid) (no_hooks_needed e payload)
                transition_listed (transition_source payload) rb now evs)
      as (_ & Hgood & _).
    eapply Forall_impl; [exact Hgood|]. apply good_progress_in_range.
  - intros Hsorted. split.
    + destruct (history_sound e jid updater true true payload transition
                  (updater_merging jid) (λ _, Hsorted)
                  transition_listed (transition_source payload) mb now evs)
        as (_ & _ & Hchain).
      eapply chained_map; [|exact Hchain]. apply moves_progress.
    + destruct (history_sound e jid rq_write false true payload transition
                  (rq_write_merging jid) (λ _, Hsorted)
                  transition_listed (transition_source payload) rb now evs)
        as (_ & _ & Hchain).
      eapply chained_map; [|exact Hchain]. apply moves_progress.
Qed.

(** A job converted to MP4 whose single download reports a quarter, then
    a half of the file; the file is fetched and deleted afterwards. *)
Lemma progress_bounded_and_monotone_witness :
  let e := scripted_env (Ok sample_meta)
             ([hook_data 256 1024; hook_data 512 1024],
              Ok "./temp/job1/Sample Video.webm")
             ([], Raise (DownloadError "not reached"))
             (Ok "./temp/job1/Sample Video.mp4") in
  let evs := worker_run 7 ++ [GetFile; Tick 5; Cleanup] in
  hooks_sorted e (sample_payload "mp4")
  ∧ chained progress_le
      (map progress_of
         (memory_history e "job1" MemoryBackend.init 0 (sample_payload "mp4") evs)).
Proof.
  intros e evs.
  assert (Hsorted : hooks_sorted e (sample_payload "mp4")).
  { unfold hooks_sorted. vm_compute. repeat constructor. discriminate. }
  split; [exact Hsorted|].
  exact (proj1 (proj2 (proj2
           (progress_bounded_and_monotone e "job1" MemoryBackend.init
              (RQBackend.init (RQBackend.mk_settings "downloads" 1800 3600 86400))
              0 (sample_payload "mp4") evs)) Hsorted)).
Defined.

(** ** The workers perform the recorded writes

    One turn of [start_worker], and [run_job], end in the store that the
    writes of [worker_writes], made one after the other, lead to. *)

Lemma start_worker_turn_replay {B : Type} `{JobBackendLaws B}
    (e : env) (jid : string) (w : world B) b r :
  backend w = Some b → get b jid = Some r → truthy_rec r = true →
  (start_worker_turn e jid w).2
  = replay (updater jid) w (worker_writes e jid true r).
Proof.
  intros Hb Hr Htr. unfold start_worker_turn, worker_writes, pipeline_writes.
  rewrite Hb, job_status_configured, Hr, Htr. cbn [negb].
  destruct (process_outcome e jid (payload_of r)) as (o & _ & Hrun).
  unfold try_except. rewrite !Hrun, replay_record_call. cbn [app].
  by destruct o.
Qed.

Lemma run_job_replay (e : env) (jid : string) (rb : RQBackend.t) r :
  RQBackend.get rb jid = Some r → truthy_rec r = true →
  (run_job e jid rb).2
  = replay (run_job_update jid) rb (worker_writes e jid false r).
Proof.
  intros Hr Htr. unfold run_job, worker_writes, pipeline_writes.
  rewrite Hr, Htr. cbn [negb].
  destruct (process_outcome e jid (payload_of r)) as (o & _ & Hrun).
  rewrite !Hrun, replay_record_call. cbn [app snd].
  by destruct o.
Qed.

(** ** The rate limiter *)

Module ratelimit_facts.
Import ratelimit.

Section limiter.
Variable limit window : Z.

(** The loop pops a prefix of events, all older than the window. *)
Lemma drop_old_split now queue :
  ∃ stale, queue = stale ++ drop_old now window queue
           ∧ Forall (λ t, (window < now - t)%Z) stale.
Proof.
  induction queue as [|t queue (stale & Hq & Hstale)]; cbn.
  - by exists [].
  - destruct (window <? now - t)%Z eqn:Ht.
    + exists (t :: stale). split; [by rewrite Hq at 1|].
      constructor; [lia|done].
    + by exists [].
Qed.

(** On a queue in the order of the clock, what the loop leaves is all
    within the window. *)
Lemma drop_old_fresh now queue :
  StronglySorted Z.le queue →
  Forall (λ t, (now - t ≤ window)%Z) (drop_old now window queue).
Proof.
  induction 1 as [|t queue Hsorted IH Hle]; cbn; [done|].
  destruct (window <? now - t)%Z eqn:Ht; [done|].
  constructor; [lia|]. eapply Forall_impl; [exact Hle|]. cbn. lia.
Qed.

Lemma in_window_stale now events :
  Forall (λ t, (window < now - t)%Z) events → in_window now window events = [].
Proof.
  unfold in_window. induction 1 as [|t events Ht _ IH]; [done|].
  rewrite filter_cons_False; [done|lia].
Qed.

Lemma in_window_fresh now events :
  Forall (λ t, (now - t ≤ window)%Z) events → in_window now window events = events.
Proof.
  unfold in_window. induction 1 as [|t events Ht _ IH]; [done|].
  rewrite filter_cons_True; [by rewrite IH|done].
Qed.

Lemma serve_app hits calls1 calls2 :
  serve limit window hits (calls1 ++ calls2)
  = ((serve limit window hits calls1).1
       ++ (serve limit window (serve limit window hits calls1).2 calls2).1,
     (serve limit window (serve limit window hits calls1).2 calls2).2).
Proof.
  revert hits. induction calls1 as [|[i now] calls1 IH]; intros hits; cbn.
  - by destruct (serve limit window hits calls2).
  - destruct (allow hits i now limit window) as [ok hits'].
    rewrite IH. destruct (serve limit window hits' calls1) as [oks hits'']. cbn.
    by destruct (serve limit window hits'' calls2).
Qed.

Lemma serve_length hits calls :
  length (serve limit window hits calls).1 = length calls.
Proof.
  revert hits. induction calls as [|[i now] calls IH]; intros hits; cbn; [done|].
  destruct (allow hits i now limit window) as [ok hits'].
  specialize (IH hits'). destruct (serve limit window hits' calls). cbn in *.
  by rewrite IH.
Qed.

Lemma answers_snoc calls i now :
  answers limit window (calls ++ [(i, now)])
  = answers limit window calls
      ++ [(allow (state limit window calls) i now limit window).1].
Proof.
  unfold answers, state. rewrite serve_app. cbn.
  by destruct (allow _ i now limit window).
Qed.

Lemma state_snoc calls i now :
  state limit window (calls ++ [(i, now)])
  = (allow (state limit window calls) i now limit window).2.
Proof.
  unfold answers, state. rewrite serve_app. cbn.
  by destruct (allow _ i now limit window).
Qed.

Lemma answers_app_lookup pre call post :
  answers limit window (pre ++ call :: post) !! length pre
  = Some (allow (state limit window pre) call.1 call.2 limit window).1.
Proof.
  unfold answers, state. rewrite serve_app. cbn [fst].
  rewrite lookup_app_r; rewrite serve_length; [|done].
  rewrite Nat.sub_diag. destruct call as [i now]. cbn.
  destruct (allow _ i now limit window). by destruct (serve _ _ _ post).
Qed.

Lemma admissions_app i calls1 calls2 oks1 oks2 :
  length calls1 = length oks1 →
  admissions i (calls1 ++ calls2) (oks1 ++ oks2)
  = admissions i calls1 oks1 ++ admissions i calls2 oks2.
Proof.
  revert oks1. induction calls1 as [|[j now] calls1 IH]; intros [|ok oks1] Hlen;
    try done; cbn in *.
  rewrite IH by lia. by destruct (ok && bool_decide (j = i)).
Qed.

Lemma admitted_snoc i calls j now :
  admitted limit window i (calls ++ [(j, now)])
  = admitted limit window i calls
      ++ (if (allow (state limit window calls) j now limit window).1
             && bool_decide (j = i)
          then [now] else []).
Proof.
  unfold admitted. rewrite answers_snoc, admissions_app.
  - cbn. by destruct (_ && _).
  - unfold answers. by rewrite serve_length.
Qed.

Lemma filter_length_mono {A} (P Q : A → Prop) `{∀ x, Decision (P x)}
    `{∀ x, Decision (Q x)} (l : list A) :
  Forall (λ x, P x → Q x) l → length (filter P l) ≤ length (filter Q l).
Proof.
  induction 1 as [|x l Hx _ IH]; [done|].
  rewrite !filter_cons. destruct (decide (P x)) as [HP|HP].
  - rewrite decide_True by auto. cbn. lia.
  - destruct (decide (Q x)); cbn; lia.
Qed.

Lemma sorted_snoc_bound (times : list Z) now :
  StronglySorted Z.le (times ++ [now]) →
  StronglySorted Z.le times ∧ Forall (λ t, (t ≤ now)%Z) times.
Proof.
  intros Hs. apply StronglySorted_app in Hs as (Hle & Hs & _).
  split; [done|]. apply Forall_forall. intros t Ht. apply Hle; [done|].
  by apply list_elem_of_singleton.
Qed.

(** After any calls made in the order of the clock: the admissions of an
    identifier are in that order, and its stored events are these
    admissions without a prefix that is older than the window for good. *)
Lemma limiter_inv calls :
  StronglySorted Z.le (map snd calls) →
  ∀ i,
    StronglySorted Z.le (admitted limit window i calls)
    ∧ Forall (λ t, t ∈ map snd calls) (admitted limit window i calls)
    ∧ ∃ old,
        admitted limit window i calls
        = old ++ default [] (state limit window calls !! i)
        ∧ Forall (λ t, ∀ now, Forall (λ c, (c ≤ now)%Z) (map snd calls) →
                               (window < now - t)%Z) old.
Proof.
  induction calls as [|[j now] calls IH] using rev_ind; intros Hsorted i.
  - split; [constructor|]. split; [constructor|]. by exists [].
  - rewrite map_app in Hsorted. cbn in Hsorted.
    apply sorted_snoc_bound in Hsorted as [Hsorted Hnow].
    destruct (IH Hsorted i) as (Hadm & Hin & old & Hold & Hstale).
    rewrite admitted_snoc, state_snoc, map_app. cbn [map].
    unfold allow.
    set (q0 := default [] (state limit window calls !! j)).
    destruct (drop_old_split now q0) as (stale & Hq0 & Hdropped).
    set (q1 := drop_old now window q0) in *.
    assert (Hmem : Forall (λ t, t ∈ map snd calls ++ [now])
                     (admitted limit window i calls)).
    { eapply Forall_impl; [exact Hin|]. intros t Ht. apply elem_of_app. by left. }
    assert (Hstale' : Forall (λ t, ∀ now', Forall (λ c, (c ≤ now')%Z)
                                              (map snd calls ++ [now]) →
                                            (window < now' - t)%Z) old).
    { eapply Forall_impl; [exact Hstale|]. intros t Ht now' Hnow'.
      apply Forall_app in Hnow' as [Hnow' _]. by apply Ht. }
    destruct (decide (j = i)) as [->|Hne].
    + fold q0 in Hold.
      assert (Hstale'' : Forall (λ t, ∀ now', Forall (λ c, (c ≤ now')%Z)
                                                 (map snd calls ++ [now]) →
                                               (window < now' - t)%Z) stale).
      { eapply Forall_impl; [exact Hdropped|]. intros t Ht now' Hnow'.
        apply Forall_app in Hnow' as [_ Hnow']. apply Forall_cons in Hnow' as [Hnow' _].
        cbn in Ht. lia. }
      rewrite bool_decide_eq_true_2 by done.
      destruct (limit <=? Z.of_nat (length q1))%Z; cbn [fst snd andb].
      * rewrite app_nil_r, lookup_insert_eq. cbn.
        split; [done|]. split; [done|].
        exists (old ++ stale). split; [by rewrite Hold, Hq0, app_assoc|].
        by apply Forall_app.
      * rewrite lookup_insert_eq. cbn. split; [|split].
        -- apply StronglySorted_app. split; [|split; [done|repeat constructor]].
           intros t t' Ht Ht'. apply list_elem_of_singleton in Ht' as ->.
           rewrite Forall_forall in Hin, Hnow. by apply Hnow, Hin.
        -- apply Forall_app. split; [done|]. constructor; [|done].
           apply elem_of_app. right. by apply list_elem_of_singleton.
        -- exists (old ++ stale).
           split; [by rewrite Hold, Hq0, !app_assoc|]. by apply Forall_app.
    + rewrite bool_decide_eq_false_2, andb_false_r, app_nil_r by done.
      split; [done|]. split; [done|]. exists old.
      split; [|done]. rewrite Hold. f_equal.
      destruct (limit <=? _)%Z; cbn; by rewrite lookup_insert_ne.
Qed.

(** A call: the loop leaves the admissions of the identifier that are
    not older than the window; the call is allowed when these are fewer
    than the limit, and is then stored after them. *)
Lemma allow_spec calls i now :
  StronglySorted Z.le (map snd (calls ++ [(i, now)])) →
  let recent := in_window now window (admitted limit window i calls) in
  let ok := bool_decide (Z.of_nat (length recent) < limit)%Z in
  allow (state limit window calls) i now limit window
  = (ok, <[i := recent ++ (if ok then [now] else [])]> (state limit window calls)).
Proof.
  rewrite map_app. cbn [map]. intros Hsorted.
  apply sorted_snoc_bound in Hsorted as [Hsorted Hnow].
  destruct (limiter_inv calls Hsorted i) as (Hadm & Hin & old & Hold & Hstale).
  set (q0 := default [] (state limit window calls !! i)) in *.
  destruct (drop_old_split now q0) as (stale & Hq0 & Hdropped).
  assert (Hq0s : StronglySorted Z.le q0).
  { rewrite Hold in Hadm. by apply StronglySorted_app in Hadm as (_ & _ & ?). }
  assert (Hwin : in_window now window (admitted limit window i calls)
                 = drop_old now window q0).
  { rewrite Hold. unfold in_window. rewrite filter_app.
    fold (in_window now window old). fold (in_window now window q0).
    rewrite in_window_stale; cycle 1.
    { eapply Forall_impl; [exact Hstale|]. intros t Ht. by apply Ht. }
    rewrite Hq0 at 1. unfold in_window. rewrite filter_app.
    fold (in_window now window stale).
    fold (in_window now window (drop_old now window q0)).
    rewrite in_window_stale by done.
    rewrite in_window_fresh; [done|]. by apply drop_old_fresh. }
  cbv zeta. rewrite Hwin. unfold allow. fold q0.
  destruct (limit <=? Z.of_nat (length (drop_old now window q0)))%Z eqn:Hfull.
  - rewrite bool_decide_eq_false_2 by lia. by rewrite app_nil_r.
  - by rewrite bool_decide_eq_true_2 by lia.
Qed.

Lemma allow_answer calls i now :
  StronglySorted Z.le (map snd (calls ++ [(i, now)])) →
  (allow (state limit window calls) i now limit window).1
  = bool_decide (Z.of_nat (length (in_window now window
                                     (admitted limit window i calls))) < limit)%Z.
Proof. intros Hsorted. by rewrite allow_spec. Qed.

Lemma sorted_prefix (pre : list (string * Z)) call post :
  Sorted Z.le (map snd (pre ++ call :: post)) →
  StronglySorted Z.le (map snd (pre ++ [call])).
Proof.
  intros Hs. apply Sorted_StronglySorted in Hs; [|intros ???; lia].
  rewrite (cons_middle call pre post), app_assoc, map_app in Hs.
  by apply StronglySorted_app in Hs as (_ & ? & _).
Qed.

(** No window holds more admissions of an identifier than the limit. *)
Lemma admitted_within calls :
  StronglySorted Z.le (map snd calls) → (0 ≤ limit)%Z →
  ∀ i a, (Z.of_nat (length (within a window (admitted limit window i calls)))
          ≤ limit)%Z.
Proof.
  intros Hsorted Hlimit i a.
  induction calls as [|[j now] calls IH] using rev_ind; [cbn; lia|].
  pose proof (allow_answer calls j now Hsorted) as Hanswer.
  rewrite map_app in Hsorted. cbn in Hsorted.
  apply sorted_snoc_bound in Hsorted as [Hsorted' Hnow].
  specialize (IH Hsorted').
  rewrite admitted_snoc. unfold within. rewrite filter_app, length_app.
  fold (within a window (admitted limit window i calls)).
  destruct ((allow (state limit window calls) j now limit window).1
            && bool_decide (j = i)) eqn:Hok; [|cbn; lia].
  apply andb_true_iff in Hok as [Hok Hji]. apply bool_decide_eq_true in Hji as ->.
  rewrite Hok in Hanswer. symmetry in Hanswer.
  apply bool_decide_eq_true in Hanswer.
  rewrite filter_cons, filter_nil. destruct (decide _) as [Hin|]; [|cbn; lia].
  cbn [length].
  enough (length (within a window (admitted limit window i calls))
          ≤ length (in_window now window (admitted limit window i calls))) by lia.
  apply filter_length_mono. apply Forall_forall. intros t _. lia.
Qed.

End limiter.

(** C5.  Calls made in the order of the clock on a fresh limiter, with a
    limit that is not negative.  A call is allowed exactly when the
    admissions of its identifier that are not older than the window are
    fewer than the limit, and the events then stored for the identifier
    are these admissions, followed by the call when it is allowed.  No
    interval of the length of the window holds more admissions of one
    identifier than the limit; a call that finds as many admissions as the
    limit in its window is rejected; and a call is allowed once the oldest
    of the last admissions, at most as many as the limit, is older than
    the window. *)
Theorem sliding_window (limit window : Z) (calls : list (string * Z)) :
  Sorted Z.le (map snd calls) → (0 ≤ limit)%Z →
  (∀ pre i now post, calls = pre ++ (i, now) :: post →
     let recent := in_window now window (admitted limit window i pre) in
     let ok := bool_decide (Z.of_nat (length recent) < limit)%Z in
     answers limit window calls !! length pre = Some ok
     ∧ state limit window (pre ++ [(i, now)]) !! i
       = Some (recent ++ (if ok then [now] else [])))
  ∧ (∀ i a, (Z.of_nat (length (within a window (admitted limit window i calls)))
             ≤ limit)%Z)
  ∧ (∀ pre i now post, calls = pre ++ (i, now) :: post →
       Z.of_nat (length (in_window now window (admitted limit window i pre))) = limit →
       answers limit window calls !! length pre = Some false)
  ∧ (∀ pre i now post old t0 rest, calls = pre ++ (i, now) :: post →
       admitted limit window i pre = old ++ t0 :: rest →
       (Z.of_nat (length (t0 :: rest)) ≤ limit)%Z →
       (window < now - t0)%Z →
       answers limit window calls !! length pre = Some true).
Proof.
  intros Hsorted Hlimit.
  assert (Hcall : ∀ pre i now post, calls = pre ++ (i, now) :: post →
    let recent := in_window now window (admitted limit window i pre) in
    let ok := bool_decide (Z.of_nat (length recent) < limit)%Z in
    answers limit window calls !! length pre = Some ok
    ∧ state limit window (pre ++ [(i, now)]) !! i
      = Some (recent ++ (if ok then [now] else []))).
  { intros pre i now post ->.
    pose proof (sorted_prefix pre (i, now) post Hsorted) as Hpre.
    rewrite answers_app_lookup, state_snoc. cbn [fst snd].
    rewrite (allow_spec limit window pre i now Hpre). cbn [fst snd].
    by rewrite lookup_insert_eq. }
  split; [exact Hcall|]. split; [|split].
  - apply admitted_within; [|done].
    apply Sorted_StronglySorted; [intros ???; lia|done].
  - intros pre i now post Hcalls Hfull.
    destruct (Hcall pre i now post Hcalls) as [-> _].
    f_equal. apply bool_decide_eq_false. lia.
  - intros pre i now post old t0 rest Hcalls Hadm Hlen Hold.
    destruct (Hcall pre i now post Hcalls) as [-> _].
    f_equal. apply bool_decide_eq_true.
    subst calls. pose proof (sorted_prefix pre (i, now) post Hsorted) as Hpre.
    rewrite map_app in Hpre. apply sorted_snoc_bound in Hpre as [Hpre _].
    destruct (limiter_inv limit window pre Hpre i) as (Hs & _).
    rewrite Hadm in Hs |- *.
    apply StronglySorted_app in Hs as (Hle & _ & _).
    unfold in_window. rewrite filter_app, filter_cons_False by lia.
    fold (in_window now window old). rewrite in_window_stale; cycle 1.
    { apply Forall_forall. intros t Ht.
      specialize (Hle t t0 Ht ltac:(by left)). lia. }
    cbn [app]. pose proof (length_filter (λ t, (now - t ≤ window)%Z) rest).
    cbn [length] in Hlen. lia.
Qed.

(** The repository's test: [LIMIT] calls of one client are allowed, the
    next one is not. *)
Lemma limit_calls_then_rejected :
  answers LIMIT WINDOW_SECONDS (repeat ("127.0.0.1", 1000%Z) (Z.to_nat LIMIT + 1))
  = repeat true (Z.to_nat LIMIT) ++ [false].
Proof. vm_compute. reflexivity. Qed.

(** Two calls allowed per ten ticks: the third call of ["a"] in the
    window is rejected, and ["a"] is allowed again at 11, when its
    admission at 0 has aged out. *)
Lemma sliding_window_witness :
  let calls := [("a", 0); ("a", 1); ("b", 2); ("a", 3); ("a", 11); ("a", 12)]%Z in
  answers 2 10 calls !! 3 = Some false
  ∧ answers 2 10 calls !! 4 = Some true.
Proof.
  intros calls.
  assert (Hsorted : Sorted Z.le (map snd calls))
    by (repeat constructor; discriminate).
  destruct (sliding_window 2 10 calls Hsorted ltac:(lia))
    as (_ & _ & Hreject & Hallow).
  split.
  - exact (Hreject [("a", 0); ("a", 1); ("b", 2)]%Z "a" 3%Z
             [("a", 11); ("a", 12)]%Z eq_refl eq_refl).
  - exact (Hallow [("a", 0); ("a", 1); ("b", 2); ("a", 3)]%Z "a" 11%Z
             [("a", 12)]%Z [] 0%Z [1%Z] eq_refl eq_refl ltac:(cbn; lia) ltac:(lia)).
Defined.

End ratelimit_facts.

(** ** The sweep of the temporary directory *)

Module cleanup_facts.
Import cleanup.

Lemma weight_child m (entries : gmap string node) name child :
  entries !! name = Some child → weight child < weight (Dir m entries).
Proof.
  intros Hchild. cbn.
  rewrite (map_fold_delete_L _ _ name child entries); [lia| |done].
  intros. lia.
Qed.

(** Induction on trees: a property of the entries of a directory gives
    the property of the directory. *)
Lemma node_induction (P : node → Prop) :
  (∀ m, P (File m)) →
  (∀ m entries, map_Forall (λ _ child, P child) entries → P (Dir m entries)) →
  ∀ n, P n.
Proof.
  intros Hfile Hdir n.
  remember (weight n) as k eqn:Hk. revert n Hk.
  induction k as [k IH] using lt_wf_ind. intros [m|m entries] ->; [done|].
  apply Hdir. intros name child Hchild.
  by apply (IH (weight child) (weight_child m entries name child Hchild)).
Qed.

(** On a file system that raises no error, [delete_path] leaves nothing. *)
Lemma delete_path_all n : delete_path n = None.
Proof.
  induction n as [m|m entries IH] using node_induction; [done|].
  cbn. assert (Hleft : omap delete_path entries = ∅).
  { apply map_eq. intros name. rewrite lookup_omap, lookup_empty.
    destruct (entries !! name) as [child|] eqn:Hchild; [|done].
    cbn. by apply (IH name child). }
  by rewrite Hleft.
Qed.

Lemma sweep_file now ttl m :
  sweep now ttl (File m) = if (ttl <? now - m)%Z then None else Some (File m).
Proof. done. Qed.

Lemma sweep_dir now ttl m entries :
  sweep now ttl (Dir m entries)
  = let entries' := omap (sweep now ttl) entries in
    let m' := touched now m entries entries' in
    if (ttl <? now - m')%Z then None else Some (Dir m' entries').
Proof.
  cbn [sweep]. cbv zeta. destruct (ttl <? now - _)%Z; [|done].
  apply delete_path_all.
Qed.

(** A file older than the TTL is gone after the sweep of the tree above
    it, at any depth. *)
Lemma sweep_removes now ttl path : ∀ entries m,
  lookup_path (Dir 0 entries) path = Some (File m) →
  (ttl < now - m)%Z →
  ∀ m', lookup_path (Dir m' (omap (sweep now ttl) entries)) path = None.
Proof.
  induction path as [|name path IH]; intros entries m Hpath Hold m'; [done|].
  cbn in Hpath |- *. rewrite lookup_omap.
  destruct (entries !! name) as [child|]; [|done]. cbn.
  destruct path as [|name' path].
  - cbn in Hpath. injection Hpath as ->. rewrite sweep_file.
    by rewrite (proj2 (Z.ltb_lt _ _) Hold).
  - destruct child as [m0|m0 entries0]; [done|].
    rewrite sweep_dir. cbv zeta. destruct (ttl <? now - _)%Z; [done|].
    by apply (IH entries0 m).
Qed.

Lemma touched_fresh now ttl m before after :
  (0 ≤ ttl)%Z → (now - m ≤ ttl)%Z → (now - touched now m before after ≤ ttl)%Z.
Proof. unfold touched. destruct (bool_decide _); lia. Qed.

(** A file within the TTL is still there, untouched, when the
    directories between it and the base are within the TTL too. *)
Lemma sweep_keeps now ttl path : ∀ entries m,
  (0 ≤ ttl)%Z →
  lookup_path (Dir 0 entries) path = Some (File m) →
  path ≠ [] →
  (now - m ≤ ttl)%Z →
  ancestors_fresh now ttl (Dir 0 entries) path →
  ∀ m', lookup_path (Dir m' (omap (sweep now ttl) entries)) path = Some (File m).
Proof.
  induction path as [|name path IH]; intros entries m Httl Hpath Hne Hnew Hanc m';
    [done|].
  cbn in Hpath |- *. rewrite lookup_omap.
  destruct (entries !! name) as [child|] eqn:Hchild; [|done]. cbn.
  destruct path as [|name' path].
  - cbn in Hpath. injection Hpath as ->. rewrite sweep_file.
    by rewrite (proj2 (Z.ltb_ge _ _) Hnew).
  - destruct child as [m0|m0 entries0]; [done|].
    cbn [ancestors_fresh] in Hanc. rewrite Hchild in Hanc.
    destruct Hanc as [Hfresh Hanc]. cbn [mtime_of] in Hfresh.
    rewrite sweep_dir. cbv zeta.
    pose proof (touched_fresh now ttl m0 entries0
                  (omap (sweep now ttl) entries0) Httl Hfresh) as Htouched.
    rewrite (proj2 (Z.ltb_ge _ _) Htouched).
    by apply (IH entries0 m).
Qed.

(** C8.  The job directory was created at time 0, the file in it was
    last written at time 1000; the sweep runs at time 1000 with a TTL of
    900.  The file has age 0 and is removed with its directory, whose age
    is 1000; next to it, a file of the same age directly under the base
    directory is kept. *)
Theorem sweep_removes_fresh_file_in_old_directory :
  let base := Dir 1000 {[ "job1" := Dir 0 {[ "video.mp4.part" := File 1000 ]};
                          "fresh.mp4" := File 1000 ]} in
  at_path (Some base) ["job1"; "video.mp4.part"] = Some (File 1000)
  ∧ at_path (cleanup_expired_files 1000 (Some base) 900) ["job1"; "video.mp4.part"]
    = None
  ∧ at_path (cleanup_expired_files 1000 (Some base) 900) ["fresh.mp4"]
    = Some (File 1000).
Proof. repeat split; vm_compute; reflexivity. Qed.

(** What the sweep does do: under an existing base directory, a file
    older than the TTL is removed at any depth, and a file within the TTL
    is left as it is when every directory between it and the base is
    within the TTL. *)
Lemma cleanup_expired_files_spec now ttl m0 entries path m :
  at_path (Some (Dir m0 entries)) path = Some (File m) →
  ((ttl < now - m)%Z →
   at_path (cleanup_expired_files now (Some (Dir m0 entries)) ttl) path = None)
  ∧ ((0 ≤ ttl)%Z → (now - m ≤ ttl)%Z →
     ancestors_fresh now ttl (Dir m0 entries) path →
     at_path (cleanup_expired_files now (Some (Dir m0 entries)) ttl) path
     = Some (File m)).
Proof.
  intros Hpath. cbn [at_path cleanup_expired_files] in *.
  assert (Hpath0 : lookup_path (Dir 0 entries) path = Some (File m))
    by by destruct path.
  assert (Hne : path ≠ []) by by destruct path.
  split.
  - intros Hold. by apply (sweep_removes now ttl path entries m).
  - intros Httl Hnew Hanc. apply (sweep_keeps now ttl path entries m); try done.
    by destruct path as [|? [|? ?]].
Qed.

End cleanup_facts.

(** ** [safe_filename] *)

Module paths_facts.
Import paths.

(** Induction that follows [contains2] and [replace2]: from a string to
    its tail, and to the tail of its tail. *)
Lemma two_step_induction (P : list Z → Prop) :
  P [] → (∀ c, P [c]) →
  (∀ c d s, P s → P (d :: s) → P (c :: d :: s)) →
  ∀ s, P s.
Proof.
  intros Hnil Hone Hstep s.
  enough (P s ∧ ∀ c, P (c :: s)) as [? _] by done.
  induction s as [|d s [IH1 IH2]]; [by split|].
  split; [apply IH2|]. intros c. by apply Hstep.
Qed.

Section properties.
Variable unicode_word : Z → bool.

Lemma kept_underscore : kept unicode_word 95 = true.
Proof. done. Qed.

Lemma re_sub_kept name : Forall (λ c, kept unicode_word c = true) (re_sub unicode_word name).
Proof.
  unfold re_sub. apply Forall_fmap, Forall_forall. intros c _. cbn.
  destruct (kept unicode_word c) eqn:Hc; [done|apply kept_underscore].
Qed.

Lemma replace2_Forall (P : Z → Prop) a b new s :
  Forall P new → Forall P s → Forall P (replace2 a b new s).
Proof.
  intros Hnew. induction s as [| |c d s IH1 IH2] using two_step_induction;
    [done..|].
  intros Hs. apply Forall_cons in Hs as [Hc Hs].
  pose proof Hs as Hds. apply Forall_cons in Hs as [Hd Hs].
  cbn [replace2]. destruct ((c =? a)%Z && (d =? b)%Z).
  - apply Forall_app. split; [done|by apply IH1].
  - constructor; [done|by apply IH2].
Qed.

Lemma collapse_dots_Forall (P : Z → Prop) s :
  P 95%Z → Forall P s → Forall P (collapse_dots s).
Proof.
  intros Hu. funelim (collapse_dots s); intros Hs; [|done].
  apply H; [done|]. apply replace2_Forall; [by constructor|done].
Qed.

(** The loop ends, and when it has ended no [".."] is left. *)
Lemma collapse_dots_done s : contains2 46 46 (collapse_dots s) = false.
Proof.
  funelim (collapse_dots s); done.
Qed.

Lemma replace2_cons_shape (a d : Z) (s : list Z) :
  ∃ t, replace2 a a [a] (d :: s) = d :: t.
Proof.
  destruct s as [|y s]; [by eexists|]. cbn [replace2].
  destruct ((d =? a)%Z && (y =? a)%Z) eqn:Hdy; [|by eexists].
  apply andb_true_iff in Hdy as [Hd _]. apply Z.eqb_eq in Hd. subst.
  by eexists.
Qed.

Lemma replace2_cons2 a b new c d s :
  replace2 a b new (c :: d :: s)
  = if (c =? a)%Z && (d =? b)%Z then new ++ replace2 a b new s
    else c :: replace2 a b new (d :: s).
Proof. done. Qed.

Lemma contains2_cons2 a b c d s :
  contains2 a b (c :: d :: s) = ((c =? a)%Z && (d =? b)%Z) || contains2 a b (d :: s).
Proof. done. Qed.

Lemma contains2_tail a b c s :
  contains2 a b (c :: s) = false → contains2 a b s = false.
Proof.
  destruct s as [|d s]; [done|]. rewrite contains2_cons2.
  intros H. by apply orb_false_iff in H as [_ ?].
Qed.

Lemma contains2_cons_other a b c s :
  c ≠ a → contains2 a b (c :: s) = contains2 a b s.
Proof.
  intros Hc. destruct s as [|d s]; [done|]. rewrite contains2_cons2.
  by rewrite (proj2 (Z.eqb_neq c a) Hc).
Qed.

(** Merging underscores brings no two dots together. *)
Lemma replace2_no_dots s :
  contains2 46 46 s = false → contains2 46 46 (replace2 95 95 [95%Z] s) = false.
Proof.
  induction s as [| |c d s IH1 IH2] using two_step_induction; [done..|].
  intros Hs. pose proof (contains2_tail _ _ _ _ Hs) as Hds.
  rewrite contains2_cons2 in Hs. apply orb_false_iff in Hs as [Hcd _].
  rewrite replace2_cons2. destruct ((c =? 95)%Z && (d =? 95)%Z) eqn:Hrep.
  - cbn [app]. rewrite contains2_cons_other by done.
    apply IH1. by apply contains2_tail in Hds.
  - destruct (replace2_cons_shape 95 d s) as [t Ht].
    specialize (IH2 Hds). rewrite Ht in IH2 |- *.
    by rewrite contains2_cons2, Hcd, IH2.
Qed.

Lemma lstrip_suffix s : ∃ pre, s = pre ++ lstrip s.
Proof.
  induction s as [|c s [pre Hpre]]; [by exists []|]. cbn.
  destruct (stripped c); [|by exists []].
  exists (c :: pre). by rewrite Hpre at 1.
Qed.

(** What [strip] returns is a stretch of its argument. *)
Lemma strip_infix s : ∃ pre suf, s = pre ++ strip s ++ suf.
Proof.
  unfold strip. destruct (lstrip_suffix s) as [pre Hpre].
  destruct (lstrip_suffix (rev (lstrip s))) as [suf Hsuf].
  exists pre, (rev suf). rewrite Hpre at 1. f_equal.
  rewrite <- (rev_involutive (lstrip s)), Hsuf at 1.
  by rewrite rev_app_distr.
Qed.

Lemma contains2_app a b s1 s2 :
  contains2 a b (s1 ++ s2) = false →
  contains2 a b s1 = false ∧ contains2 a b s2 = false.
Proof.
  induction s1 as [|c s1 IH]; [done|]. cbn [app]. intros Hc.
  destruct (IH (contains2_tail _ _ _ _ Hc)) as [H1 H2]. split; [|done].
  destruct s1 as [|d s1]; [done|]. cbn [app] in Hc.
  rewrite contains2_cons2 in Hc |- *.
  apply orb_false_iff in Hc as [-> _]. by rewrite H1.
Qed.

Lemma strip_Forall (P : Z → Prop) s : Forall P s → Forall P (strip s).
Proof.
  destruct (strip_infix s) as (pre & suf & Hs). rewrite Hs at 1.
  intros H. by apply Forall_app in H as [_ [? _]%Forall_app].
Qed.

Lemma strip_no_dots s : contains2 46 46 s = false → contains2 46 46 (strip s) = false.
Proof.
  destruct (strip_infix s) as (pre & suf & Hs). rewrite Hs at 1.
  intros H. apply contains2_app in H as [_ H]. by apply contains2_app in H as [H _].
Qed.

Lemma kept_not_separator c :
  kept unicode_word c = true → c ≠ 47%Z ∧ c ≠ 92%Z.
Proof. intros Hc. split; intros ->; discriminate. Qed.

(** The string the steps after [re_sub] make of a name. *)
Lemma sanitized_safe name :
  let sanitized :=
    strip (replace2 95 95 [95%Z] (collapse_dots (re_sub unicode_word name))) in
  Forall (λ c, kept unicode_word c = true) sanitized
  ∧ contains2 46 46 sanitized = false.
Proof.
  split.
  - apply strip_Forall, replace2_Forall; [by constructor|].
    apply collapse_dots_Forall; [done|apply re_sub_kept].
  - apply strip_no_dots, replace2_no_dots, collapse_dots_done.
Qed.

End properties.

(** The cases of the repository's test, with [\w] taken on ASCII only;
    the Cyrillic name is kept through the range U+0400..U+04FF. *)
Lemma safe_filename_examples :
  let ascii_only := λ _ : Z, false in
  safe_filename ascii_only (Some (of_string "bad/../name")) default_fallback
  = of_string "bad__name"
  ∧ safe_filename ascii_only
      (Some [1042; 1080; 1076; 1077; 1086; 32; 1090; 1077; 1089; 1090;
             46; 109; 112; 52]%Z) default_fallback
    = [1042; 1080; 1076; 1077; 1086; 32; 1090; 1077; 1089; 1090;
       46; 109; 112; 52]%Z
  ∧ safe_filename ascii_only (Some []) (of_string "default") = of_string "default"
  ∧ safe_filename ascii_only None default_fallback = of_string "file"
  ∧ safe_filename ascii_only (Some (of_string "..")) default_fallback
    = of_string "file".
Proof. repeat split; vm_compute; reflexivity. Qed.

End paths_facts.

(** ** What a caller can do with the dict [get] returns *)

Module aliasing_facts.
Import aliasing.

Lemma alloc_old h d l0 :
  l0 < next h → objs (alloc h d).2 !! l0 = objs h !! l0.
Proof. intros Hl. cbn. rewrite lookup_insert_ne; [done|lia]. Qed.

Lemma get_copy self h job_id l h' :
  get self h job_id = (Some l, h') →
  l = next h ∧ next h' = S (next h)
  ∧ ∀ l0, l0 < next h → objs h' !! l0 = objs h !! l0.
Proof.
  unfold get. destruct (jobs self !! job_id) as [l1|]; [|done].
  destruct (bool_decide _); [done|]. cbn. intros [= <- <-]. cbn.
  split; [done|]. split; [done|]. intros l0 Hl0.
  rewrite lookup_insert_ne; [done|lia].
Qed.

(** The dict [job_status] returns is a new object: reading changes no
    object that existed, and neither does storing an item in the dict
    returned. *)
Lemma job_status_top_level_copy self h job_id l h' :
  job_status self h job_id = (Some l, h') →
  next h < l
  ∧ (∀ l0, l0 < next h → objs h' !! l0 = objs h !! l0)
  ∧ (∀ k v l0, l0 < next h → objs (setitem h' l k v) !! l0 = objs h !! l0).
Proof.
  unfold job_status. destruct (get self h job_id) as [[l1|] h1] eqn:Hget; [|done].
  apply get_copy in Hget as (-> & Hnext & Hold). cbn. intros [= <- <-].
  split; [lia|]. cbn. split.
  - intros l0 Hl0. rewrite lookup_insert_ne by lia. by apply Hold.
  - intros k v l0 Hl0. rewrite lookup_alter_ne by lia.
    rewrite lookup_insert_ne by lia. by apply Hold.
Qed.

(** The same on the RQ backend: what [get] returns is parsed anew from
    the text in Redis, and a change made in it is not seen by the next
    [get]. *)
Lemma rq_nested_mutation_stays_out :
  let redis : gmap string value :=
    {[ RQBackend._key "job1" :=
         VDict [("job_id", VStr "job1"); ("status", VStr "queued");
                ("payload", VDict [("url", VStr "https://youtu.be/x")])] ]} in
  let '(returned, h1) := rq_get redis empty_heap "job1" in
  let h2 := match returned with
            | Some (PRef l) => setitem2 h1 l "payload" "url" (PStr "changed")
            | _ => h1
            end in
  match returned, rq_get redis h2 "job1" with
  | Some (PRef l), (Some (PRef l'), h3) =>
      getitem2 h2 l "payload" "url" = PStr "changed"
      ∧ getitem2 h3 l' "payload" "url" = PStr "https://youtu.be/x"
  | _, _ => False
  end.
Proof. vm_compute. by split. Qed.

(** C6.  A job is created on the in-memory backend with the payload
    dict [{"url": ...}]; [job_status] returns its record, and the caller
    stores another URL in the payload of the dict returned.  The record in
    the store now has that URL, and the next [job_status] returns it. *)
Theorem nested_mutation_reaches_store :
  let '(p, h0) := alloc empty_heap {[ "url" := PStr "https://youtu.be/x" ]} in
  let '(self, h1) := enqueue (Memory ∅ []) h0 "job1" 100 (PRef p) in
  let '(returned, h2) := job_status self h1 "job1" in
  let h3 := match returned with
            | Some l => setitem2 h2 l "payload" "url" (PStr "changed")
            | None => h2
            end in
  is_Some returned
  ∧ stored_item2 self h2 "job1" "payload" "url" = PStr "https://youtu.be/x"
  ∧ stored_item2 self h3 "job1" "payload" "url" = PStr "changed"
  ∧ stored 2 self h2 "job1" ≠ stored 2 self h3 "job1"
  ∧ match job_status self h3 "job1" with
    | (Some l, h4) => getitem2 h4 l "payload" "url" = PStr "changed"
    | _ => False
    end.
Proof.
  vm_compute. split; [by eexists|]. split; [reflexivity|]. split; [reflexivity|].
  split; [discriminate|reflexivity].
Qed.

End aliasing_facts.

(** * Further properties of the code *)

(** ** The record store, continued *)

Section store_facts.
Context {B : Type} `{JobBackendLaws B}.

(** A call about one job leaves the record of every other job as it is. *)
Lemma run_op_frame (b : B) job_id o :
  op_id o ≠ job_id →
  ∃ b', run_op (Some b) o = Some b' ∧ get b' job_id = get b job_id.
Proof.
  intros Ho. destruct o as [id payload now|id fields now|id]; cbn in *.
  - destruct (enqueue b id now payload) as [b' id'] eqn:He. cbn.
    exists b'. split; [done|].
    replace b' with (enqueue b id now payload).1 by by rewrite He.
    by rewrite get_enqueue_ne.
  - eexists. split; [done|]. by rewrite get_set_ne.
  - exists b. split; [|done]. unfold job_status. by destruct (get b id).
Qed.

Lemma run_ops_frame (b : B) job_id ops :
  Forall (λ o, op_id o ≠ job_id) ops →
  ∃ b', foldl run_op (Some b) ops = Some b' ∧ get b' job_id = get b job_id.
Proof.
  intros Hops. revert b.
  induction Hops as [|o ops Ho Hops IH]; intros b; cbn.
  - by exists b.
  - destruct (run_op_frame b job_id o Ho) as (b1 & -> & Hb1).
    destruct (IH b1) as (b' & Hrun & Hb'). exists b'. split; [done|congruence].
Qed.

Lemma create_job_configured (b : B) payload job_id now :
  create_job (Some b) payload job_id now
  = (Ok job_id, Some (enqueue b job_id now payload).1).
Proof.
  unfold create_job. pose proof (enqueue_id b job_id now payload) as Hid.
  destruct (enqueue b job_id now payload) as [b' id]. cbn in *. by subst.
Qed.

End store_facts.

(** X1.  On either backend, and on any backend that keeps the laws:
    [create_job] answers with the id it was given by [uuid4]; after any
    number of creations, updates and reads of other jobs, [job_status]
    still returns the record exactly as [enqueue] wrote it: queued, at
    progress 0, without result or error, with the payload and with both
    time stamps at the time of creation. *)
Theorem created_job_unaffected_by_other_jobs
    {B : Type} `{JobBackendLaws B} (b0 : B) (job_id : string) (payload : value)
    (now : Z) (ops : list op) :
  Forall (λ o, op_id o ≠ job_id) ops →
  ∃ b1 b,
    create_job (Some b0) payload job_id now = (Ok job_id, Some b1)
    ∧ foldl run_op (Some b1) ops = Some b
    ∧ job_status (Some b) job_id
      = (Ok (Some (initial_record job_id now payload)), Some b)
    ∧ status_of (initial_record job_id now payload) = VStr "queued"
    ∧ progress_of (initial_record job_id now payload) = VNum 0
    ∧ result_of (initial_record job_id now payload) = VNone
    ∧ rec_get (initial_record job_id now payload) "payload" = payload
    ∧ rec_get (initial_record job_id now payload) "created_at" = VNum now
    ∧ rec_get (initial_record job_id now payload) "updated_at" = VNum now.
Proof.
  intros Hops.
  destruct (run_ops_frame (enqueue b0 job_id now payload).1 job_id ops Hops)
    as (b & Hrun & Hget).
  exists (enqueue b0 job_id now payload).1, b.
  split; [apply create_job_configured|]. split; [done|].
  split; [|done].
  by rewrite job_status_configured, Hget, get_enqueue_eq.
Qed.

Lemma created_job_unaffected_by_other_jobs_witness :
  ∃ b, foldl run_op
         (create_job (Some MemoryBackend.init)
            (VDict [("url", VStr "https://youtu.be/x")]) "a" 1).2
         [OpCreate "b" VNone 2; OpUpdate "b" {[ "progress" := VNum 50 ]} 3]
       = Some b
       ∧ (job_status (Some b) "a").1
         = Ok (Some (initial_record "a" 1 (VDict [("url", VStr "https://youtu.be/x")]))).
Proof.
  destruct (created_job_unaffected_by_other_jobs MemoryBackend.init "a"
              (VDict [("url", VStr "https://youtu.be/x")]) 1
              [OpCreate "b" VNone 2; OpUpdate "b" {[ "progress" := VNum 50 ]} 3])
    as (b1 & b & Hc & Hrun & Hst & _).
  - repeat constructor; discriminate.
  - exists b. rewrite Hc. cbn [snd]. split; [exact Hrun|]. by rewrite Hst.
Defined.

(** X2.  [job_update] on an id the backend does not know creates the
    record.  The fields are the keyword arguments of the call, so none of
    them is called [job_id].  The record holds the fields given, the id
    under [job_id] and the time under [updated_at], and nothing else;
    [job_status] returns it from then on.  A record made this way has a
    [status] only if the fields had one. *)
Theorem job_update_creates_missing_record
    {B : Type} `{JobBackendLaws B} (b : B) (job_id : string) (fields : record)
    (now : Z) :
  get b job_id = None → fields !! "job_id" = None →
  let r := <["updated_at" := VNum now]> (fields ∪ {[ "job_id" := VStr job_id ]}) in
  ∃ b',
    job_update (Some b) job_id fields now = (Ok r, Some b')
    ∧ job_status (Some b') job_id = (Ok (Some r), Some b')
    ∧ (∀ k, k ≠ "updated_at" → k ≠ "job_id" → r !! k = fields !! k)
    ∧ r !! "job_id" = Some (VStr job_id)
    ∧ r !! "updated_at" = Some (VNum now).
Proof.
  intros Hb Hid r.
  assert (Hcur : merged (get_or_empty b job_id) job_id fields now = r).
  { unfold get_or_empty. rewrite Hb. unfold merged, setdefault.
    by rewrite lookup_empty, insert_empty. }
  exists (set b job_id r).
  split; [by rewrite job_update_configured, Hcur|].
  split.
  { rewrite job_status_configured, get_set_eq; [done|]. apply truthy_rec_insert. }
  subst r. split; [|split].
  - intros k Hk Hk'. rewrite lookup_insert_ne by done.
    rewrite lookup_union, lookup_singleton_ne by done.
    by destruct (fields !! k).
  - rewrite lookup_insert_ne by done.
    by rewrite lookup_union, lookup_singleton_eq, Hid.
  - by rewrite lookup_insert_eq.
Qed.

Lemma job_update_creates_missing_record_witness :
  (job_status (job_update (Some MemoryBackend.init) "ghost"
                 {[ "progress" := VNum 50 ]} 7).2 "ghost").1
  = Ok (Some {[ "job_id" := VStr "ghost"; "progress" := VNum 50;
                "updated_at" := VNum 7 ]}).
Proof.
  destruct (job_update_creates_missing_record MemoryBackend.init "ghost"
              {[ "progress" := VNum 50 ]} 7) as (b' & Hup & Hst & _);
    [reflexivity..|].
  rewrite Hup. cbn [snd]. rewrite Hst. reflexivity.
Defined.

(** ** The queues of the two backends *)

Lemma memory_run_ops (b0 : MemoryBackend.t) (ops : list op) :
  (∀ id, id ∈ MemoryBackend.queue b0 →
         ∃ r, MemoryBackend.jobs b0 !! id = Some r ∧ truthy_rec r = true) →
  ∃ b, foldl run_op (Some b0) ops = Some b
       ∧ MemoryBackend.queue b = MemoryBackend.queue b0 ++ created_ids ops
       ∧ ∀ id, id ∈ MemoryBackend.queue b →
               ∃ r, MemoryBackend.jobs b !! id = Some r ∧ truthy_rec r = true.
Proof.
  revert b0. induction ops as [|o ops IH]; intros b0 Hb0.
  - exists b0. by rewrite app_nil_r.
  - destruct o as [id payload now|id fields now|id]; cbn [foldl run_op].
    + destruct (IH (MemoryBackend.enqueue b0 id now payload).1) as (b & Hrun & Hq & Hrec).
      { cbn. intros id' [Hin| ->%list_elem_of_singleton]%elem_of_app.
        - destruct (decide (id' = id)) as [->|Hne].
          + rewrite lookup_insert_eq. eexists. split; [done|apply truthy_initial_record].
          + rewrite lookup_insert_ne by done. by apply Hb0.
        - rewrite lookup_insert_eq. eexists. split; [done|apply truthy_initial_record]. }
      exists b. split; [exact Hrun|]. split; [|done].
      rewrite Hq. cbn. by rewrite <- app_assoc.
    + destruct (IH (MemoryBackend.set b0 id
                      (merged (get_or_empty b0 id) id fields now))) as (b & Hrun & Hq & Hrec).
      { cbn. intros id' Hin. destruct (decide (id' = id)) as [->|Hne].
        - rewrite lookup_insert_eq. eexists. split; [done|apply truthy_merged].
        - rewrite lookup_insert_ne by done. by apply Hb0. }
      exists b. split; [exact Hrun|]. by split.
    + destruct (IH b0 Hb0) as (b & Hrun & Hq & Hrec).
      exists b. split; [|by split].
      rewrite <- Hrun. f_equal. unfold job_status. cbn.
      by destruct (MemoryBackend.get b0 id).
Qed.

(** X3.  The in-memory backend after any history of creations, updates
    and reads: its queue holds the ids of the jobs created, in the order
    of their creation, and every id on the queue has a record that is not
    empty, so that the worker finds the job it takes from the queue. *)
Theorem memory_queue_in_creation_order (ops : list op) :
  ∃ b, foldl run_op (Some MemoryBackend.init) ops = Some b
       ∧ MemoryBackend.queue b = created_ids ops
       ∧ ∀ id, id ∈ MemoryBackend.queue b →
               ∃ r, job_status (Some b) id = (Ok (Some r), Some b)
                    ∧ truthy_rec r = true.
Proof.
  destruct (memory_run_ops MemoryBackend.init ops) as (b & Hrun & Hq & Hrec).
  { intros id Hin. by apply elem_of_nil in Hin. }
  exists b. split; [done|]. split; [done|].
  intros id Hin. destruct (Hrec id Hin) as (r & Hr & Htr). exists r.
  split; [|done]. unfold job_status. cbn. unfold MemoryBackend.get.
  by rewrite Hr, Htr.
Qed.

Lemma rq_run_ops (b0 : RQBackend.t) (ops : list op) :
  let s := RQBackend.config b0 in
  (∀ k r ex, RQBackend.redis b0 !! k = Some (r, ex) →
             ex = RQBackend.rq_result_ttl_sec s ∧ ∃ id, k = RQBackend._key id) →
  ∃ b, foldl run_op (Some b0) ops = Some b
       ∧ RQBackend.config b = s
       ∧ RQBackend.queue b = RQBackend.queue b0 ++ map (run_job_call s) (created_ids ops)
       ∧ ∀ k r ex, RQBackend.redis b !! k = Some (r, ex) →
                   ex = RQBackend.rq_result_ttl_sec s ∧ ∃ id, k = RQBackend._key id.
Proof.
  cbv zeta. revert b0. induction ops as [|o ops IH]; intros b0 Hb0.
  - exists b0. by rewrite app_nil_r.
  - destruct o as [id payload now|id fields now|id]; cbn [foldl run_op].
    + destruct (IH (RQBackend.enqueue b0 id now payload).1) as (b & Hrun & Hc & Hq & Hrec).
      { cbn. intros k r ex. destruct (decide (k = RQBackend._key id)) as [->|Hne].
        - rewrite lookup_insert_eq. intros [= <- <-]. split; [done|by exists id].
        - rewrite lookup_insert_ne by done. apply Hb0. }
      exists b. split; [exact Hrun|]. split; [done|]. split; [|done].
      rewrite Hq. cbn. by rewrite <- app_assoc.
    + destruct (IH (RQBackend.set b0 id
                      (merged (get_or_empty b0 id) id fields now))) as (b & Hrun & Hc & Hq & Hrec).
      { cbn. intros k r ex. destruct (decide (k = RQBackend._key id)) as [->|Hne].
        - rewrite lookup_insert_eq. intros [= <- <-]. split; [done|by exists id].
        - rewrite lookup_insert_ne by done. apply Hb0. }
      exists b. split; [exact Hrun|]. by split.
    + destruct (IH b0 Hb0) as (b & Hrun & Hc & Hq & Hrec).
      exists b. split; [|by split].
      rewrite <- Hrun. f_equal. unfold job_status. cbn.
      by destruct (RQBackend.get b0 id).
Qed.

(** X4.  The RQ backend after any history of creations, updates and
    reads: every key in Redis is the key of a job and was last written
    with the configured result TTL as its expiry; the RQ queue holds one
    call of [run_job] per job created, in order, with the job's id as its
    argument and as the id of the RQ job, and with the configured
    timeouts. *)
Theorem rq_keys_expire_and_queue_matches
    (s : RQBackend.settings) (ops : list op) :
  ∃ b, foldl run_op (Some (RQBackend.init s)) ops = Some b
       ∧ RQBackend.config b = s
       ∧ RQBackend.queue b = map (run_job_call s) (created_ids ops)
       ∧ ∀ k r ex, RQBackend.redis b !! k = Some (r, ex) →
                   ex = RQBackend.rq_result_ttl_sec s ∧ ∃ id, k = RQBackend._key id.
Proof.
  destruct (rq_run_ops (RQBackend.init s) ops) as (b & Hrun & Hc & Hq & Hrec).
  { intros k r ex Hk. cbn in Hk. by rewrite lookup_empty in Hk. }
  by exists b.
Qed.

(** ** How a worker leaves a job *)

(** The last write of a run that ends without an exception reports the
    file or the failure. *)
Lemma outcome_writes_last o :
  outcome_result o = Ok tt →
  ∃ l f, outcome_writes o = l ++ [f]
         ∧ ((∃ meta path, f = w_done meta path)
            ∨ (∃ message error, f = w_error message error)).
Proof.
  destruct o as [|want|exc|exc|meta exc|meta ps exc|meta ps path
                |meta ps want exc|meta ps want path];
    cbn [outcome_result outcome_writes]; intros Hok; try discriminate.
  - exists [], (w_error "URL отсутствует." "missing_url"). split; [done|].
    right. by eexists _, _.
  - eexists [], _. split; [done|]. right. by eexists _, _.
  - exists [w_fetching], (w_failed exc). split; [done|]. right. by eexists _, _.
  - exists [w_fetching; w_meta meta], (w_failed exc). split; [done|].
    right. by eexists _, _.
  - eexists _, _. split; [done|]. right. by eexists _, _.
  - eexists _, _. split; [done|]. left. by eexists _, _.
  - exists (downloading_writes meta ps ++ [w_converting want]), (w_failed exc).
    split; [by rewrite <- app_assoc|]. right. by eexists _, _.
  - exists (downloading_writes meta ps ++ [w_converting want]), (w_done meta path).
    split; [by rewrite <- app_assoc|]. left. by eexists _, _.
Qed.

(** The pipeline returns when nothing before its [try] raises. *)
Lemma quality_to_height_Raise quality exc :
  quality_to_height quality = Raise exc → ∃ q, quality = VDict q.
Proof. destruct quality; try discriminate. by eexists. Qed.

Lemma process_job_async_ok {S : Type} e job_id payload
    (u : record → S → S) (s : S) :
  (∃ kvs, payload = VDict kvs) →
  truthy (dict_get payload "url") = false
  ∨ (∃ w, wanted payload = VStr w
          ∧ (lower w ∉ ALLOWED_FORMATS ∨ ∀ q, quality_of payload ≠ VDict q)) →
  (process_job_async e job_id payload u s).1 = Ok tt.
Proof.
  intros [kvs Hdict] Hcase.
  destruct (process_way e job_id payload) as (o & Hway & Hrun).
  rewrite Hrun. destruct o; try done. cbn in Hway.
  destruct Hway as [Hnot|[Hurl Hway]]; [by destruct (Hnot kvs)|].
  destruct Hcase as [Hno|(w & Hw & Hcase)]; [congruence|].
  destruct Hway as [Hnot|(w' & Hw' & Hallowed & Hq)]; [by destruct (Hnot w)|].
  assert (w' = w) as -> by congruence.
  destruct Hcase as [Hnot|Hhash]; [done|].
  apply quality_to_height_Raise in Hq as [q Hq]. by destruct (Hhash q).
Qed.

(** What raises before the [try] leaves the store as it was. *)
Lemma process_job_async_crash {S : Type} e job_id payload
    (u : record → S → S) (s : S) :
  (∀ kvs, payload ≠ VDict kvs)
  ∨ truthy (dict_get payload "url") = true
    ∧ ((∀ w, wanted payload ≠ VStr w)
       ∨ ∃ w q, wanted payload = VStr w ∧ lower w ∈ ALLOWED_FORMATS
                ∧ quality_of payload = VDict q) →
  ∃ exc, process_job_async e job_id payload u s = (Raise exc, s).
Proof.
  intros [Hnot|[Hurl Hcase]].
  - destruct payload as [| | |kvs]; try by eexists. by destruct (Hnot kvs).
  - destruct payload as [| | |kvs]; try done.
    unfold wanted, quality_of in Hcase. unfold process_job_async. cbv zeta.
    rewrite Hurl. cbn [negb].
    destruct Hcase as [Hw|(w & q & Hw & Hallowed & Hq)].
    + destruct (py_or (py_or _ _) _) as [| |w|]; try by eexists.
      by destruct (Hw w).
    + rewrite Hw, Hq. rewrite bool_decide_eq_true_2 by done. cbn. by eexists.
Qed.

(** The writes of a worker that records a crash end with the report of
    the file or of the failure. *)
Lemma worker_writes_last e jid (catches : bool) job :
  catches = true
  ∨ (∃ kvs, payload_of job = VDict kvs)
    ∧ (truthy (dict_get (payload_of job) "url") = false
       ∨ (∃ w, wanted (payload_of job) = VStr w
               ∧ (lower w ∉ ALLOWED_FORMATS
                  ∨ ∀ q, quality_of (payload_of job) ≠ VDict q))) →
  ∃ l f, worker_writes e jid catches job = l ++ [f]
         ∧ ((∃ meta path, f = w_done meta path)
            ∨ (∃ message error, f = w_error message error)).
Proof.
  intros Hcase. unfold worker_writes.
  destruct (pipeline_writes_outcome e jid (payload_of job)) as (o & _ & Hrun).
  rewrite Hrun.
  destruct (outcome_result o) as [[]|exc] eqn:Hres.
  - by apply outcome_writes_last.
  - destruct Hcase as [->|[Hdict Hcase]].
    + eexists _, _. split; [done|]. right. by exists (str_exn exc), (str_exn exc).
    + pose proof (process_job_async_ok e jid (payload_of job) record_call []
                    Hdict Hcase) as Hok.
      unfold pipeline_writes in Hrun. rewrite Hrun in Hok. cbn in Hok. congruence.
Qed.

Lemma rec_get_w_done meta path k :
  k ∈ ["status"; "progress"; "result"; "file_path"; "filename"; "mimetype"] →
  ∃ v, w_done meta path !! k = Some v.
Proof.
  intros Hk. repeat (apply elem_of_cons in Hk as [->|Hk]; [by eexists|]).
  by apply elem_of_nil in Hk.
Qed.

(** A record into which the last write of the pipeline was merged. *)
Lemma last_write_merged (r r0 : record) f :
  (∀ k, k ≠ "updated_at" → k ≠ "job_id" →
        rec_get r k = default (rec_get r0 k) (f !! k)) →
  ((∃ meta path, f = w_done meta path) ∨ (∃ message error, f = w_error message error)) →
  (∃ meta path, finished r meta path) ∨ (∃ message error, failed r message error).
Proof.
  intros Hr [(meta & path & ->)|(message & error & ->)].
  - left. exists meta, path. unfold finished, status_of, progress_of, result_of.
    by rewrite !Hr.
  - right. exists message, error. unfold failed, status_of. by rewrite !Hr.
Qed.

Section memory_worker_facts.
Context {B : Type} `{JobBackendLaws B}.

Lemma updater_configured jid fields (w : world B) b :
  backend w = Some b →
  updater jid fields w
  = World (Some (set b jid (merged (get_or_empty b jid) jid fields (clock w))))
          (clock w).
Proof. intros Hb. unfold updater. by rewrite Hb, job_update_configured. Qed.

Lemma replay_updater_configured jid l : ∀ (w : world B) b,
  backend w = Some b →
  ∃ b', replay (updater jid) w l = World (Some b') (clock w).
Proof.
  induction l as [|f l IH]; intros w b Hb; cbn.
  - exists b. by destruct w; cbn in *; subst.
  - rewrite (updater_configured jid f w b Hb).
    destruct (IH (World (Some (set b jid (merged (get_or_empty b jid) jid f (clock w))))
                        (clock w)) _ eq_refl) as (b' & Hb').
    by exists b'.
Qed.

(** One turn of [start_worker] on a job it finds: no exception leaves the
    turn, and the store is the one its writes lead to. *)
Lemma start_worker_turn_run (e : env) (jid : string) (w : world B) b r :
  backend w = Some b → get b jid = Some r → truthy_rec r = true →
  start_worker_turn e jid w
  = (Ok tt, replay (updater jid) w (worker_writes e jid true r)).
Proof.
  intros Hb Hr Htr. unfold start_worker_turn, worker_writes, pipeline_writes.
  rewrite Hb, job_status_configured, Hr, Htr. cbn [negb].
  destruct (process_outcome e jid (payload_of r)) as (o & _ & Hrun).
  unfold try_except. rewrite !Hrun, replay_record_call. cbn [app].
  by destruct o.
Qed.

End memory_worker_facts.

(** X5.  One turn of the in-process worker on a job it finds in the
    store, whatever the job's payload and whatever yt-dlp, the file system
    and ffmpeg do: no exception leaves the turn, the backend stays
    configured, and the job's record ends either done, at progress 100,
    with the file's path, name and media type in [result] and beside it,
    or in error with a message and an error text.  The record carries the
    time of the write. *)
Theorem start_worker_turn_ends_done_or_error
    {B : Type} `{JobBackendLaws B} (e : env) (jid : string) (w : world B) b r :
  backend w = Some b → get b jid = Some r → truthy_rec r = true →
  ∃ b' r',
    start_worker_turn e jid w = (Ok tt, World (Some b') (clock w))
    ∧ job_status (Some b') jid = (Ok (Some r'), Some b')
    ∧ rec_get r' "updated_at" = VNum (clock w)
    ∧ ((∃ meta path, finished r' meta path)
       ∨ (∃ message error, failed r' message error)).
Proof.
  intros Hb Hr Htr. rewrite (start_worker_turn_run e jid w b r Hb Hr Htr).
  destruct (worker_writes_last e jid true r) as (l & f & -> & Hf); [by left|].
  rewrite replay_app. unfold replay at 1. cbn [foldl]. fold (replay (updater jid) w l).
  destruct (replay_updater_configured jid l w b Hb) as (b1 & ->).
  rewrite (updater_configured jid f (World (Some b1) (clock w)) b1 eq_refl).
  cbn [clock].
  exists (set b1 jid (merged (get_or_empty b1 jid) jid f (clock w))),
         (merged (get_or_empty b1 jid) jid f (clock w)).
  split; [reflexivity|].
  split; [by rewrite job_status_configured, get_after_job_update|].
  split; [unfold rec_get; by rewrite merged_updated_at|].
  eapply last_write_merged; [|done].
  intros k Hk Hk'. by apply rec_get_merged.
Qed.

Lemma start_worker_turn_ends_done_or_error_witness :
  let w := World (create_job (Some MemoryBackend.init) (sample_payload "mp3")
                    "job1" 100).2 100 in
  ∃ r', record_of "job1" (start_worker_turn (failing_env "none") "job1" w).2 = Some r'
        ∧ ((∃ meta path, finished r' meta path)
           ∨ (∃ message error, failed r' message error)).
Proof.
  intros w.
  destruct (start_worker_turn_ends_done_or_error (failing_env "none") "job1" w
              (MemoryBackend.enqueue MemoryBackend.init "job1" 100
                 (sample_payload "mp3")).1
              (initial_record "job1" 100 (sample_payload "mp3")))
    as (b' & r' & Hrun & Hst & _ & Hend).
  - reflexivity.
  - reflexivity.
  - reflexivity.
  - exists r'. rewrite Hrun. cbn [snd]. unfold record_of. cbn [backend].
    rewrite Hst. split; [reflexivity|exact Hend].
Defined.

Lemma default_format_allowed : lower "mp4" ∈ ALLOWED_FORMATS.
Proof. vm_compute. set_solver. Qed.

(** X6.  [run_job] on a job it finds in Redis.  When the payload is a
    dict and nothing before the [try] of the pipeline can raise (the URL
    is missing, or the format asked for is a string and either is not an
    allowed one or comes with a quality that can be hashed), no exception
    leaves [run_job] and the record ends done or in error, as above.
    When the payload is not a dict, or has a URL and a format that is not
    a string, or has a URL, an allowed format and a dict as quality,
    [run_job] raises and the store is as it was: the record keeps the
    status it had. *)
Theorem run_job_ends_or_leaves_untouched
    (e : env) (jid : string) (rb : RQBackend.t) r :
  RQBackend.get rb jid = Some r → truthy_rec r = true →
  let payload := payload_of r in
  ((∃ kvs, payload = VDict kvs) →
   truthy (dict_get payload "url") = false
   ∨ (∃ w, wanted payload = VStr w
           ∧ (is_ascii w = true ∧ lower w ∉ ALLOWED_FORMATS
              ∨ ∀ q, quality_of payload ≠ VDict q)) →
   ∃ rb' r',
     run_job e jid rb = (Ok tt, rb')
     ∧ RQBackend.get rb' jid = Some r'
     ∧ ((∃ meta path, finished r' meta path)
        ∨ (∃ message error, failed r' message error)))
  ∧ ((∀ kvs, payload ≠ VDict kvs)
     ∨ truthy (dict_get payload "url") = true
       ∧ ((∀ w, wanted payload ≠ VStr w)
          ∨ ∃ w q, wanted payload = VStr w ∧ lower w ∈ ALLOWED_FORMATS
                   ∧ quality_of payload = VDict q) →
     ∃ exc, run_job e jid rb = (Raise exc, rb)).
Proof.
  intros Hr Htr payload. split.
  - intros Hdict Hcase.
    assert (Hcase' :
      truthy (dict_get payload "url") = false
      ∨ (∃ w, wanted payload = VStr w
              ∧ (lower w ∉ ALLOWED_FORMATS ∨ ∀ q, quality_of payload ≠ VDict q))).
    { destruct Hcase as [Hno|(w & Hw & [[_ Hnot]|Hq])]; [by left|right..].
      - exists w. split; [done|by left].
      - exists w. split; [done|by right]. }
    pose proof (run_job_replay e jid rb r Hr Htr) as Hstore.
    assert (Hok : (run_job e jid rb).1 = Ok tt).
    { unfold run_job. rewrite Hr, Htr. cbn [negb]. by apply process_job_async_ok. }
    destruct (worker_writes_last e jid false r) as (l & f & Hl & Hf);
      [right; by split|].
    assert (Hpair : run_job e jid rb
                    = (Ok tt, run_job_update jid f (replay (run_job_update jid) rb l))).
    { rewrite Hl, replay_app in Hstore. rewrite <- Hok.
      change (run_job_update jid f (replay (run_job_update jid) rb l))
        with (replay (run_job_update jid) (replay (run_job_update jid) rb l) [f]).
      rewrite <- Hstore. by destruct (run_job e jid rb). }
    rewrite Hpair. eexists _, _. split; [reflexivity|].
    split; [apply run_job_update_get|].
    eapply last_write_merged; [|done].
    intros k _ _. apply rec_get_union.
  - intros Hcase. unfold run_job. rewrite Hr, Htr. cbn [negb].
    by apply process_job_async_crash.
Qed.

(** A job kept in its source format ends done; a job whose payload asks
    for a quality that is a dict makes [run_job] raise. *)
Lemma run_job_ends_or_leaves_untouched_witness :
  let settings := RQBackend.mk_settings "downloads" 1800 3600 86400 in
  let rb := (RQBackend.enqueue (RQBackend.init settings) "job1" 100
               (sample_payload "source")).1 in
  let odd := VDict [("url", VStr "https://youtu.be/x");
                    ("quality", VDict [("a", VNum 1)])] in
  let rb2 := (RQBackend.enqueue (RQBackend.init settings) "job2" 100 odd).1 in
  (∃ rb' r', run_job source_env "job1" rb = (Ok tt, rb')
             ∧ RQBackend.get rb' "job1" = Some r'
             ∧ ((∃ meta path, finished r' meta path)
                ∨ (∃ message error, failed r' message error)))
  ∧ ∃ exc, run_job source_env "job2" rb2 = (Raise exc, rb2).
Proof.
  intros settings rb odd rb2. split.
  - destruct (run_job_ends_or_leaves_untouched source_env "job1" rb
                (initial_record "job1" 100 (sample_payload "source")))
      as [Hends _].
    + reflexivity.
    + reflexivity.
    + apply Hends; [by eexists|]. right. exists "source".
      split; [reflexivity|]. right. intros q. discriminate.
  - destruct (run_job_ends_or_leaves_untouched source_env "job2" rb2
                (initial_record "job2" 100 odd)) as [_ Hraises].
    + reflexivity.
    + reflexivity.
    + apply Hraises. right. split; [reflexivity|]. right.
      exists "mp4", [("a", VNum 1)]. split; [reflexivity|].
      split; [|reflexivity]. exact default_format_allowed.
Defined.

(** ** Serving and deleting the file of a finished job *)

Lemma rec_get_Some (r : record) k v : rec_get r k = v → v ≠ VNone → r !! k = Some v.
Proof. unfold rec_get. destruct (r !! k); cbn; congruence. Qed.

Lemma status_truthy (r : record) st : status_of r = VStr st → truthy_rec r = true.
Proof.
  intros Hst. destruct (truthy_rec r) eqn:Hr; [done|].
  apply truthy_rec_false in Hr. subst r. discriminate.
Qed.

Section served_facts.
Context {B : Type} `{JobBackendLaws B}.

(** What the two deletions leave of a record. *)
Lemma deleted_record (b : B) jid message now r :
  get b jid = Some r →
  let r' := merged r jid (w_deleted message) now in
  job_update (Some b) jid (w_deleted message) now = (Ok r', Some (set b jid r'))
  ∧ get (set b jid r') jid = Some r'
  ∧ truthy_rec r' = true
  ∧ status_of r' = VStr "deleted"
  ∧ result_of r' = VNone
  ∧ r' !! "result" = Some VNone
  ∧ progress_of r' = progress_of r.
Proof.
  intros Hr r'. subst r'.
  rewrite job_update_configured, (get_or_empty_Some _ _ _ Hr).
  split; [done|]. split; [apply get_set_eq, truthy_merged|].
  split; [apply truthy_merged|].
  unfold status_of, result_of, progress_of. rewrite !rec_get_merged by done.
  repeat split; try done. by rewrite merged_lookup.
Qed.

(** A record without a result is not served and cannot be deleted. *)
Lemma no_result_not_served jid (w : world B) b r os_remove :
  backend w = Some b → get b jid = Some r → result_of r = VNone →
  file jid w = (Raise (HTTPException 404 "file not ready"), w)
  ∧ delete_file os_remove jid w = (Raise (HTTPException 404 "not found"), w).
Proof.
  intros Hb Hr Hres. unfold file, delete_file.
  rewrite Hb, job_status_configured, Hr. unfold result_of in Hres. rewrite Hres.
  cbn [is_none]. by rewrite !orb_true_r.
Qed.

End served_facts.

(** X7.  A finished job is served once.  On a record as the worker's
    last write leaves a finished job, [GET /file] answers with the path,
    the media type and the file name the worker recorded, changes nothing
    in the store, and schedules the background task for that path.  Once
    the task has run, the record is [deleted] with no result, and both
    [GET /file] and [DELETE /file] answer 404. *)
Theorem finished_job_is_served_once
    {B : Type} `{JobBackendLaws B} (jid : string) (w : world B) b r meta path
    (os_remove : string → result unit) :
  backend w = Some b → get b jid = Some r → finished r meta path →
  file jid w
  = (Ok ((path, VStr (guess_mimetype (path_suffix path)), VStr (path_name path)),
         (jid, path)), w)
  ∧ ∃ w' r',
      _cleanup_after_download jid path w = (Ok tt, w')
      ∧ record_of jid w' = Some r'
      ∧ status_of r' = VStr "deleted"
      ∧ result_of r' = VNone
      ∧ file jid w' = (Raise (HTTPException 404 "file not ready"), w')
      ∧ delete_file os_remove jid w' = (Raise (HTTPException 404 "not found"), w').
Proof.
  intros Hb Hr (Hst & _ & Hres & _). split.
  - unfold file. rewrite Hb, job_status_configured, Hr.
    rewrite (status_truthy r "done" Hst). cbn [negb orb].
    unfold result_of in Hres. rewrite Hres. cbn [is_none].
    unfold rec_item. rewrite (rec_get_Some r "status" _ Hst) by done.
    by cbn.
  - destruct (deleted_record b jid "Файл удалён после скачивания" (clock w) r Hr)
      as (Hup & Hget & Htr & Hst' & Hres' & _).
    set (r' := merged r jid (w_deleted "Файл удалён после скачивания") (clock w)) in *.
    exists (World (Some (set b jid r')) (clock w)), r'.
    unfold _cleanup_after_download. rewrite Hb.
    unfold w_deleted in Hup. rewrite Hup. split; [reflexivity|].
    split; [by apply (record_of_get jid (World (Some (set b jid r')) (clock w))
                        (set b jid r') r')|].
    split; [done|]. split; [done|].
    by apply (no_result_not_served jid (World (Some (set b jid r')) (clock w))
                (set b jid r') r' os_remove).
Qed.

Lemma finished_job_is_served_once_witness :
  let r := w_done sample_meta "./temp/job1/Sample Video.mp3" in
  let w := World (Some (MemoryBackend.set MemoryBackend.init "job1" r)) 100 in
  (file "job1" w).1
  = Ok (("./temp/job1/Sample Video.mp3", VStr "audio/mpeg", VStr "Sample Video.mp3"),
        ("job1", "./temp/job1/Sample Video.mp3")).
Proof.
  intros r w.
  destruct (finished_job_is_served_once "job1" w
              (MemoryBackend.set MemoryBackend.init "job1" r) r sample_meta
              "./temp/job1/Sample Video.mp3" (λ _, Ok tt)) as [Hfile _].
  - reflexivity.
  - reflexivity.
  - repeat split; reflexivity.
  - rewrite Hfile. reflexivity.
Defined.

(** X8.  [DELETE /file] on a job with a result that names its file.
    When [os.remove] succeeds, or raises [FileNotFoundError] because the
    file is gone already, the handler answers normally, the record
    becomes [deleted] with no result, its progress stays, and the file is
    no longer served; a second [DELETE] answers 404.  When [os.remove]
    raises anything else, the exception leaves the handler and the store
    is as before. *)
Theorem delete_file_outcomes
    {B : Type} `{JobBackendLaws B} (jid : string) (w : world B) b r meta path
    (os_remove : string → result unit) :
  backend w = Some b → get b jid = Some r → finished r meta path →
  match os_remove path with
  | Ok _ | Raise (FileNotFoundError _) =>
      ∃ w' r',
        delete_file os_remove jid w = (Ok tt, w')
        ∧ record_of jid w' = Some r'
        ∧ status_of r' = VStr "deleted"
        ∧ result_of r' = VNone
        ∧ progress_of r' = VNum 100
        ∧ rec_get r' "updated_at" = VNum (clock w)
        ∧ file jid w' = (Raise (HTTPException 404 "file not ready"), w')
        ∧ delete_file os_remove jid w' = (Raise (HTTPException 404 "not found"), w')
  | Raise exc => delete_file os_remove jid w = (Raise exc, w)
  end.
Proof.
  intros Hb Hr (Hst & Hpr & Hres & _).
  assert (Hdel : delete_file os_remove jid w
                 = match match os_remove path with
                         | Raise (FileNotFoundError _) => Ok tt
                         | r => r
                         end with
                   | Raise exc => (Raise exc, w)
                   | Ok _ =>
                       match job_update (backend w) jid
                               (w_deleted "Файл удалён") (clock w) with
                       | (Raise exc, b) => (Raise exc, World b (clock w))
                       | (Ok _, b) => (Ok tt, World b (clock w))
                       end
                   end).
  { unfold delete_file. rewrite Hb, job_status_configured, Hr.
    rewrite (status_truthy r "done" Hst). cbn [negb orb].
    unfold result_of in Hres. rewrite Hres. by cbn. }
  destruct (deleted_record b jid "Файл удалён" (clock w) r Hr)
    as (Hup & Hget & Htr & Hst' & Hres' & _ & Hpr').
  assert (Hdone : ∃ w' r',
    match job_update (backend w) jid (w_deleted "Файл удалён") (clock w) with
    | (Raise exc, b) => (Raise exc, World b (clock w))
    | (Ok _, b) => (Ok tt, World b (clock w))
    end = (Ok tt, w')
    ∧ record_of jid w' = Some r'
    ∧ status_of r' = VStr "deleted"
    ∧ result_of r' = VNone
    ∧ progress_of r' = VNum 100
    ∧ rec_get r' "updated_at" = VNum (clock w)
    ∧ file jid w' = (Raise (HTTPException 404 "file not ready"), w')
    ∧ delete_file os_remove jid w' = (Raise (HTTPException 404 "not found"), w')).
  { set (r' := merged r jid (w_deleted "Файл удалён") (clock w)) in *.
    exists (World (Some (set b jid r')) (clock w)), r'.
    rewrite Hb, Hup. split; [reflexivity|].
    split; [by apply (record_of_get jid (World (Some (set b jid r')) (clock w))
                        (set b jid r') r')|].
    split; [done|]. split; [done|]. split; [congruence|].
    split; [unfold rec_get, r'; by rewrite merged_updated_at|].
    by apply (no_result_not_served jid (World (Some (set b jid r')) (clock w))
                (set b jid r') r' os_remove). }
  rewrite Hdel. destruct (os_remove path) as [[]|exc]; [done|].
  by destruct exc.
Qed.

Lemma delete_file_outcomes_witness :
  let r := w_done sample_meta "./temp/job1/Sample Video.mp3" in
  let w := World (Some (MemoryBackend.set MemoryBackend.init "job1" r)) 100 in
  let gone := λ _ : string, Raise (A := unit) (FileNotFoundError "No such file") in
  ∃ w', delete_file gone "job1" w = (Ok tt, w')
        ∧ (file "job1" w').1 = Raise (HTTPException 404 "file not ready").
Proof.
  intros r w gone.
  pose proof (delete_file_outcomes "job1" w
                (MemoryBackend.set MemoryBackend.init "job1" r) r sample_meta
                "./temp/job1/Sample Video.mp3" gone) as Hdel.
  destruct Hdel as (w' & r' & Hok & _ & _ & _ & _ & _ & Hfile & _).
  - reflexivity.
  - reflexivity.
  - repeat split; reflexivity.
  - exists w'. split; [exact Hok|]. by rewrite Hfile.
Defined.

(** ** [POST /download] *)

Lemma supported_format fmt :
  fmt ∈ SUPPORTED_FORMATS →
  fmt ≠ "" ∧ lower fmt = fmt ∧ fmt ∈ ALLOWED_FORMATS.
Proof.
  intros Hfmt. unfold SUPPORTED_FORMATS in Hfmt.
  repeat (apply elem_of_cons in Hfmt as [->|Hfmt];
          [split; [done|]; split; [done|]; set_solver|]).
  by apply elem_of_nil in Hfmt.
Qed.

Lemma world_eta {B : Type} (w : world B) : World (backend w) (clock w) = w.
Proof. by destruct w. Qed.

(** X9.  A request that [POST /download] refuses creates no job: the
    store is as it was.  The limiter is consulted first: when it refuses,
    the answer is 429 whatever the URL, the format and the quality are;
    when it admits the request, the admission is recorded for the client
    even though the request is then refused for its format, its quality or
    its URL. *)
Theorem refused_request_creates_no_job
    {B : Type} `{JobBackend B} (e : env) (client : option string)
    (url quality format job_id : string) (s s' : app_state B) (exc : exn) :
  create_download e client url quality format job_id s = (Raise exc, s') →
  let ip := default "unknown" client in
  let now := clock (app_world s) in
  let answer := ratelimit.allow (app_hits s) ip now
                  ratelimit.LIMIT ratelimit.WINDOW_SECONDS in
  app_world s' = app_world s
  ∧ app_hits s' = answer.2
  ∧ (answer.1 = false → exc = HTTPException 429 "Rate limit exceeded")
  ∧ (answer.1 = true →
     exc ≠ HTTPException 429 "Rate limit exceeded"
     ∧ ∃ earlier, app_hits s' !! ip = Some (earlier ++ [now])).
Proof.
  unfold create_download. cbv zeta.
  destruct (ratelimit.allow _ _ _ _ _) as [allowed hits] eqn:Hallow. cbn [fst snd].
  assert (Hrec : allowed = true → ∃ earlier,
            hits !! default "unknown" client
            = Some (earlier ++ [clock (app_world s)])).
  { intros ->. unfold ratelimit.allow in Hallow.
    destruct (_ <=? _)%Z; [done|]. injection Hallow as <-.
    eexists. by rewrite lookup_insert_eq. }
  destruct allowed; cbn [negb].
  2:{ intros [= <- <-]. cbn. by repeat (split; [done|]). }
  assert (Hother : ∀ exc0,
    exc0 ≠ HTTPException 429 "Rate limit exceeded" →
    (Raise (A := value) exc0, AppState hits (app_world s)) = (Raise exc, s') →
    app_world s' = app_world s
    ∧ app_hits s' = hits
    ∧ (true = false → exc = HTTPException 429 "Rate limit exceeded")
    ∧ (true = true →
       exc ≠ HTTPException 429 "Rate limit exceeded"
       ∧ ∃ earlier, app_hits s' !! default "unknown" client
                    = Some (earlier ++ [clock (app_world s)]))).
  { intros exc0 Hexc [= <- <-]. cbn. do 3 (split; [done|]).
    intros _. split; [done|by apply Hrec]. }
  destruct (bool_decide (lower format ∈ SUPPORTED_FORMATS)); cbn [negb];
    [|by apply Hother].
  destruct (negb (has_key QUALITY_PRESETS quality) && negb (String.eqb quality "auto"));
    [by apply Hother|].
  unfold validate_url. destruct (url_allowed e (VStr url)); [|by apply Hother].
  unfold create_job. destruct (backend (app_world s)) as [b|] eqn:Hb.
  { by destruct (enqueue b _ _ _). }
  rewrite <- Hb, world_eta. by apply Hother.
Qed.

Lemma refused_request_creates_no_job_witness :
  let s := AppState (B := MemoryBackend.t) ∅ (World (Some MemoryBackend.init) 100) in
  let '(r, s') := create_download (failing_env "none") (Some "10.0.0.1")
                    "https://youtu.be/x" "720p" "flac" "job1" s in
  app_world s' = app_world s
  ∧ app_hits s' !! "10.0.0.1" = Some [100%Z].
Proof.
  intros s.
  destruct (create_download (failing_env "none") (Some "10.0.0.1")
              "https://youtu.be/x" "720p" "flac" "job1" s) as [r s'] eqn:Hreq.
  assert (Hr : r = Raise (HTTPException 400 "Unsupported format: flac"))
    by (vm_compute in Hreq; congruence).
  subst r.
  destruct (refused_request_creates_no_job _ _ _ _ _ _ _ _ _ Hreq)
    as (Hworld & Hhits & _).
  split; [exact Hworld|]. rewrite Hhits. reflexivity.
Defined.

(** What an accepted request leaves behind. *)
Lemma create_download_accepted
    {B : Type} `{JobBackendLaws B} (e : env) (client : option string)
    (url quality format job_id : string) (s s' : app_state B) (resp : value) :
  create_download e client url quality format job_id s = (Ok resp, s') →
  let q := if String.eqb quality "auto" then DEFAULT_QUALITY else quality in
  resp = VDict [("job_id", VStr job_id)]
  ∧ lower format ∈ SUPPORTED_FORMATS
  ∧ has_key QUALITY_PRESETS q = true
  ∧ url_allowed e (VStr url) = true
  ∧ ∃ b, backend (app_world s') = Some b
         ∧ get b job_id
           = Some (initial_record job_id (clock (app_world s))
                     (download_payload url q (lower format))).
Proof.
  unfold create_download. cbv zeta.
  destruct (ratelimit.allow _ _ _ _ _) as [[] hits]; cbn [negb]; [|done].
  destruct (bool_decide (lower format ∈ SUPPORTED_FORMATS)) eqn:Hfmt;
    cbn [negb]; [|done].
  apply bool_decide_eq_true in Hfmt.
  destruct (negb (has_key QUALITY_PRESETS quality) && negb (String.eqb quality "auto"))
    eqn:Hq; [done|].
  unfold validate_url. destruct (url_allowed e (VStr url)) eqn:Hurl; [|done].
  destruct (backend (app_world s)) as [b|] eqn:Hb; [|done].
  rewrite create_job_configured. intros [= <- <-]. cbn [app_world backend].
  split; [done|]. split; [done|]. split.
  { destruct (String.eqb quality "auto"); [done|].
    cbn [negb] in Hq. rewrite andb_true_r in Hq. by apply negb_false_iff in Hq. }
  split; [done|]. eexists. split; [done|]. apply get_enqueue_eq.
Qed.

(** X10.  A request that [POST /download] accepts: the answer is the id
    of the job; the format stored is lower case and one of the supported
    ones, the quality stored is a preset (["auto"] stands for the
    default); the job's record is the one [enqueue] writes for that
    payload, and [GET /status] for the id answers [queued] at progress 0,
    with no error and without a file name. *)
Theorem accepted_request_is_queued
    {B : Type} `{JobBackendLaws B} (e : env) (client : option string)
    (url quality format job_id : string) (s s' : app_state B) (resp : value) :
  create_download e client url quality format job_id s = (Ok resp, s') →
  let fmt := lower format in
  let q := if String.eqb quality "auto" then DEFAULT_QUALITY else quality in
  let now := clock (app_world s) in
  resp = VDict [("job_id", VStr job_id)]
  ∧ fmt ∈ SUPPORTED_FORMATS
  ∧ has_key QUALITY_PRESETS q = true
  ∧ url_allowed e (VStr url) = true
  ∧ record_of job_id (app_world s')
    = Some (initial_record job_id now (download_payload url q fmt))
  ∧ status job_id (app_world s')
    = (Ok (VDict [("status", VStr "queued"); ("progress", VNum 0);
                  ("message", VStr "В очереди"); ("error", VNone);
                  ("reason", VNone)]), app_world s').
Proof.
  intros Hreq fmt q now.
  destruct (create_download_accepted e client url quality format job_id s s' resp Hreq)
    as (Hresp & Hfmt & Hq & Hurl & b & Hb & Hget).
  do 4 (split; [done|]). split.
  - by apply (record_of_get job_id (app_world s') b).
  - unfold status. rewrite Hb, job_status_configured, Hget.
    by rewrite truthy_initial_record.
Qed.

Lemma accepted_request_is_queued_witness :
  let s := AppState (B := MemoryBackend.t) ∅ (World (Some MemoryBackend.init) 100) in
  let '(r, s') := create_download (failing_env "none") None
                    "https://youtu.be/x" "auto" "MP3" "job1" s in
  record_of "job1" (app_world s')
  = Some (initial_record "job1" 100 (download_payload "https://youtu.be/x" "720p" "mp3")).
Proof.
  intros s.
  destruct (create_download (failing_env "none") None
              "https://youtu.be/x" "auto" "MP3" "job1" s) as [r s'] eqn:Hreq.
  assert (Hr : r = Ok (VDict [("job_id", VStr "job1")]))
    by (vm_compute in Hreq; congruence).
  subst r.
  destruct (accepted_request_is_queued _ _ _ _ _ _ _ _ _ Hreq)
    as (_ & _ & _ & _ & Hrec & _).
  exact Hrec.
Defined.

(** ** What the pipeline does with the payload of an accepted request *)

Lemma download_payload_wanted url q fmt :
  fmt ≠ "" → wanted (download_payload url q fmt) = VStr fmt.
Proof.
  intros Hfmt. unfold wanted, download_payload, py_or. cbn.
  by rewrite (proj2 (String.eqb_neq fmt "") Hfmt).
Qed.

(** X11.  The job of an accepted request passes the worker's own checks:
    for the payload [POST /download] stores, whatever the outside world
    does, the pipeline ends without an exception and its first write is
    [fetching]: it reports neither a missing URL nor an unsupported
    format.  The quality stored is a key of the presets, so the height
    asked of [probe] is that preset's and not the fallback. *)
Theorem accepted_job_passes_worker_checks
    {B : Type} `{JobBackendLaws B} (e : env) (client : option string)
    (url quality format job_id : string) (s s' : app_state B) (resp : value) :
  create_download e client url quality format job_id s = (Ok resp, s') →
  url ≠ "" →
  ∃ r q rest,
    record_of job_id (app_world s') = Some r
    ∧ payload_of r = download_payload url q (lower format)
    ∧ pipeline_writes e job_id (payload_of r) = (Ok tt, w_fetching :: rest)
    ∧ has_key QUALITY_PRESETS q = true
    ∧ quality_to_height (dict_get (payload_of r) "quality")
      = Ok (assoc_get QUALITY_PRESETS q).
Proof.
  intros Hreq Hurl.
  destruct (create_download_accepted e client url quality format job_id s s' resp Hreq)
    as (_ & Hfmt & Hq & _ & b & Hb & Hget).
  set (q := if String.eqb quality "auto" then DEFAULT_QUALITY else quality) in *.
  set (payload := download_payload url q (lower format)) in *.
  destruct (supported_format _ Hfmt) as (Hne & Hlow & Hallowed).
  assert (Hwant : wanted payload = VStr (lower format))
    by by apply download_payload_wanted.
  assert (Htruthy : truthy (dict_get payload "url") = true).
  { cbn. by rewrite (proj2 (String.eqb_neq url "") Hurl). }
  assert (Hwrites : ∃ rest, pipeline_writes e job_id payload
                            = (Ok tt, w_fetching :: rest)).
  { destruct (process_way e job_id payload) as (o & Hway & Hrun).
    unfold pipeline_writes. rewrite Hrun, replay_record_call. cbn [app].
    unfold way in Hway. cbv zeta in Hway.
    destruct o; cbn [outcome_result outcome_writes downloading_writes app];
      try by eexists.
    - destruct Hway as [_ Hno]. congruence.
    - destruct Hway as (_ & w & Hw & -> & Hnot).
      rewrite Hwant in Hw. injection Hw as <-. by rewrite Hlow in Hnot.
    - destruct Hway as [Hnot|(_ & [Hw|(w & _ & _ & Hraise)])].
      + by destruct (Hnot [("url", VStr url); ("quality", VStr q);
                           ("format", VStr (lower format))]).
      + by destruct (Hw (lower format)).
      + discriminate. }
  destruct Hwrites as [rest Hwrites].
  exists (initial_record job_id (clock (app_world s)) payload), q, rest.
  split; [by apply (record_of_get job_id (app_world s') b)|].
  assert (Hpl : payload_of (initial_record job_id (clock (app_world s)) payload)
                = payload) by done.
  rewrite Hpl. split; [done|]. split; [done|]. split; [done|].
  change (dict_get payload "quality") with (VStr q).
  unfold quality_to_height. by rewrite Hq.
Qed.

Lemma accepted_job_passes_worker_checks_witness :
  let s := AppState (B := MemoryBackend.t) ∅ (World (Some MemoryBackend.init) 100) in
  let s' := (create_download source_env None "https://youtu.be/x" "auto" "SOURCE"
               "job1" s).2 in
  ∃ r rest, record_of "job1" (app_world s') = Some r
            ∧ pipeline_writes source_env "job1" (payload_of r)
              = (Ok tt, w_fetching :: rest).
Proof.
  intros s s'.
  destruct (create_download source_env None "https://youtu.be/x" "auto" "SOURCE"
              "job1" s) as [resp s0] eqn:Hreq.
  assert (Hresp : resp = Ok (VDict [("job_id", VStr "job1")]))
    by (vm_compute in Hreq; congruence).
  subst resp s'. cbn [snd].
  destruct (accepted_job_passes_worker_checks _ _ _ _ _ _ _ _ _ Hreq)
    as (r & q & rest & Hrec & _ & Hwrites & _); [discriminate|].
  by exists r, rest.
Defined.

(** ** The rate limiter, one client among others *)

Module ratelimit_clients.
Import ratelimit.

Section clients.
Variable limit window : Z.

(** A call of another identifier leaves the events of [i] as they are. *)
Lemma allow_other hits i j now :
  j ≠ i → (allow hits j now limit window).2 !! i = hits !! i.
Proof.
  intros Hne. unfold allow. destruct (limit <=? _)%Z; cbn;
    by rewrite lookup_insert_ne.
Qed.

(** The answer to a call and the events it leaves for its identifier
    depend on the events stored for that identifier only. *)
Lemma allow_same hits hits' i now :
  hits !! i = hits' !! i →
  (allow hits i now limit window).1 = (allow hits' i now limit window).1
  ∧ (allow hits i now limit window).2 !! i = (allow hits' i now limit window).2 !! i.
Proof.
  intros Heq. unfold allow. rewrite Heq.
  destruct (limit <=? _)%Z; cbn; by rewrite !lookup_insert_eq.
Qed.

Lemma serve_own_calls i calls : ∀ hits hits',
  hits !! i = hits' !! i →
  let own := filter (λ c, c.1 = i) calls in
  admissions i calls (serve limit window hits calls).1
  = admissions i own (serve limit window hits' own).1
  ∧ (serve limit window hits calls).2 !! i = (serve limit window hits' own).2 !! i
  ∧ filter (λ c, c.1.1 = i) (zip calls (serve limit window hits calls).1)
    = zip own (serve limit window hits' own).1.
Proof.
  induction calls as [|[j now] calls IH]; intros hits hits' Heq; [done|].
  cbv zeta. cbn [serve]. destruct (decide (j = i)) as [->|Hne].
  - rewrite filter_cons_True by done. cbn [serve].
    destruct (allow_same hits hits' i now Heq) as [Hans Hst].
    destruct (allow hits i now limit window) as [ok h1].
    destruct (allow hits' i now limit window) as [ok' h1']. cbn [fst snd] in Hans, Hst.
    subst ok'. destruct (IH h1 h1' Hst) as (IH1 & IH2 & IH3).
    destruct (serve limit window h1 calls) as [oks h2].
    destruct (serve limit window h1' _) as [oks' h2']. cbn [fst snd] in *.
    cbn [admissions zip zip_with]. rewrite filter_cons_True by done.
    rewrite bool_decide_eq_true_2 by done. rewrite IH1, IH3.
    split; [by destruct ok|]. by split.
  - rewrite filter_cons_False by done.
    pose proof (allow_other hits i j now Hne) as Hst.
    destruct (allow hits j now limit window) as [ok h1]. cbn [fst snd] in Hst.
    destruct (IH h1 hits' ltac:(congruence)) as (IH1 & IH2 & IH3).
    destruct (serve limit window h1 calls) as [oks h2]. cbn [fst snd] in *.
    cbn [admissions zip zip_with]. rewrite filter_cons_False by done.
    rewrite bool_decide_eq_false_2 by done. by rewrite andb_false_r.
Qed.

(** The events stored for an identifier never outnumber the limit. *)
Lemma allow_bounded hits i now :
  (0 ≤ limit)%Z →
  (∀ j q, hits !! j = Some q → (Z.of_nat (length q) ≤ limit)%Z) →
  ∀ j q, (allow hits i now limit window).2 !! j = Some q →
         (Z.of_nat (length q) ≤ limit)%Z.
Proof.
  intros Hlimit Hhits j q. unfold allow.
  set (q0 := default [] (hits !! i)).
  assert (Hq0 : (Z.of_nat (length q0) ≤ limit)%Z).
  { unfold q0. destruct (hits !! i) as [q'|] eqn:Hi; cbn; [by eapply Hhits|lia]. }
  destruct (ratelimit_facts.drop_old_split window now q0) as (stale & Hsplit & _).
  assert (Hlen : length (drop_old now window q0) ≤ length q0).
  { rewrite Hsplit at 2. rewrite length_app. lia. }
  destruct (limit <=? Z.of_nat (length (drop_old now window q0)))%Z eqn:Hfull; cbn;
    (destruct (decide (j = i)) as [->|Hne];
     [rewrite lookup_insert_eq; intros [= <-]
     |rewrite lookup_insert_ne by done; apply Hhits]).
  - lia.
  - rewrite length_app. cbn. lia.
Qed.

Lemma serve_bounded calls : ∀ hits,
  (0 ≤ limit)%Z →
  (∀ j q, hits !! j = Some q → (Z.of_nat (length q) ≤ limit)%Z) →
  ∀ j q, (serve limit window hits calls).2 !! j = Some q →
         (Z.of_nat (length q) ≤ limit)%Z.
Proof.
  induction calls as [|[i now] calls IH]; intros hits Hlimit Hhits; [done|].
  cbn [serve]. pose proof (allow_bounded hits i now Hlimit Hhits) as Hone.
  destruct (allow hits i now limit window) as [ok h1]. cbn in Hone.
  specialize (IH h1 Hlimit Hone).
  by destruct (serve limit window h1 calls) as [oks h2].
Qed.

End clients.

(** X12.  One client's calls are answered as if it were alone: among any
    calls, made at any times, the answers to the calls of an identifier,
    its admissions and the events stored for it are those the limiter
    gives when only that identifier's calls are made. *)
Theorem clients_do_not_interfere (limit window : Z) (i : string)
    (calls : list (string * Z)) :
  let own := filter (λ c, c.1 = i) calls in
  filter (λ c, c.1.1 = i) (zip calls (answers limit window calls))
  = zip own (answers limit window own)
  ∧ admitted limit window i calls = admitted limit window i own
  ∧ state limit window calls !! i = state limit window own !! i.
Proof.
  destruct (serve_own_calls limit window i calls ∅ ∅ eq_refl) as (H1 & H2 & H3).
  by split.
Qed.

(** X13.  With a limit that is not negative, the limiter never stores
    more events for an identifier than the limit, whatever calls were
    made and at whatever times; an identifier that has called keeps an
    entry, even when all its calls were refused. *)
Theorem stored_events_bounded (limit window : Z) (calls : list (string * Z)) :
  (0 ≤ limit)%Z →
  (∀ i q, state limit window calls !! i = Some q →
          (Z.of_nat (length q) ≤ limit)%Z)
  ∧ (∀ i now, (i, now) ∈ calls → is_Some (state limit window calls !! i)).
Proof.
  intros Hlimit. split.
  - apply serve_bounded; [done|]. intros j q Hj. by rewrite lookup_empty in Hj.
  - intros i now Hin. unfold state.
    enough (∀ hits, (is_Some (hits !! i) ∨ (i, now) ∈ calls) →
                    is_Some ((serve limit window hits calls).2 !! i)) as Hgen
      by (apply Hgen; by right).
    clear Hin. induction calls as [|[j t] calls IH]; intros hits Hcase.
    + destruct Hcase as [?|Hin]; [done|by apply elem_of_nil in Hin].
    + cbn [serve].
      assert (Hone : is_Some ((allow hits j t limit window).2 !! i)
                     ∨ (i, now) ∈ calls).
      { destruct (decide (j = i)) as [->|Hne].
        - left. unfold allow. destruct (limit <=? _)%Z; cbn;
            rewrite lookup_insert_eq; by eexists.
        - rewrite allow_other by done.
          destruct Hcase as [?|Hin]; [by left|].
          apply elem_of_cons in Hin as [[= -> ->]|Hin]; [done|by right]. }
      destruct (allow hits j t limit window) as [ok h1]. cbn in Hone.
      specialize (IH h1 Hone). by destruct (serve limit window h1 calls).
Qed.

Lemma stored_events_bounded_witness :
  ∃ q, state 2 10 [("a", 0); ("a", 1); ("a", 2); ("b", 2)]%Z !! "a" = Some q
       ∧ length q ≤ 2.
Proof.
  destruct (stored_events_bounded 2 10 [("a", 0); ("a", 1); ("a", 2); ("b", 2)]%Z)
    as [Hbound _]; [lia|].
  destruct (state 2 10 [("a", 0); ("a", 1); ("a", 2); ("b", 2)]%Z !! "a")
    as [q|] eqn:Hq; [|discriminate].
  exists q. split; [reflexivity|]. specialize (Hbound "a" q Hq). lia.
Defined.

End ratelimit_clients.

(** ** What a sweep leaves behind *)

Module cleanup_sweep.
Import cleanup.

Lemma lookup_omap_sweep now ttl (entries : gmap string node) name child' :
  omap (sweep now ttl) entries !! name = Some child' →
  ∃ child, entries !! name = Some child ∧ sweep now ttl child = Some child'.
Proof.
  rewrite lookup_omap. destruct (entries !! name) as [child|]; [|done].
  intros Hs. by exists child.
Qed.

(** What [sweep] leaves of an entry is within the TTL, and so is
    everything below it. *)
Lemma sweep_fresh now ttl n : ∀ n',
  sweep now ttl n = Some n' →
  ∀ path x, lookup_path n' path = Some x → (now - mtime_of x ≤ ttl)%Z.
Proof.
  induction n as [m|m entries IH] using cleanup_facts.node_induction; intros n'.
  - rewrite cleanup_facts.sweep_file.
    destruct (ttl <? now - m)%Z eqn:Hold; [done|]. intros [= <-] path x.
    destruct path; [|done]. intros [= <-]. cbn. lia.
  - rewrite cleanup_facts.sweep_dir. cbv zeta.
    destruct (ttl <? now - _)%Z eqn:Hold; [done|]. intros [= <-] path x.
    destruct path as [|name path].
    + intros [= <-]. cbn [mtime_of]. lia.
    + cbn [lookup_path].
      destruct (omap (sweep now ttl) entries !! name) as [child'|] eqn:Hc; [|done].
      apply lookup_omap_sweep in Hc as (child & Hchild & Hsweep).
      by apply (IH name child Hchild child').
Qed.

Lemma omap_id (f : node → option node) (entries : gmap string node) :
  (∀ name child, entries !! name = Some child → f child = Some child) →
  omap f entries = entries.
Proof.
  intros Hf. apply map_eq. intros name. rewrite lookup_omap.
  destruct (entries !! name) as [child|] eqn:Hc; [|done]. by apply (Hf name).
Qed.

(** [sweep] leaves an entry as it is when it and everything below it is
    within the TTL. *)
Lemma sweep_id now ttl n :
  (∀ path x, lookup_path n path = Some x → (now - mtime_of x ≤ ttl)%Z) →
  sweep now ttl n = Some n.
Proof.
  induction n as [m|m entries IH] using cleanup_facts.node_induction; intros Hfresh.
  - rewrite cleanup_facts.sweep_file. specialize (Hfresh [] (File m) eq_refl).
    cbn in Hfresh. by rewrite (proj2 (Z.ltb_ge _ _) Hfresh).
  - rewrite cleanup_facts.sweep_dir. cbv zeta.
    rewrite (omap_id (sweep now ttl) entries); cycle 1.
    { intros name child Hchild. apply (IH name child Hchild).
      intros path x Hx. apply (Hfresh (name :: path) x). cbn. by rewrite Hchild. }
    unfold touched. rewrite bool_decide_eq_true_2 by done.
    specialize (Hfresh [] (Dir m entries) eq_refl). cbn in Hfresh.
    by rewrite (proj2 (Z.ltb_ge _ _) Hfresh).
Qed.

Lemma sweep_came_from now ttl n : ∀ n',
  sweep now ttl n = Some n' →
  ∀ path x', lookup_path n' path = Some x' →
             ∃ x, lookup_path n path = Some x ∧ cleanup_after.came_from now x' x.
Proof.
  induction n as [m|m entries IH] using cleanup_facts.node_induction; intros n'.
  - rewrite cleanup_facts.sweep_file.
    destruct (ttl <? now - m)%Z; [done|]. intros [= <-] path x' Hx'.
    exists x'. split; [done|]. destruct path; [|done].
    by injection Hx' as <-.
  - rewrite cleanup_facts.sweep_dir. cbv zeta.
    destruct (ttl <? now - _)%Z; [done|]. intros [= <-] path x'.
    destruct path as [|name path].
    + intros [= <-]. eexists. split; [done|]. cbn. unfold touched.
      destruct (bool_decide _); auto.
    + cbn [lookup_path].
      destruct (omap (sweep now ttl) entries !! name) as [child'|] eqn:Hc; [|done].
      apply lookup_omap_sweep in Hc as (child & Hchild & Hsweep).
      rewrite Hchild. by apply (IH name child Hchild child').
Qed.

Lemma cleanup_dir now ttl m entries :
  cleanup_expired_files now (Some (Dir m entries)) ttl
  = Some (Dir (touched now m entries (omap (sweep now ttl) entries))
              (omap (sweep now ttl) entries)).
Proof. done. Qed.

Lemma below_base now ttl (base : node) path x :
  path ≠ [] →
  at_path (cleanup_expired_files now (Some base) ttl) path = Some x →
  ∃ m entries name rest child child',
    base = Dir m entries ∧ path = name :: rest
    ∧ entries !! name = Some child
    ∧ sweep now ttl child = Some child'
    ∧ lookup_path child' rest = Some x.
Proof.
  intros Hne. destruct path as [|name rest]; [done|].
  destruct base as [m|m entries]; [done|].
  rewrite cleanup_dir. cbn [at_path lookup_path].
  destruct (omap (sweep now ttl) entries !! name) as [child'|] eqn:Hc; [|done].
  apply lookup_omap_sweep in Hc as (child & Hchild & Hsweep).
  intros Hx. by exists m, entries, name, rest, child, child'.
Qed.

(** X14.  After a sweep nothing expired is left: every file and every
    directory below the base directory, at any depth, has an age within
    the TTL; the directories are taken with the time stamp the removal of
    an entry gave them.  A second sweep at the same time therefore
    changes nothing. *)
Theorem nothing_expired_remains (now ttl : Z) (base : option node) :
  (∀ path x, path ≠ [] →
     at_path (cleanup_expired_files now base ttl) path = Some x →
     (now - mtime_of x ≤ ttl)%Z)
  ∧ cleanup_expired_files now (cleanup_expired_files now base ttl) ttl
    = cleanup_expired_files now base ttl.
Proof.
  destruct base as [base|]; [|done]. split.
  - intros path x Hne Hx.
    destruct (below_base now ttl base path x Hne Hx)
      as (m & entries & name & rest & child & child' & _ & _ & _ & Hsweep & Hrest).
    by apply (sweep_fresh now ttl child child' Hsweep rest x).
  - destruct base as [m|m entries]; [done|].
    rewrite !cleanup_dir.
    rewrite (omap_id (sweep now ttl) (omap (sweep now ttl) entries)); cycle 1.
    { intros name child' Hc.
      apply lookup_omap_sweep in Hc as (child & Hchild & Hsweep).
      apply sweep_id. intros path x. by apply (sweep_fresh now ttl child child'). }
    do 2 f_equal. unfold touched at 1. by rewrite bool_decide_eq_true_2.
Qed.

(** X15.  A sweep over a directory in which nothing has expired changes
    nothing: every entry stays, with its time stamp. *)
Theorem sweep_of_fresh_tree_changes_nothing (now ttl : Z) (base : node) :
  (∀ path x, path ≠ [] → at_path (Some base) path = Some x →
             (now - mtime_of x ≤ ttl)%Z) →
  cleanup_expired_files now (Some base) ttl = Some base.
Proof.
  intros Hfresh. destruct base as [m|m entries]; [done|].
  rewrite cleanup_dir.
  rewrite (omap_id (sweep now ttl) entries); cycle 1.
  { intros name child Hchild. apply sweep_id. intros path x Hx.
    apply (Hfresh (name :: path) x); [done|]. cbn. by rewrite Hchild. }
  unfold touched. by rewrite bool_decide_eq_true_2.
Qed.

Lemma sweep_of_fresh_tree_changes_nothing_witness :
  let base := Dir 0 {[ "job1" := Dir 950 {[ "video.mp4" := File 990 ]};
                       "job2" := Dir 200 ∅ ]} in
  cleanup_expired_files 1000 (Some base) 900 = Some base.
Proof.
  intros base. apply sweep_of_fresh_tree_changes_nothing.
  intros path x Hne Hx.
  destruct path as [|name path]; [done|]. cbn in Hx.
  destruct (decide (name = "job1")) as [->|Hn1].
  - rewrite lookup_insert_eq in Hx. destruct path as [|name' path].
    + injection Hx as <-. cbn. lia.
    + cbn in Hx. destruct (decide (name' = "video.mp4")) as [->|Hn].
      * rewrite lookup_singleton_eq in Hx. destruct path; [|done].
        injection Hx as <-. cbn. lia.
      * by rewrite lookup_singleton_ne in Hx.
  - rewrite lookup_insert_ne in Hx by done.
    destruct (decide (name = "job2")) as [->|Hn2].
    + rewrite lookup_singleton_eq in Hx. destruct path as [|name' path].
      * injection Hx as <-. cbn. lia.
      * cbn in Hx. by rewrite lookup_empty in Hx.
    + by rewrite lookup_singleton_ne in Hx.
Defined.

(** X16.  A sweep creates nothing and rewrites no file: every entry
    found below the base directory after the sweep was at the same path
    before it; a file has the time stamp it had, a directory has the time
    stamp it had or the time of the sweep. *)
Theorem sweep_creates_nothing (now ttl : Z) (base : option node) path x' :
  path ≠ [] →
  at_path (cleanup_expired_files now base ttl) path = Some x' →
  ∃ x, at_path base path = Some x ∧ cleanup_after.came_from now x' x.
Proof.
  intros Hne Hx'. destruct base as [base|]; [|done].
  destruct (below_base now ttl base path x' Hne Hx')
    as (m & entries & name & rest & child & child' & -> & -> & Hchild & Hsweep & Hrest).
  destruct (sweep_came_from now ttl child child' Hsweep rest x' Hrest) as (x & Hx & Hfrom).
  exists x. split; [|done]. cbn. by rewrite Hchild.
Qed.

Lemma sweep_creates_nothing_witness :
  let base := Dir 1000 {[ "job1" := Dir 0 {[ "video.mp4.part" := File 1000 ]};
                          "fresh.mp4" := File 1000 ]} in
  ∃ x, at_path (Some base) ["fresh.mp4"] = Some x ∧ cleanup_after.came_from 1000 (File 1000) x.
Proof.
  intros base.
  apply (sweep_creates_nothing 1000 900 (Some base) ["fresh.mp4"] (File 1000)).
  - discriminate.
  - vm_compute. reflexivity.
Defined.

End cleanup_sweep.

(** ** [safe_filename] and [guess_mimetype], continued *)

Module paths_names.
Import paths.

Lemma last_rev {A} (l : list A) : last (rev l) = head l.
Proof. destruct l as [|a l]; [done|]. cbn. apply last_snoc. Qed.

Lemma head_rev {A} (l : list A) : head (rev l) = last l.
Proof. rewrite <- (rev_involutive l) at 2. by rewrite last_rev. Qed.

Lemma lstrip_head s c t : lstrip s = c :: t → stripped c = false.
Proof.
  induction s as [|d s IH]; [done|]. cbn.
  destruct (stripped d) eqn:Hd; [done|]. by intros [= <- <-].
Qed.

Lemma lstrip_last s c : last (lstrip s) = Some c → last s = Some c.
Proof.
  destruct (paths_facts.lstrip_suffix s) as [pre Hpre]. intros Hc.
  rewrite Hpre. rewrite last_app, Hc. done.
Qed.

Lemma lstrip_clean s : (∀ c, head s = Some c → stripped c = false) → lstrip s = s.
Proof.
  destruct s as [|c s]; [done|]. intros Hc. cbn. by rewrite (Hc c).
Qed.

(** What [strip] returns has no character of [" ._"] at either end. *)
Lemma strip_ends s c :
  (head (strip s) = Some c → stripped c = false)
  ∧ (last (strip s) = Some c → stripped c = false).
Proof.
  unfold strip. split.
  - rewrite head_rev. intros Hc. apply lstrip_last in Hc.
    rewrite last_rev in Hc.
    destruct (lstrip s) as [|d t] eqn:Hs; [done|]. injection Hc as ->.
    by apply (lstrip_head s c t).
  - rewrite last_rev. intros Hc.
    destruct (lstrip (rev (lstrip s))) as [|d t] eqn:Hs; [done|].
    injection Hc as ->. by apply (lstrip_head _ c t Hs).
Qed.

Lemma strip_clean s :
  (∀ c, head s = Some c → stripped c = false) →
  (∀ c, last s = Some c → stripped c = false) →
  strip s = s.
Proof.
  intros Hhead Hlast. unfold strip. rewrite (lstrip_clean s Hhead).
  rewrite lstrip_clean; [apply rev_involutive|].
  intros c. rewrite head_rev. apply Hlast.
Qed.

Lemma replace2_clean a b new s : contains2 a b s = false → replace2 a b new s = s.
Proof.
  induction s as [| |c d s IH1 IH2] using paths_facts.two_step_induction; [done..|].
  intros Hs. pose proof (paths_facts.contains2_tail _ _ _ _ Hs) as Hds.
  rewrite paths_facts.contains2_cons2 in Hs. apply orb_false_iff in Hs as [Hcd _].
  rewrite paths_facts.replace2_cons2, Hcd. by rewrite IH2.
Qed.

Lemma collapse_dots_clean s : contains2 46 46 s = false → collapse_dots s = s.
Proof. funelim (collapse_dots s); [congruence|done]. Qed.

Section names.
Variable unicode_word : Z → bool.

Lemma re_sub_clean s :
  Forall (λ c, kept unicode_word c = true) s → re_sub unicode_word s = s.
Proof.
  unfold re_sub. induction 1 as [|c s Hc _ IH]; [done|]. cbn. by rewrite Hc, IH.
Qed.

End names.

(** *** What [safe_filename] keeps *)

Lemma no_pair_of_contains2 a b s :
  contains2 a b s = false → ∀ pre suf, s ≠ pre ++ a :: b :: suf.
Proof.
  intros Hs pre suf ->. apply paths_facts.contains2_app in Hs as [_ Hs].
  rewrite paths_facts.contains2_cons2, !Z.eqb_refl in Hs. done.
Qed.

Lemma contains2_of_no_pair a b s :
  (∀ pre suf, s ≠ pre ++ a :: b :: suf) → contains2 a b s = false.
Proof.
  induction s as [|c s IH]; [done|]. intros Hs.
  assert (Htail : contains2 a b s = false).
  { apply IH. intros pre suf ->. by apply (Hs (c :: pre) suf). }
  destruct s as [|d s]; [done|]. rewrite paths_facts.contains2_cons2, Htail.
  destruct ((c =? a)%Z && (d =? b)%Z) eqn:Hcd; [|done].
  apply andb_true_iff in Hcd as [->%Z.eqb_eq ->%Z.eqb_eq].
  by destruct (Hs [] s).
Qed.

Lemma all_stripped_lstrip s : Forall (λ c, stripped c = true) s → lstrip s = [].
Proof. induction 1 as [|c s Hc _ IH]; [done|]. cbn. by rewrite Hc. Qed.

Lemma all_stripped_strip s : Forall (λ c, stripped c = true) s → strip s = [].
Proof. intros Hs. unfold strip. by rewrite (all_stripped_lstrip s Hs). Qed.

Section solid_facts.
Variable unicode_word : Z → bool.

Local Abbreviation solids :=
  (filter (B := list Z) (λ c, solid unicode_word c = true)).

Lemma solid_not_stripped c : stripped c = true → solid unicode_word c ≠ true.
Proof.
  unfold solid, stripped. intros ->. rewrite andb_false_r. discriminate.
Qed.

Lemma solid_kept c : kept unicode_word c = false → solid unicode_word c ≠ true.
Proof. unfold solid. intros ->. discriminate. Qed.

Lemma not_solid_stripped c :
  kept unicode_word c = true → solid unicode_word c ≠ true → stripped c = true.
Proof.
  unfold solid, stripped. intros ->. cbn. by destruct (_ || _).
Qed.

Lemma solids_re_sub s : solids (re_sub unicode_word s) = solids s.
Proof.
  unfold re_sub. induction s as [|c s IH]; [done|]. cbn [map].
  destruct (kept unicode_word c) eqn:Hc.
  - by rewrite !filter_cons, IH.
  - rewrite (filter_cons_False _ 95%Z) by by apply solid_not_stripped.
    rewrite (filter_cons_False _ c) by by apply solid_kept.
    done.
Qed.

Lemma solids_replace2 a s :
  stripped a = true → solids (replace2 a a [95%Z] s) = solids s.
Proof.
  intros Ha.
  induction s as [| |c d s IH1 IH2] using paths_facts.two_step_induction; [done..|].
  rewrite paths_facts.replace2_cons2.
  destruct ((c =? a)%Z && (d =? a)%Z) eqn:Hcd.
  - apply andb_true_iff in Hcd as [->%Z.eqb_eq ->%Z.eqb_eq]. cbn [app].
    rewrite (filter_cons_False _ 95%Z) by by apply solid_not_stripped.
    rewrite !(filter_cons_False _ a) by by apply solid_not_stripped.
    done.
  - by rewrite !(filter_cons _ c), IH2.
Qed.

Lemma solids_collapse_dots s : solids (collapse_dots s) = solids s.
Proof.
  funelim (collapse_dots s); [|done].
  rewrite H. by apply solids_replace2.
Qed.

Lemma solids_lstrip s : solids (lstrip s) = solids s.
Proof.
  induction s as [|c s IH]; [done|]. cbn [lstrip].
  destruct (stripped c) eqn:Hc; [|done].
  rewrite IH. by rewrite filter_cons_False by by apply solid_not_stripped.
Qed.

Lemma solids_rev s : solids (rev s) = rev (solids s).
Proof.
  induction s as [|c s IH]; [done|]. cbn [rev].
  rewrite filter_app, IH, (filter_cons _ c), (filter_cons _ c), filter_nil.
  destruct (decide _); [done|]. by rewrite app_nil_r.
Qed.

Lemma solids_strip s : solids (strip s) = solids s.
Proof.
  unfold strip.
  by rewrite solids_rev, solids_lstrip, solids_rev, rev_involutive, solids_lstrip.
Qed.

(** Through all the steps the solid characters stay, in their order. *)
Lemma solids_sanitized s :
  solids (strip (replace2 95 95 [95%Z] (collapse_dots (re_sub unicode_word s))))
  = solids s.
Proof.
  by rewrite solids_strip, solids_replace2, solids_collapse_dots, solids_re_sub.
Qed.

(** Without a solid character nothing is left. *)
Lemma sanitized_nil s :
  solids s = [] →
  strip (replace2 95 95 [95%Z] (collapse_dots (re_sub unicode_word s))) = [].
Proof.
  intros Hs. set (t := replace2 95 95 [95%Z] _).
  assert (Hkept : Forall (λ c, kept unicode_word c = true) t).
  { apply paths_facts.replace2_Forall; [by constructor|].
    apply paths_facts.collapse_dots_Forall; [done|apply paths_facts.re_sub_kept]. }
  assert (Hsolids : solids t = []).
  { unfold t. by rewrite solids_replace2, solids_collapse_dots, solids_re_sub. }
  apply all_stripped_strip. clear -Hkept Hsolids.
  induction Hkept as [|c t Hc _ IH]; [done|].
  rewrite filter_cons in Hsolids.
  destruct (decide (solid unicode_word c = true)) as [Hs|Hs]; [done|].
  constructor; [by apply not_solid_stripped|by apply IH].
Qed.

End solid_facts.

(** C10.  With the default fallback, for every name (a string or
    [None]) and whatever [\w] matches beyond ASCII.  The result is not
    empty, holds no slash, no backslash and no two dots in a row, and
    every character of it is one the pattern keeps.  The characters the
    pattern keeps, other than space, dot and underscore, all stay, in
    their order, and nothing else of that kind appears; a name without
    any of them gives the fallback.  And the result is the name with
    every character outside the pattern replaced by an underscore,
    whenever that string has no two dots and no two underscores in a row
    and no space, dot or underscore at either end. *)
Theorem safe_filename_safe (unicode_word : Z → bool) (name : option str) :
  let input := match name with
               | Some (c :: s) => c :: s
               | _ => default_fallback
               end in
  let replaced := map (λ c, if kept unicode_word c then c else 95%Z) input in
  let solids := filter (B := list Z) (λ c, solid unicode_word c = true) in
  let r := safe_filename unicode_word name default_fallback in
  r ≠ []
  ∧ (47%Z ∉ r) ∧ (92%Z ∉ r)
  ∧ (∀ pre suf, r ≠ pre ++ 46%Z :: 46%Z :: suf)
  ∧ Forall (λ c, kept unicode_word c = true) r
  ∧ (solids input ≠ [] → solids r = solids input)
  ∧ (solids input = [] → r = default_fallback)
  ∧ ((∀ pre suf, replaced ≠ pre ++ 46%Z :: 46%Z :: suf) →
     (∀ pre suf, replaced ≠ pre ++ 95%Z :: 95%Z :: suf) →
     (∀ c, head replaced = Some c ∨ last replaced = Some c →
           c ∉ [32%Z; 46%Z; 95%Z]) →
     r = replaced).
Proof.
  intros input replaced solids r.
  set (sanitized :=
    strip (replace2 95 95 [95%Z] (collapse_dots (re_sub unicode_word input)))).
  destruct (paths_facts.sanitized_safe unicode_word input) as [Hkept Hdots].
  fold sanitized in Hkept, Hdots.
  assert (Hr : r = match sanitized with [] => default_fallback | _ => sanitized end)
    by reflexivity.
  assert (Hinput : input ≠ []) by (subst input; by destruct name as [[|c s]|]).
  assert (Hsafe : r ≠ [] ∧ contains2 46 46 r = false
                  ∧ Forall (λ c, kept unicode_word c = true) r).
  { rewrite Hr. destruct sanitized as [|c s]; [|done].
    split; [done|]. split; [done|]. by repeat constructor. }
  destruct Hsafe as (Hne & Hnodots & Hr_kept).
  split; [done|].
  assert (Hsep : ∀ c, c ∈ r → c ≠ 47%Z ∧ c ≠ 92%Z).
  { intros c Hc. rewrite Forall_forall in Hr_kept.
    by apply (paths_facts.kept_not_separator unicode_word), Hr_kept. }
  split; [intros H; by destruct (Hsep _ H)|].
  split; [intros H; by destruct (Hsep _ H)|].
  split; [by apply no_pair_of_contains2|]. split; [done|].
  pose proof (solids_sanitized unicode_word input) as Hsolids.
  fold sanitized in Hsolids. fold solids in Hsolids.
  split; [|split].
  - intros Hsome. rewrite Hr. destruct sanitized as [|c s] eqn:Hs; [|done].
    by rewrite <- Hsolids in Hsome.
  - intros Hnone. rewrite Hr.
    by rewrite (sanitized_nil unicode_word input Hnone : sanitized = []).
  - intros Hnodots' Hnounders Hends.
    assert (Hclean : sanitized = replaced).
    { unfold sanitized. change (re_sub unicode_word input) with replaced.
      rewrite (collapse_dots_clean replaced) by by apply contains2_of_no_pair.
      rewrite (replace2_clean _ _ _ replaced) by by apply contains2_of_no_pair.
      apply strip_clean; intros c Hc.
      - specialize (Hends c (or_introl Hc)). unfold stripped.
        rewrite !orb_false_iff, !Z.eqb_neq. set_solver.
      - specialize (Hends c (or_intror Hc)). unfold stripped.
        rewrite !orb_false_iff, !Z.eqb_neq. set_solver. }
    rewrite Hr, Hclean.
    assert (Hrep : replaced ≠ []) by (subst replaced; by destruct input).
    by destruct replaced.
Qed.

(** The name of a download with a slash and a colon in it; a name made
    of dots and spaces. *)
Lemma sanitized_examples :
  let ascii_only := λ _ : Z, false in
  safe_filename ascii_only (Some (of_string "AC/DC: Live")) default_fallback
  = of_string "AC_DC_ Live"
  ∧ safe_filename ascii_only (Some (of_string ". . .")) default_fallback
    = of_string "file".
Proof. split; vm_compute; reflexivity. Qed.

(** X17.  Whatever the name and the fallback, [safe_filename] returns
    the fallback or a string that neither begins nor ends with a space, a
    dot or an underscore: no hidden file, no trailing dot. *)
Theorem safe_filename_trimmed (unicode_word : Z → bool) (name : option str)
    (fallback : str) :
  let r := safe_filename unicode_word name fallback in
  r = fallback
  ∨ (∃ c, head r = Some c ∧ stripped c = false)
    ∧ (∃ c, last r = Some c ∧ stripped c = false).
Proof.
  cbv zeta. unfold safe_filename.
  set (t := replace2 95 95 [95%Z] _).
  pose proof (strip_ends t) as Hends.
  destruct (strip t) as [|c s] eqn:Hs; [by left|]. right. split.
  - exists c. split; [done|]. by apply (proj1 (Hends c)).
  - destruct (last (c :: s)) as [d|] eqn:Hlast; [|by apply last_None in Hlast].
    exists d. split; [done|]. by apply (proj2 (Hends d)).
Qed.

(** X18.  A name that is clean already is returned as it is, whatever
    the fallback. *)
Theorem safe_filename_keeps_clean_names (unicode_word : Z → bool)
    (name fallback : str) :
  clean_name unicode_word name →
  safe_filename unicode_word (Some name) fallback = name.
Proof.
  intros (Hne & Hkept & Hdots & Hunders & Hhead & Hlast).
  unfold safe_filename. destruct name as [|c s]; [done|].
  rewrite (re_sub_clean _ _ Hkept), (collapse_dots_clean _ Hdots).
  rewrite (replace2_clean _ _ _ _ Hunders), (strip_clean _ Hhead Hlast).
  done.
Qed.

Lemma safe_filename_keeps_clean_names_witness :
  safe_filename (λ _, false) (Some (of_string "My Video (1080p).mp4"))
    default_fallback
  = of_string "My Video (1080p).mp4".
Proof.
  apply safe_filename_keeps_clean_names.
  split; [discriminate|]. split; [by repeat constructor|].
  split; [reflexivity|]. split; [reflexivity|].
  split; intros c [= <-]; reflexivity.
Defined.

End paths_names.

(** [guess_mimetype] looks at the extension without its leading dots and
    without regard to the case of its letters. *)

Lemma lower_upper_ascii c : lower_ascii (upper_ascii c) = lower_ascii c.
Proof. destruct c as [[] [] [] [] [] [] [] []]; reflexivity. Qed.

Lemma lower_lower_ascii c : lower_ascii (lower_ascii c) = lower_ascii c.
Proof. destruct c as [[] [] [] [] [] [] [] []]; reflexivity. Qed.

Lemma lower_upper s : lower (upper s) = lower s.
Proof.
  unfold lower, upper. induction s as [|c s IH]; [done|]. cbn.
  by rewrite lower_upper_ascii, IH.
Qed.

Lemma lower_lower s : lower (lower s) = lower s.
Proof.
  unfold lower. induction s as [|c s IH]; [done|]. cbn.
  by rewrite lower_lower_ascii, IH.
Qed.

Lemma lstrip_dots_map (f : ascii → ascii) s :
  (∀ c, f c = "."%char ↔ c = "."%char) →
  lstrip_dots (map_string f s) = map_string f (lstrip_dots s).
Proof.
  intros Hf. induction s as [|c s IH]; [done|].
  destruct (decide (c = "."%char)) as [->|Hc].
  - cbn [map_string]. rewrite (proj2 (Hf "."%char) eq_refl). cbn. apply IH.
  - assert (Hfc : f c ≠ "."%char) by by rewrite Hf.
    cbn [map_string].
    transitivity (String (f c) (map_string f s)).
    + destruct (f c) as [[] [] [] [] [] [] [] []]; try reflexivity. done.
    + destruct c as [[] [] [] [] [] [] [] []]; try reflexivity. done.
Qed.

Lemma upper_ascii_dot c : upper_ascii c = "."%char ↔ c = "."%char.
Proof. destruct c as [[] [] [] [] [] [] [] []]; split; vm_compute; congruence. Qed.

Lemma lower_ascii_dot c : lower_ascii c = "."%char ↔ c = "."%char.
Proof. destruct c as [[] [] [] [] [] [] [] []]; split; vm_compute; congruence. Qed.

(** X19.  For an extension of ASCII characters, [guess_mimetype] gives
    the same type with or without leading dots and in upper or lower
    case; for the six formats the worker converts to, the type is the
    video type or the audio type of the format, and it is the generic
    one for every other extension. *)
Theorem guess_mimetype_ignores_dots_and_case (ext : string) :
  is_ascii ext = true →
  guess_mimetype ("." +:+ ext) = guess_mimetype ext
  ∧ guess_mimetype (upper ext) = guess_mimetype ext
  ∧ guess_mimetype (lower ext) = guess_mimetype ext
  ∧ (lower (lstrip_dots ext) ∈ ["mp4"; "webm"; "mkv"; "mp3"; "m4a"; "ogg"] ↔
     guess_mimetype ext ≠ "application/octet-stream").
Proof.
  intros _. split; [done|]. split; [|split].
  - assert (Hn : lower (lstrip_dots (upper ext)) = lower (lstrip_dots ext)).
    { unfold upper. rewrite (lstrip_dots_map upper_ascii ext upper_ascii_dot).
      apply lower_upper. }
    unfold guess_mimetype. by rewrite Hn.
  - assert (Hn : lower (lstrip_dots (lower ext)) = lower (lstrip_dots ext)).
    { unfold lower at 2. rewrite (lstrip_dots_map lower_ascii ext lower_ascii_dot).
      apply lower_lower. }
    unfold guess_mimetype. by rewrite Hn.
  - unfold guess_mimetype. set (x := lower (lstrip_dots ext)).
    split.
    + intros Hx. repeat (apply elem_of_cons in Hx as [->|Hx]; [done|]).
      by apply elem_of_nil in Hx.
    + destruct (bool_decide (x ∈ ["mp4"; "webm"])) eqn:Hv.
      { apply bool_decide_eq_true in Hv. intros _. set_solver. }
      destruct (String.eqb x "mkv") eqn:H1;
        [apply String.eqb_eq in H1; intros _; set_solver|].
      destruct (String.eqb x "mp3") eqn:H2;
        [apply String.eqb_eq in H2; intros _; set_solver|].
      destruct (String.eqb x "m4a") eqn:H3;
        [apply String.eqb_eq in H3; intros _; set_solver|].
      destruct (String.eqb x "ogg") eqn:H4;
        [apply String.eqb_eq in H4; intros _; set_solver|].
      done.
Qed.

Lemma guess_mimetype_ignores_dots_and_case_witness :
  guess_mimetype ".MP3" = guess_mimetype "MP3"
  ∧ guess_mimetype "MP3" = guess_mimetype "mp3"
  ∧ guess_mimetype "MP3" ≠ "application/octet-stream".
Proof.
  destruct (guess_mimetype_ignores_dots_and_case "MP3" eq_refl)
    as (Hdot & _ & Hlower & Hknown).
  split; [exact Hdot|]. split; [symmetry; exact Hlower|].
  apply Hknown. vm_compute. set_solver.
Defined.

(** ** The converter *)

Module converter_facts.
Import converter.

Lemma append_cons x (a b : string) : String x a +:+ b = String x (a +:+ b).
Proof. reflexivity. Qed.

Lemma append_assoc (a b c : string) : (a +:+ b) +:+ c = a +:+ (b +:+ c).
Proof. induction a as [|x a IH]; [done|]. rewrite !append_cons. by f_equal. Qed.

Lemma append_nil_r (a : string) : a +:+ "" = a.
Proof. induction a as [|x a IH]; [done|]. rewrite append_cons. by f_equal. Qed.

Lemma length_append (a b : string) :
  String.length (a +:+ b) = String.length a + String.length b.
Proof.
  induction a as [|x a IH]; [done|]. rewrite append_cons. cbn [String.length].
  by rewrite IH.
Qed.

Lemma append_inv_head (a b c : string) : a +:+ b = a +:+ c → b = c.
Proof. apply String.app_inj. Qed.

Lemma contains_append c (a b : string) :
  contains c (a +:+ b) = contains c a || contains c b.
Proof.
  induction a as [|x a IH]; [done|]. rewrite append_cons. cbn [contains].
  by rewrite IH, orb_assoc.
Qed.

(** [after_last] and [before_last] split a string at the last separator. *)
Lemma last_split sep s :
  match after_last sep s with
  | Some t => ∃ pre, before_last sep s = Some pre
                     ∧ s = pre +:+ String sep t
                     ∧ contains sep t = false
  | None => before_last sep s = None ∧ contains sep s = false
  end.
Proof.
  induction s as [|c s IH]; [done|]. cbn [after_last before_last contains].
  destruct (after_last sep s) as [t|].
  - destruct IH as (pre & Hb & Hs & Ht). rewrite Hb. exists (String c pre).
    split; [done|]. split; [|done]. rewrite append_cons. by f_equal.
  - destruct IH as (Hb & Hs). rewrite Hb.
    destruct (Ascii.eqb c sep) eqn:Hc.
    + apply Ascii.eqb_eq in Hc as ->. exists "". by repeat split.
    + by rewrite Hs.
Qed.

Lemma after_last_append sep pre t :
  contains sep t = false → after_last sep (pre +:+ String sep t) = Some t.
Proof.
  intros Ht.
  assert (Hnone : after_last sep t = None).
  { pose proof (last_split sep t) as Hsplit.
    destruct (after_last sep t) as [u|]; [|done].
    destruct Hsplit as (pre' & _ & Heq & _). rewrite Heq, contains_append in Ht.
    cbn in Ht. rewrite Ascii.eqb_refl in Ht. by rewrite orb_true_r in Ht. }
  induction pre as [|c pre IH].
  - change ("" +:+ String sep t) with (String sep t). cbn [after_last].
    by rewrite Hnone, Ascii.eqb_refl.
  - rewrite append_cons. cbn [after_last]. by rewrite IH.
Qed.

Lemma before_last_append sep pre t :
  contains sep t = false → before_last sep (pre +:+ String sep t) = Some pre.
Proof.
  intros Ht.
  assert (Hnone : before_last sep t = None).
  { pose proof (last_split sep t) as Hsplit.
    destruct (after_last sep t) as [u|]; [|by destruct Hsplit].
    destruct Hsplit as (pre' & _ & Heq & _). rewrite Heq, contains_append in Ht.
    cbn in Ht. rewrite Ascii.eqb_refl in Ht. by rewrite orb_true_r in Ht. }
  induction pre as [|c pre IH].
  - change ("" +:+ String sep t) with (String sep t). cbn [before_last].
    by rewrite Hnone, Ascii.eqb_refl.
  - rewrite append_cons. cbn [before_last]. by rewrite IH.
Qed.

Lemma no_separator sep s :
  contains sep s = false → after_last sep s = None ∧ before_last sep s = None.
Proof.
  intros Hs. pose proof (last_split sep s) as Hsplit.
  destruct (after_last sep s) as [t|]; [|by destruct Hsplit].
  destruct Hsplit as (pre & _ & Heq & _). rewrite Heq, contains_append in Hs.
  cbn in Hs. rewrite Ascii.eqb_refl in Hs. by rewrite orb_true_r in Hs.
Qed.

(** A path is its parent followed by its name, and the name holds no
    separator. *)
Lemma path_parts p :
  p = parent p +:+ path_name p ∧ contains "/" (path_name p) = false.
Proof.
  unfold parent, path_name. pose proof (last_split "/" p) as Hsplit.
  destruct (after_last "/" p) as [t|].
  - destruct Hsplit as (d & Hb & Hp & Ht). rewrite Hb. cbn [default].
    split; [|done]. by rewrite append_assoc.
  - destruct Hsplit as [Hb Hp]. by rewrite Hb.
Qed.

(** The parent and the name of a path built from a parent and a name. *)
Lemma path_of_parts p new :
  contains "/" new = false →
  path_name (parent p +:+ new) = new ∧ parent (parent p +:+ new) = parent p.
Proof.
  intros Hnew. unfold parent at 1 3 4.
  destruct (before_last "/" p) as [d|].
  - rewrite append_assoc. change ("/" +:+ new) with (String "/" new).
    unfold path_name, parent.
    by rewrite (after_last_append "/" d new Hnew), (before_last_append "/" d new Hnew).
  - change ("" +:+ new) with new. unfold path_name, parent.
    destruct (no_separator "/" new Hnew) as [-> ->]. done.
Qed.

(** A name is its stem followed by its suffix; a stem is empty only when
    the name is. *)
Lemma name_parts p :
  path_name p = stem p +:+ path_suffix p
  ∧ (stem p = "" → path_name p = "").
Proof.
  unfold stem. unfold path_suffix at 1 2 3.
  pose proof (last_split "." (path_name p)) as Hsplit.
  destruct (path_name p) as [|c nm] eqn:Hname; [done|].
  destruct (after_last "." (String c nm)) as [ext|]; cycle 1.
  { cbn [String.eqb]. by rewrite append_nil_r. }
  destruct Hsplit as (pre & Hb & Hs & _).
  destruct (Ascii.eqb c "." && (String.length ext + 1 =? String.length (String c nm))%nat)
    eqn:Hhidden.
  { cbn [String.eqb]. by rewrite append_nil_r. }
  destruct (String.eqb ext "") eqn:Hext.
  { cbn [String.eqb]. by rewrite append_nil_r. }
  change (String.eqb ("." +:+ ext) "") with false. cbv iota.
  rewrite Hb. cbn [default]. split; [done|].
  cbn [id]. intros ->. change ("" +:+ String "." ext) with (String "." ext) in Hs.
  injection Hs as -> ->.
  cbn [String.length] in Hhidden.
  rewrite Nat.add_1_r, Nat.eqb_refl in Hhidden. done.
Qed.

(** The suffix of a name made of a stem and an extension. *)
Lemma suffix_of_parts p st ext :
  contains "/" st = false → contains "/" ext = false → contains "." ext = false →
  st ≠ "" → ext ≠ "" →
  path_suffix (parent p +:+ (st +:+ String "." ext)) = String "." ext.
Proof.
  intros Hst Hext Hdot Hst' Hext'. unfold path_suffix.
  assert (Hname : contains "/" (st +:+ String "." ext) = false).
  { rewrite contains_append. cbn [contains]. by rewrite Hst, Hext. }
  rewrite (proj1 (path_of_parts p (st +:+ String "." ext) Hname)).
  pose proof (after_last_append "." st ext Hdot) as Hlast.
  pose proof (length_append st (String "." ext)) as Hlen.
  destruct (st +:+ String "." ext) as [|c s] eqn:Heq; [by destruct st|].
  rewrite Hlast.
  replace (String.length ext + 1 =? String.length (String c s))%nat with false; cycle 1.
  { symmetry. apply Nat.eqb_neq. rewrite Hlen. cbn [String.length].
    destruct st; [done|]. cbn [String.length]. lia. }
  rewrite andb_false_r. by rewrite (proj2 (String.eqb_neq ext "") Hext').
Qed.

Lemma formats_plain fmt :
  fmt ∈ formats →
  fmt ≠ "" ∧ lower fmt = fmt ∧ contains "/" fmt = false ∧ contains "." fmt = false
  ∧ fmt ≠ "source"
  ∧ ∃ args, (preset VIDEO_PRESETS fmt = Some args
             ∨ (preset VIDEO_PRESETS fmt = None ∧ preset AUDIO_PRESETS fmt = Some args)).
Proof.
  intros Hfmt. unfold formats in Hfmt.
  repeat (apply elem_of_cons in Hfmt as [->|Hfmt];
          [do 5 (split; [done|]); eexists; (by left) || (by right)|]).
  by apply elem_of_nil in Hfmt.
Qed.

Lemma preset_None presets k : k ∉ presets.*1 → preset presets k = None.
Proof.
  induction presets as [|[k' args] presets IH]; [done|]. cbn [preset fmap list_fmap fst].
  intros Hk. apply not_elem_of_cons in Hk as [Hne Hk].
  rewrite (proj2 (String.eqb_neq k' k)) by done. by apply IH.
Qed.

Lemma formats_only fmt :
  fmt ∉ formats → preset VIDEO_PRESETS fmt = None ∧ preset AUDIO_PRESETS fmt = None.
Proof.
  intros Hfmt. unfold formats in Hfmt.
  split; apply preset_None; cbn; set_solver.
Qed.

Lemma with_name_ValueError p new out :
  with_name p new = Ok out →
  name p ≠ "" ∧ contains "/" new = false ∧ out = parent p +:+ new.
Proof.
  unfold with_name. destruct (String.eqb (name p) "") eqn:Hn; [done|].
  apply String.eqb_neq in Hn.
  destruct (String.eqb new "" || contains "/" new || String.eqb new ".") eqn:Hv; [done|].
  intros [= <-]. split; [done|]. split; [|done].
  apply orb_false_iff in Hv as [Hv _]. by apply orb_false_iff in Hv as [_ ?].
Qed.

Lemma name_path_name p : name p ≠ "" → name p = path_name p.
Proof. unfold name. by destruct (String.eqb p "."). Qed.

Section ffmpeg_facts.
Variable ffmpeg : list string → Z.

(** Where [convert_any] writes for a format that has a preset. *)
Lemma output_path input fmt :
  fmt ∈ formats → name input ≠ "" →
  ∃ output,
    (if String.eqb (lower (path_suffix input)) ("." +:+ fmt)
     then with_name input (stem input +:+ "_conv." +:+ fmt)
     else with_suffix input ("." +:+ fmt)) = Ok output
    ∧ output ≠ input
    ∧ parent output = parent input
    ∧ path_suffix output = "." +:+ fmt.
Proof.
  intros Hfmt Hname.
  destruct (formats_plain fmt Hfmt) as (Hne & Hlow & Hslash & Hdot & _ & _).
  destruct (path_parts input) as [Hinput Hnoslash].
  destruct (name_parts input) as [Hparts Hstem].
  assert (Hpname : path_name input ≠ "")
    by by rewrite <- (name_path_name input Hname).
  assert (Hst : contains "/" (stem input) = false).
  { rewrite Hparts, contains_append in Hnoslash. by apply orb_false_iff in Hnoslash as [? _]. }
  assert (Hst' : stem input ≠ "") by (intros H; by apply Hpname, Hstem).
  destruct (String.eqb (lower (path_suffix input)) ("." +:+ fmt)) eqn:Hsame.
  - apply String.eqb_eq in Hsame.
    exists (parent input +:+ (stem input +:+ "_conv." +:+ fmt)).
    assert (Hnew : contains "/" (stem input +:+ "_conv." +:+ fmt) = false).
    { by rewrite !contains_append, Hst, Hslash. }
    split; [|split; [|split]].
    + unfold with_name. rewrite (proj2 (String.eqb_neq (name input) "") Hname).
      rewrite Hnew.
      replace (String.eqb (stem input +:+ "_conv." +:+ fmt) "") with false
        by (symmetry; apply String.eqb_neq; by destruct (stem input)).
      replace (String.eqb (stem input +:+ "_conv." +:+ fmt) ".") with false; [done|].
      symmetry. apply String.eqb_neq. intros Heq.
      apply (f_equal String.length) in Heq. rewrite !length_append in Heq.
      cbn [String.length] in Heq. lia.
    + intros Heq.
      assert (Heq' : parent input +:+ (stem input +:+ "_conv." +:+ fmt)
                     = parent input +:+ path_name input) by by rewrite <- Hinput.
      clear Heq. apply append_inv_head in Heq'. rename Heq' into Heq.
      apply (f_equal String.length) in Heq.
      rewrite Hparts, !length_append in Heq.
      assert (Hlen : String.length (path_suffix input) = String.length ("." +:+ fmt)).
      { rewrite <- Hsame. unfold lower. clear.
        induction (path_suffix input) as [|c s IH]; [done|]. cbn. by rewrite IH. }
      rewrite Hlen, !length_append in Heq. cbn [String.length] in Heq. lia.
    + by apply path_of_parts.
    + change (stem input +:+ "_conv." +:+ fmt)
        with (stem input +:+ ("_conv" +:+ String "." fmt)).
      rewrite <- (append_assoc (stem input) "_conv" (String "." fmt)).
      apply (suffix_of_parts input (stem input +:+ "_conv") fmt); try done.
      * by rewrite contains_append, Hst.
      * by destruct (stem input).
  - apply String.eqb_neq in Hsame.
    exists (parent input +:+ (stem input +:+ String "." fmt)).
    split; [|split; [|split]].
    + unfold with_suffix. change ("." +:+ fmt) with (String "." fmt). cbn.
      rewrite Hslash, (proj2 (String.eqb_neq fmt "") Hne).
      rewrite (proj2 (String.eqb_neq (name input) "") Hname). by destruct fmt.
    + intros Heq.
      assert (Heq' : parent input +:+ (stem input +:+ String "." fmt)
                     = parent input +:+ path_name input) by by rewrite <- Hinput.
      clear Heq. apply append_inv_head in Heq'. rename Heq' into Heq.
      rewrite Hparts in Heq. apply append_inv_head in Heq.
      apply Hsame. rewrite <- Heq. change (String "." fmt) with ("." +:+ fmt).
      unfold lower. change (map_string lower_ascii ("." +:+ fmt))
        with ("." +:+ lower fmt). by rewrite Hlow.
    + apply path_of_parts. rewrite contains_append, Hst. cbn [contains].
      by rewrite Hslash.
    + by apply suffix_of_parts.
Qed.

End ffmpeg_facts.

(** X20.  [convert_any] to a format that has a preset, on a path with a
    name: ffmpeg is run once, on the input, with the arguments of the
    preset and with [-y]; the file it writes is never the input: it lies
    in the same directory, under another name, and its extension is the
    format's, so that [guess_mimetype] gives the format's type for it.
    The call returns that path when ffmpeg returns 0 and raises
    [RuntimeError] otherwise. *)
Theorem convert_any_writes_beside_the_input
    (ffmpeg : list string → Z) (input target : string) (log : list (list string)) :
  lower target ∈ formats → name input ≠ "" →
  ∃ output args,
    convert_any ffmpeg input target log
    = (if (ffmpeg (command input output args) =? 0)%Z then Ok output
       else Raise (RuntimeError "ffmpeg conversion failed"),
       log ++ [command input output args])
    ∧ (preset VIDEO_PRESETS (lower target) = Some args
       ∨ preset AUDIO_PRESETS (lower target) = Some args)
    ∧ output ≠ input
    ∧ parent output = parent input
    ∧ path_suffix output = "." +:+ lower target
    ∧ guess_mimetype (path_suffix output) = guess_mimetype (lower target).
Proof.
  intros Hfmt Hname.
  destruct (formats_plain _ Hfmt) as (Hne & _ & _ & _ & Hsrc & args & Hargs).
  destruct (output_path input (lower target) Hfmt Hname)
    as (output & Hout & Hdiff & Hparent & Hsuffix).
  exists output, args. split; [|split; [|split; [|split; [|split]]]]; try done.
  - unfold convert_any. cbv zeta.
    rewrite (proj2 (String.eqb_neq _ _) Hsrc), (proj2 (String.eqb_neq _ _) Hne).
    cbn [orb]. rewrite Hout. unfold run_ffmpeg.
    destruct Hargs as [->|[-> ->]]; by destruct (_ =? _)%Z.
  - destruct Hargs as [?|[_ ?]]; [by left|by right].
  - by rewrite Hsuffix.
Qed.

Lemma convert_any_writes_beside_the_input_witness :
  ∃ args,
    convert_any (λ _, 0%Z) "temp/job1/Sample Video.mp4" "MP4" []
    = (Ok "temp/job1/Sample Video_conv.mp4",
       [command "temp/job1/Sample Video.mp4" "temp/job1/Sample Video_conv.mp4" args]).
Proof.
  destruct (convert_any_writes_beside_the_input (λ _, 0%Z)
              "temp/job1/Sample Video.mp4" "MP4" [])
    as (output & args & Hrun & _).
  - vm_compute. set_solver.
  - discriminate.
  - exists args. rewrite Hrun. cbn [Z.eqb app].
    assert (Hout : output = "temp/job1/Sample Video_conv.mp4").
    { vm_compute in Hrun. congruence. }
    by subst output.
Defined.

(** X21.  [convert_any] without ffmpeg.  For the format ["source"] or
    the empty one, in any case of letters, the input path is returned and
    nothing is run.  For any other format of ASCII characters that has no
    preset, and for a path without a name, [ValueError] is raised and
    nothing is run. *)
Theorem convert_any_without_ffmpeg
    (ffmpeg : list string → Z) (input target : string) (log : list (list string)) :
  (lower target = "source" ∨ lower target = "" →
   convert_any ffmpeg input target log = (Ok input, log))
  ∧ (is_ascii target = true ∧ lower target ∉ "source" :: "" :: formats
     ∨ name input = "" →
     lower target ≠ "source" → lower target ≠ "" →
     ∃ msg, convert_any ffmpeg input target log = (Raise (ValueError msg), log)).
Proof.
  unfold convert_any. cbv zeta. split.
  - intros [-> | ->]; done.
  - intros Hcase Hsrc Hne.
    rewrite (proj2 (String.eqb_neq _ _) Hsrc), (proj2 (String.eqb_neq _ _) Hne).
    cbn [orb].
    destruct (if String.eqb (lower (path_suffix input)) ("." +:+ lower target)
              then with_name input (stem input +:+ "_conv." +:+ lower target)
              else with_suffix input ("." +:+ lower target)) as [out|exc] eqn:Hout.
    + destruct Hcase as [[_ Hfmt]|Hname].
      * destruct (formats_only (lower target)) as [-> ->]; [set_solver|by eexists].
      * exfalso. unfold with_name, with_suffix in Hout. rewrite Hname in Hout.
        cbn [String.eqb] in Hout.
        destruct (String.eqb (lower (path_suffix input)) ("." +:+ lower target));
          [done|]. by destruct (_ || _).
    + exists (str_exn exc). f_equal. f_equal.
      unfold with_name, with_suffix in Hout.
      destruct (String.eqb (lower (path_suffix input)) ("." +:+ lower target)).
      * destruct (String.eqb (name input) ""); [by injection Hout as <-|].
        destruct (_ || _); [by injection Hout as <-|done].
      * destruct (_ || _); [by injection Hout as <-|].
        destruct (String.eqb (name input) ""); [by injection Hout as <-|done].
Qed.

Lemma convert_any_without_ffmpeg_witness :
  convert_any (λ _, 1%Z) "temp/job1/clip.webm" "Source" [] = (Ok "temp/job1/clip.webm", [])
  ∧ ∃ msg, convert_any (λ _, 0%Z) "temp/job1/clip.webm" "flac" []
           = (Raise (ValueError msg), []).
Proof.
  destruct (convert_any_without_ffmpeg (λ _, 1%Z) "temp/job1/clip.webm" "Source" [])
    as [Hsource _].
  destruct (convert_any_without_ffmpeg (λ _, 0%Z) "temp/job1/clip.webm" "flac" [])
    as [_ Hflac].
  split.
  - apply Hsource. by left.
  - apply Hflac; [left; split; [reflexivity|vm_compute; set_solver]
                 |discriminate|discriminate].
Defined.

End converter_facts.

(** ** The size limits *)

(** The hundredths [_bytes_to_mb] gives lie next to the exact quotient. *)
Lemma bytes_to_mb_bounds bytes :
  ∃ q r, (bytes * 100 = q * 1048576 + r)%Z ∧ (0 ≤ r < 1048576)%Z
         ∧ ((r < 524288)%Z → _bytes_to_mb bytes = q)
         ∧ ((524288 < r)%Z → _bytes_to_mb bytes = (q + 1)%Z)
         ∧ (q ≤ _bytes_to_mb bytes ≤ q + 1)%Z.
Proof.
  exists (bytes * 100 / 1048576)%Z, (bytes * 100 mod 1048576)%Z.
  pose proof (Z.div_mod (bytes * 100) 1048576 ltac:(lia)) as Hdiv.
  pose proof (Z.mod_pos_bound (bytes * 100) 1048576 ltac:(lia)) as Hr.
  split; [lia|]. split; [done|]. unfold _bytes_to_mb. cbv zeta.
  destruct (Z.ltb_spec (bytes * 100 mod 1048576) 524288);
    [repeat split; intros; lia|].
  destruct (Z.ltb_spec 524288 (bytes * 100 mod 1048576));
    [repeat split; intros; lia|].
  destruct (Z.even _); repeat split; intros; lia.
Qed.

(** X22.  [ensure_size_within_limit], in bytes.  With a limit that is
    not negative, a file of at most [max_size_mb] MiB passes, and a file
    that exceeds the limit by 5243 bytes or more (half a hundredth of a
    MiB, the precision of the rounding) is refused with [ValueError]; an
    empty file passes whatever the limit.  An exception of [stat] leaves
    the function as it is. *)
Theorem ensure_size_within_limit_in_bytes (e : env) (path : string) (max_size_mb : Z) :
  (∀ bytes, st_size e path = Ok bytes → (0 ≤ max_size_mb)%Z →
            (bytes ≤ max_size_mb * 1048576)%Z →
            ensure_size_within_limit e path max_size_mb = Ok tt)
  ∧ (∀ bytes, st_size e path = Ok bytes → (0 ≤ max_size_mb)%Z →
              (max_size_mb * 1048576 + 5243 ≤ bytes)%Z →
              ∃ msg, ensure_size_within_limit e path max_size_mb
                     = Raise (ValueError msg))
  ∧ (st_size e path = Ok 0%Z → ensure_size_within_limit e path max_size_mb = Ok tt)
  ∧ (∀ exc, st_size e path = Raise exc →
            ensure_size_within_limit e path max_size_mb = Raise exc).
Proof.
  unfold ensure_size_within_limit. split; [|split; [|split]].
  - intros bytes -> Hmax Hle.
    destruct (bytes_to_mb_bounds bytes) as (q & r & Hdiv & Hr & Hlow & Hhigh & Hnear).
    assert ((_bytes_to_mb bytes ≤ max_size_mb * 100)%Z).
    { destruct (decide (r < 524288)%Z); [specialize (Hlow ltac:(lia))|]; lia. }
    rewrite (proj2 (Z.ltb_ge _ _)) by lia. by rewrite andb_false_r.
  - intros bytes -> Hmax Hge.
    destruct (bytes_to_mb_bounds bytes) as (q & r & Hdiv & Hr & Hlow & Hhigh & Hnear).
    assert ((max_size_mb * 100 + 1 ≤ _bytes_to_mb bytes)%Z).
    { destruct (decide (524288 < r)%Z); [specialize (Hhigh ltac:(lia))|]; lia. }
    rewrite (proj2 (Z.eqb_neq _ 0)) by lia.
    rewrite (proj2 (Z.ltb_lt _ _)) by lia. by eexists.
  - by intros ->.
  - by intros exc ->.
Qed.

Lemma ensure_size_within_limit_in_bytes_witness :
  ensure_size_within_limit source_env "./temp/job1/Sample Video.webm" 500 = Ok tt.
Proof.
  destruct (ensure_size_within_limit_in_bytes source_env
              "./temp/job1/Sample Video.webm" 500) as [Hpass _].
  apply (Hpass 1048576%Z); [reflexivity|lia|lia].
Defined.

(** X23.  The size estimate gates the download.  For a payload that
    passes the checks of URL and format, with a quality that can be
    looked up, and a [probe] that returns metadata: when the estimate (in
    hundredths of a MiB) exceeds the limit, the job ends in error right
    after the metadata were stored and no download is started; when the
    metadata carry no estimate, or one within the limit, the download is
    started. *)
Theorem size_estimate_gates_the_download
    (e : env) (job_id : string) (payload : value) (w : string)
    (height meta : value) :
  truthy (dict_get payload "url") = true →
  wanted payload = VStr w → lower w ∈ ALLOWED_FORMATS →
  quality_to_height (quality_of payload) = Ok height →
  probe e (dict_get payload "url") height = Ok meta →
  let starts := ∃ rest, pipeline_writes e job_id payload
                        = (Ok tt, [w_fetching; w_meta meta; w_downloading] ++ rest) in
  match dict_get meta "estimated_size_mb" with
  | VNum est =>
      if (max_file_size_mb e * 100 <? est)%Z
      then ∃ msg, pipeline_writes e job_id payload
                  = (Ok tt, [w_fetching; w_meta meta; w_error msg msg])
      else starts
  | _ => starts
  end.
Proof.
  intros Hurl Hw Hallowed Hheight Hprobe starts.
  destruct (process_way e job_id payload) as (o & Hway & Hrun).
  assert (Hwrites : pipeline_writes e job_id payload = (outcome_result o, outcome_writes o)).
  { unfold pipeline_writes. by rewrite Hrun, replay_record_call. }
  assert (Hcases :
    match check_size_or_fail (dict_get meta "estimated_size_mb")
            (max_file_size_mb e) with
    | Raise exc => pipeline_writes e job_id payload
                   = (Ok tt, [w_fetching; w_meta meta; w_failed exc])
    | Ok _ => starts
    end).
  { unfold way in Hway. cbv zeta in Hway. rewrite Hheight in Hway.
    assert (Hstarts : ∀ ps rest,
      pipeline_writes e job_id payload
      = (Ok tt, downloading_writes meta ps ++ rest) → starts).
    { intros ps rest Heq. unfold starts. rewrite Heq. unfold downloading_writes.
      rewrite <- app_assoc. by eexists. }
    destruct o; cbn [outcome_result outcome_writes] in Hwrites.
    - destruct Hway as [_ Hno]. congruence.
    - destruct Hway as (_ & w' & Hw' & -> & Hnot). congruence.
    - destruct Hway as [Hnot|(_ & [Hnot|(w' & _ & _ & Hraise)])].
      + destruct payload; try done. by destruct (Hnot kvs).
      + by destruct (Hnot w).
      + discriminate.
    - destruct Hway as (_ & w' & _ & _ & h & [= <-] & Hp). congruence.
    - destruct Hway as (_ & w' & _ & _ & h & [= <-] & Hp & Hs).
      assert (meta0 = meta) as -> by congruence. by rewrite Hs.
    - destruct Hway as (_ & w' & _ & _ & h & [= <-] & Hp & Hs & _).
      assert (meta0 = meta) as -> by congruence. rewrite Hs. by eapply Hstarts.
    - destruct Hway as (_ & w' & _ & _ & h & [= <-] & Hp & Hs & _).
      assert (meta0 = meta) as -> by congruence. rewrite Hs. by eapply Hstarts.
    - destruct Hway as (_ & w' & _ & _ & h & [= <-] & Hp & Hs & _).
      assert (meta0 = meta) as -> by congruence. rewrite Hs. by eapply Hstarts.
    - destruct Hway as (_ & w' & _ & _ & h & [= <-] & Hp & Hs & _).
      assert (meta0 = meta) as -> by congruence. rewrite Hs. by eapply Hstarts. }
  unfold check_size_or_fail in Hcases.
  destruct (dict_get meta "estimated_size_mb") as [|est| |]; try done.
  destruct (max_file_size_mb e * 100 <? est)%Z; [|done]. by eexists.
Qed.

Lemma size_estimate_gates_the_download_witness :
  ∃ rest, pipeline_writes source_env "job1" (sample_payload "source")
          = (Ok tt, [w_fetching; w_meta sample_meta; w_downloading] ++ rest).
Proof.
  exact (size_estimate_gates_the_download source_env "job1" (sample_payload "source")
           "source" (VNum 720) sample_meta eq_refl eq_refl
           ltac:(vm_compute; set_solver) eq_refl eq_refl).
Defined.

(** ** The pipeline with the converter *)

Lemma convert_any_Ok (ffmpeg : list string → Z) input fmt log out :
  fmt ∈ converter.formats →
  (converter.convert_any ffmpeg input fmt log).1 = Ok out →
  out ≠ input ∧ path_suffix out = "." +:+ fmt.
Proof.
  intros Hfmt.
  destruct (converter_facts.formats_plain fmt Hfmt)
    as (Hne & Hlow & _ & _ & Hsrc & args & Hargs).
  unfold converter.convert_any. cbv zeta. rewrite Hlow.
  rewrite (proj2 (String.eqb_neq _ _) Hsrc), (proj2 (String.eqb_neq _ _) Hne).
  cbn [orb].
  destruct (decide (converter.name input = "")) as [Hname|Hname].
  { unfold converter.with_name, converter.with_suffix. rewrite Hname.
    cbn [String.eqb].
    destruct (String.eqb (lower (path_suffix input)) ("." +:+ fmt)); [done|].
    by destruct (_ || _). }
  destruct (converter_facts.output_path input fmt Hfmt Hname)
    as (output & -> & Hdiff & _ & Hsuffix).
  unfold converter.run_ffmpeg.
  destruct Hargs as [->|[-> ->]]; destruct (_ =? _)%Z; cbn [fst]; try done;
    by intros [= <-].
Qed.

Lemma allowed_format fmt :
  fmt ∈ ALLOWED_FORMATS → fmt ≠ "source" → fmt ∈ converter.formats.
Proof.
  intros Hfmt Hsrc. unfold ALLOWED_FORMATS in Hfmt. unfold converter.formats.
  repeat (apply elem_of_cons in Hfmt as [->|Hfmt]; [first [done|set_solver]|]).
  by apply elem_of_nil in Hfmt.
Qed.

Lemma w_done_file_path meta meta' path path' :
  w_done meta path = w_done meta' path' → path = path'.
Proof.
  intros Heq. apply (f_equal (λ r : record, r !! "file_path")) in Heq.
  change (Some (VStr path) = Some (VStr path')) in Heq. congruence.
Qed.

Lemma w_done_not_error meta path message error :
  w_done meta path ≠ w_error message error.
Proof.
  intros Heq. apply (f_equal (λ r : record, r !! "status")) in Heq.
  change (Some (VStr "done") = Some (VStr "error")) in Heq. congruence.
Qed.

(** X24.  A job that asked for a format other than [source] and ended
    done has a file of that format: when the worker converts with
    [convert_any] as above, the last write of a run being [done] means
    that the format asked for is one of the six with a preset, that the
    file recorded has that format as its extension and is not the file
    downloaded, and that the media type recorded is the format's, not the
    generic one. *)
Theorem converted_job_has_the_format_asked_for
    (e : env) (ffmpeg : list string → Z) (job_id : string) (payload : value)
    (w : string) (l : list record) (meta : value) (final : string) :
  (∀ p fmt, convert_any e p fmt = (converter.convert_any ffmpeg p fmt []).1) →
  wanted payload = VStr w → lower w ≠ "source" →
  pipeline_writes e job_id payload = (Ok tt, l ++ [w_done meta final]) →
  lower w ∈ converter.formats
  ∧ path_suffix final = "." +:+ lower w
  ∧ w_done meta final !! "mimetype" = Some (VStr (guess_mimetype (lower w)))
  ∧ guess_mimetype (lower w) ≠ "application/octet-stream"
  ∧ ∃ source, (download_outcome e (dict_get payload "url")).1 = Ok source
              ∧ final ≠ source.
Proof.
  intros Hconv Hw Hsrc Hwrites.
  destruct (process_way e job_id payload) as (o & Hway & Hrun).
  unfold pipeline_writes in Hwrites. rewrite Hrun, replay_record_call in Hwrites.
  cbn [app] in Hwrites. injection Hwrites as _ Hlast.
  apply (f_equal last) in Hlast. rewrite last_snoc in Hlast.
  unfold way in Hway. cbv zeta in Hway.
  assert (Hfailed : ∀ l0 exc, last (l0 ++ [w_failed exc]) ≠ Some (w_done meta final)).
  { intros l0 exc. rewrite last_snoc. intros Heq.
    assert (Heq' : w_done meta final = w_failed exc) by congruence.
    exact (w_done_not_error _ _ _ _ Heq'). }
  assert (Hfirst : ∀ message error,
            Some (w_error message error) ≠ Some (w_done meta final)).
  { intros message error Heq.
    assert (Heq' : w_done meta final = w_error message error) by congruence.
    exact (w_done_not_error _ _ _ _ Heq'). }
  destruct o as [|want|exc|exc|meta' exc|meta' ps exc|meta' ps path
                |meta' ps want exc|meta' ps want path]; cbn [outcome_writes] in Hlast.
  - by destruct (Hfirst _ _ Hlast).
  - by destruct (Hfirst _ _ Hlast).
  - done.
  - by destruct (Hfailed [w_fetching] exc).
  - by destruct (Hfailed [w_fetching; w_meta meta'] exc).
  - by destruct (Hfailed (downloading_writes meta' ps) exc).
  - destruct Hway as (_ & w' & Hw' & _ & h & _ & _ & _ & _ & _ & Hsource).
    rewrite Hw in Hw'. injection Hw' as <-. done.
  - destruct (Hfailed (downloading_writes meta' ps ++ [w_converting want]) exc).
    by rewrite <- app_assoc.
  - destruct Hway
      as (_ & w' & Hw' & Hallowed & h & _ & _ & _ & -> & _ & source & Hdl & _ & Hc).
    rewrite Hw in Hw'. injection Hw' as <-.
    change (downloading_writes meta' ps ++ [w_converting (lower w); w_done meta' path])
      with (downloading_writes meta' ps ++ [w_converting (lower w)] ++ [w_done meta' path])
      in Hlast.
    rewrite app_assoc, last_snoc in Hlast.
    assert (Hdone : w_done meta' path = w_done meta final) by congruence.
    apply w_done_file_path in Hdone as ->.
    assert (Hfmt : lower w ∈ converter.formats).
      by by apply allowed_format.
    rewrite Hconv in Hc.
    destruct (convert_any_Ok ffmpeg source (lower w) [] final Hfmt Hc) as [Hdiff Hsuffix].
    split; [done|]. split; [done|].
    assert (Hmime : guess_mimetype (path_suffix final) = guess_mimetype (lower w))
      by by rewrite Hsuffix.
    split; [by rewrite <- Hmime|]. split.
    + unfold converter.formats in Hfmt.
      repeat (apply elem_of_cons in Hfmt as [->|Hfmt]; [done|]).
      by apply elem_of_nil in Hfmt.
    + exists source. by rewrite Hdl.
Qed.

Lemma converted_job_has_the_format_asked_for_witness :
  let ffmpeg := λ _ : list string, 0%Z in
  let e := {| max_file_size_mb := 500; tmp_dir := "temp";
              url_allowed := λ _, true;
              probe := λ _ _, Ok sample_meta;
              ydl_download := λ _ _, ([], Ok "temp/job1/Sample Video.webm");
              st_size := λ _, Ok 1048576%Z;
              convert_any := λ p fmt, (converter.convert_any ffmpeg p fmt []).1;
              percent_of := percent |} in
  w_done sample_meta "temp/job1/Sample Video.mp3" !! "mimetype"
  = Some (VStr (guess_mimetype "mp3")).
Proof.
  intros ffmpeg e.
  destruct (converted_job_has_the_format_asked_for e ffmpeg "job1"
              (sample_payload "MP3") "MP3"
              [w_fetching; w_meta sample_meta; w_downloading; w_converting "mp3"]
              sample_meta "temp/job1/Sample Video.mp3")
    as (_ & _ & Hmime & _).
  - reflexivity.
  - reflexivity.
  - discriminate.
  - reflexivity.
  - exact Hmime.
Defined.

(** ** The loop of [cleanup_expired_files] and the sweep *)

Module cleanup_loop_facts.
Import cleanup cleanup_loop.

Lemma iter_dir m entries :
  _iter_all_paths (Dir m entries) = blocks (map_to_list entries).
Proof.
  cbn [_iter_all_paths]. rewrite map_fold_foldr. unfold blocks, block.
  induction (map_to_list entries) as [|[name child] l IH]; [done|].
  cbn [foldr uncurry fst snd]. by rewrite IH.
Qed.

Lemma block_eq name child :
  block name child = map (cons name) (_iter_all_paths child) ++ [[name]].
Proof. unfold block. by destruct child. Qed.

Lemma elem_of_block p name child :
  p ∈ block name child ↔
  p = [name] ∨ ∃ q, p = name :: q ∧ q ∈ _iter_all_paths child.
Proof.
  rewrite block_eq, elem_of_app, list_elem_of_singleton, list_elem_of_fmap.
  split.
  - intros [(q & -> & Hq)| ->]; [right; by exists q|by left].
  - intros [->|(q & -> & Hq)]; [by right|left; by exists q].
Qed.

Lemma elem_of_blocks p children :
  p ∈ blocks children ↔
  ∃ name child, (name, child) ∈ children ∧ p ∈ block name child.
Proof.
  unfold blocks. induction children as [|[name child] l IH]; cbn [foldr fst snd].
  - split; [by intros ?%elem_of_nil|]. by intros (? & ? & ?%elem_of_nil & _).
  - rewrite elem_of_app, IH. split.
    + intros [Hp|(name' & child' & Hin & Hp)].
      * exists name, child. split; [by left|done].
      * exists name', child'. split; [by right|done].
    + intros (name' & child' & Hin & Hp).
      apply elem_of_cons in Hin as [[= -> ->]|Hin]; [by left|].
      right. by exists name', child'.
Qed.

(** What is yielded: the paths of the entries below the directory. *)
Lemma elem_of_iter n : ∀ p,
  p ∈ _iter_all_paths n ↔ p ≠ [] ∧ is_Some (lookup_path n p).
Proof.
  induction n as [m|m entries IH] using cleanup_facts.node_induction; intros p.
  - cbn [_iter_all_paths]. split; [by intros ?%elem_of_nil|].
    intros [Hne [x Hx]]. by destruct p.
  - rewrite iter_dir, elem_of_blocks. split.
    + intros (name & child & Hin & Hp).
      apply elem_of_map_to_list in Hin. apply elem_of_block in Hp.
      destruct Hp as [->|(q & -> & Hq)].
      * split; [done|]. cbn. rewrite Hin. by eexists.
      * split; [done|]. cbn [lookup_path]. rewrite Hin.
        by apply (IH name child Hin q).
    + intros [Hne Hp]. destruct p as [|name q]; [done|].
      cbn [lookup_path] in Hp.
      destruct (entries !! name) as [child|] eqn:Hchild; [|by destruct Hp].
      exists name, child. split; [by apply elem_of_map_to_list|].
      apply elem_of_block. destruct q as [|x q]; [by left|].
      right. exists (x :: q). split; [done|].
      by apply (IH name child Hchild (x :: q)).
Qed.

Lemma iter_nonempty n : Forall (λ p, p ≠ []) (_iter_all_paths n).
Proof. apply Forall_forall. intros p Hp. by apply elem_of_iter in Hp as [? _]. Qed.

Lemma block_head p name child : p ∈ block name child → head p = Some name.
Proof. intros [->|(q & -> & _)]%elem_of_block; done. Qed.

Lemma NoDup_blocks children :
  NoDup children.*1 →
  (∀ name child, (name, child) ∈ children → NoDup (_iter_all_paths child)) →
  NoDup (blocks children).
Proof.
  unfold blocks. induction children as [|[name child] l IH];
    cbn [foldr fmap list_fmap fst snd]; [constructor|].
  intros [Hname Hl]%NoDup_cons Hchildren.
  apply NoDup_app. split; [|split].
  - rewrite block_eq. apply NoDup_app. split; [|split].
    + apply NoDup_fmap_2; [intros ?? [= ?]; done|].
      apply (Hchildren name child). by left.
    + intros p (q & -> & Hq)%list_elem_of_fmap [= ->]%list_elem_of_singleton.
      by apply elem_of_iter in Hq as [? _].
    + apply NoDup_singleton.
  - intros p Hp Hrest. apply block_head in Hp.
    apply elem_of_blocks in Hrest as (name' & child' & Hin & Hp').
    apply block_head in Hp'. rewrite Hp in Hp'. injection Hp' as <-.
    apply Hname. apply list_elem_of_fmap. by exists (name, child').
  - apply IH; [done|]. intros name' child' Hin. apply (Hchildren name' child').
    by right.
Qed.

Lemma not_below_other p x name name' :
  head p = Some name → head x = Some name' → name ≠ name' → ¬ below p x.
Proof.
  intros Hp Hx Hne (q & _ & ->). destruct p as [|a p]; [done|].
  cbn in Hp, Hx. congruence.
Qed.

Lemma sorted_blocks children :
  NoDup children.*1 →
  (∀ name child, (name, child) ∈ children →
     StronglySorted (λ p x, ¬ below p x) (_iter_all_paths child)) →
  StronglySorted (λ p x, ¬ below p x) (blocks children).
Proof.
  unfold blocks. induction children as [|[name child] l IH];
    cbn [foldr fmap list_fmap fst snd]; [constructor|].
  intros [Hname Hl]%NoDup_cons Hchildren.
  apply StronglySorted_app. split; [|split].
  - intros p x Hp Hx. apply block_head in Hp.
    apply elem_of_blocks in Hx as (name' & child' & Hin & Hx).
    apply block_head in Hx. apply (not_below_other p x name name' Hp Hx).
    intros <-. apply Hname. apply list_elem_of_fmap. by exists (name, child').
  - rewrite block_eq. apply StronglySorted_app. split; [|split].
    + intros p x (q & -> & Hq)%list_elem_of_fmap ->%list_elem_of_singleton
        (r & Hr & Heq).
      apply elem_of_iter in Hq as [Hq _]. destruct q; [done|].
      apply (f_equal length) in Heq. rewrite length_app in Heq. cbn in Heq. lia.
    + eapply StronglySorted_fmap; [|apply (Hchildren name child); by left].
      intros p x Hpx (q & Hq & Heq). apply Hpx. exists q. split; [done|].
      cbn in Heq. by injection Heq.
    + repeat constructor.
  - apply IH; [done|]. intros name' child' Hin. apply (Hchildren name' child').
    by right.
Qed.

(** X25.  [_iter_all_paths] on a directory tree yields the path of every
    entry below the directory, at any depth, and nothing else: not the
    directory itself, no path twice; and it yields an entry only after
    everything that lies below it. *)
Theorem iter_all_paths_postorder (directory : node) :
  (∀ p, p ∈ _iter_all_paths directory ↔
        p ≠ [] ∧ is_Some (lookup_path directory p))
  ∧ NoDup (_iter_all_paths directory)
  ∧ StronglySorted (λ p x, ¬ below p x) (_iter_all_paths directory).
Proof.
  split; [apply elem_of_iter|].
  induction directory as [m|m entries IH] using cleanup_facts.node_induction.
  - split; constructor.
  - rewrite iter_dir. split.
    + apply NoDup_blocks; [apply NoDup_fst_map_to_list|].
      intros name child Hin%elem_of_map_to_list. by apply (IH name child).
    + apply sorted_blocks; [apply NoDup_fst_map_to_list|].
      intros name child Hin%elem_of_map_to_list. by apply (IH name child).
Qed.

(** *** The loop computes the sweep *)

Section loop.
Variable now ttl : Z.

Lemma sweep_swept n :
  sweep now ttl n
  = if (ttl <? now - mtime_of (swept now ttl n))%Z then None
    else Some (swept now ttl n).
Proof.
  destruct n as [m|m entries].
  - apply cleanup_facts.sweep_file.
  - apply cleanup_facts.sweep_dir.
Qed.

Lemma visit_deep m0 (es0 : gmap string node) name child p :
  es0 !! name = Some child → p ≠ [] →
  visit now ttl (Dir m0 es0) (name :: p)
  = Dir m0 (<[name := visit now ttl child p]> es0).
Proof.
  intros Hchild Hp. unfold visit, st_mtime. cbn [lookup_path]. rewrite Hchild.
  destruct (lookup_path child p) as [x|]; cbn [fmap option_fmap option_map].
  - destruct (ttl <? now - mtime_of x)%Z.
    + cbn [delete_at]. rewrite Hchild. by destruct p.
    + by rewrite insert_id.
  - by rewrite insert_id.
Qed.

Lemma fold_deep m0 name ps : ∀ (es0 : gmap string node) child,
  es0 !! name = Some child → Forall (λ p, p ≠ []) ps →
  foldl (visit now ttl) (Dir m0 es0) (map (cons name) ps)
  = Dir m0 (<[name := foldl (visit now ttl) child ps]> es0).
Proof.
  induction ps as [|p ps IH]; intros es0 child Hchild Hps; cbn [map foldl].
  - by rewrite insert_id.
  - apply Forall_cons in Hps as [Hp Hps].
    rewrite (visit_deep m0 es0 name child p Hchild Hp).
    rewrite (IH _ (visit now ttl child p)); [|by rewrite lookup_insert_eq|done].
    by rewrite insert_insert_eq.
Qed.

Lemma visit_top m0 (es0 : gmap string node) name child :
  es0 !! name = Some child →
  visit now ttl (Dir m0 es0) [name]
  = if (ttl <? now - mtime_of child)%Z then Dir now (delete name es0)
    else Dir m0 es0.
Proof.
  intros Hchild. unfold visit, st_mtime. cbn [lookup_path]. rewrite Hchild.
  cbn [fmap option_fmap option_map].
  destruct (ttl <? now - mtime_of child)%Z; [|done].
  cbn [delete_at]. by rewrite Hchild, cleanup_facts.delete_path_all.
Qed.

(** The paths of one child, handled in order. *)
Lemma fold_block m0 (es0 : gmap string node) name child :
  es0 !! name = Some child →
  foldl (visit now ttl) child (_iter_all_paths child) = swept now ttl child →
  foldl (visit now ttl) (Dir m0 es0) (block name child)
  = match sweep now ttl child with
    | Some child' => Dir m0 (<[name := child']> es0)
    | None => Dir now (delete name es0)
    end.
Proof.
  intros Hchild Hbelow. rewrite block_eq, foldl_app.
  rewrite (fold_deep m0 name _ es0 child Hchild (iter_nonempty child)), Hbelow.
  cbn [foldl].
  rewrite (visit_top m0 _ name (swept now ttl child)) by by rewrite lookup_insert_eq.
  rewrite sweep_swept.
  destruct (ttl <? now - mtime_of (swept now ttl child))%Z; [|done].
  by rewrite delete_insert_eq.
Qed.

Lemma fold_blocks children : ∀ m0 (es0 : gmap string node),
  NoDup children.*1 →
  (∀ name child, (name, child) ∈ children →
     es0 !! name = Some child
     ∧ foldl (visit now ttl) child (_iter_all_paths child) = swept now ttl child) →
  let es1 := handled now ttl es0 children in
  foldl (visit now ttl) (Dir m0 es0) (blocks children)
  = Dir (touched now m0 es0 es1) es1
  ∧ size es1 ≤ size es0.
Proof.
  unfold blocks, handled, touched.
  induction children as [|[name child] l IH]; intros m0 es0 Hnames Hchildren;
    cbn [foldr foldl fmap list_fmap fst snd].
  - by rewrite bool_decide_eq_true_2.
  - apply NoDup_cons in Hnames as [Hname Hl].
    destruct (Hchildren name child ltac:(by left)) as [Hchild Hbelow].
    rewrite foldl_app, (fold_block m0 es0 name child Hchild Hbelow).
    assert (Hrest : ∀ es0' : gmap string node,
      (∀ k, k ≠ name → es0' !! k = es0 !! k) →
      ∀ name' child', (name', child') ∈ l →
        es0' !! name' = Some child'
        ∧ foldl (visit now ttl) child' (_iter_all_paths child')
          = swept now ttl child').
    { intros es0' Hsame name' child' Hin.
      destruct (Hchildren name' child' ltac:(by right)) as [Hc Hb].
      split; [|done]. rewrite Hsame; [done|]. intros ->. apply Hname.
      apply list_elem_of_fmap. by exists (name, child'). }
    destruct (sweep now ttl child) as [child'|].
    + destruct (IH m0 (<[name := child']> es0) Hl) as [Hfold Hsize].
      { apply Hrest. intros k Hk. by rewrite lookup_insert_ne. }
      rewrite map_size_insert_Some in Hfold, Hsize by by eexists.
      by rewrite Hfold.
    + destruct (IH now (delete name es0) Hl) as [Hfold Hsize].
      { apply Hrest. intros k Hk. by rewrite lookup_delete_ne. }
      rewrite map_size_delete_Some in Hfold, Hsize by by eexists.
      assert (Hpos : size es0 ≠ 0).
      { intros Hz. apply map_size_empty_inv in Hz. by rewrite Hz in Hchild. }
      rewrite Hfold. split; [|lia].
      rewrite (bool_decide_eq_false_2 (size _ = size es0)) by lia.
      by destruct (bool_decide _).
Qed.

Lemma handled_other children : ∀ (es0 : gmap string node) k,
  k ∉ children.*1 → handled now ttl es0 children !! k = es0 !! k.
Proof.
  unfold handled. induction children as [|[name child] l IH]; intros es0 k Hk;
    cbn [foldl fmap list_fmap fst snd] in *; [done|].
  apply not_elem_of_cons in Hk as [Hne Hk]. rewrite IH by done.
  destruct (sweep now ttl child); [by rewrite lookup_insert_ne|].
  by rewrite lookup_delete_ne.
Qed.

Lemma handled_child children : ∀ (es0 : gmap string node) k child,
  NoDup children.*1 → (k, child) ∈ children →
  handled now ttl es0 children !! k = sweep now ttl child.
Proof.
  induction children as [|[name child'] l IH]; intros es0 k child Hnames Hin;
    [by apply elem_of_nil in Hin|].
  cbn [fmap list_fmap fst] in Hnames. apply NoDup_cons in Hnames as [Hname Hl].
  apply elem_of_cons in Hin as [[= -> ->]|Hin].
  - change (handled now ttl es0 ((name, child') :: l))
      with (handled now ttl
              match sweep now ttl child' with
              | Some c => <[name := c]> es0
              | None => delete name es0
              end l).
    rewrite handled_other by done.
    destruct (sweep now ttl child'); [by rewrite lookup_insert_eq|].
    by rewrite lookup_delete_eq.
  - by apply IH.
Qed.

Lemma handled_all (entries : gmap string node) :
  handled now ttl entries (map_to_list entries) = omap (sweep now ttl) entries.
Proof.
  apply map_eq. intros k. rewrite lookup_omap.
  destruct (entries !! k) as [child|] eqn:Hk; cbn.
  - apply handled_child; [apply NoDup_fst_map_to_list|].
    by apply elem_of_map_to_list.
  - rewrite handled_other; [done|].
    intros ([k' child] & -> & Hin%elem_of_map_to_list)%list_elem_of_fmap.
    cbn in Hk. congruence.
Qed.

(** The paths below an entry, handled in order, leave the entry as the
    sweep describes it. *)
Lemma fold_iter n :
  foldl (visit now ttl) n (_iter_all_paths n) = swept now ttl n.
Proof.
  induction n as [m|m entries IH] using cleanup_facts.node_induction; [done|].
  rewrite iter_dir.
  destruct (fold_blocks (map_to_list entries) m entries) as [Hfold _].
  - apply NoDup_fst_map_to_list.
  - intros name child Hin%elem_of_map_to_list. split; [done|].
    by apply (IH name child).
  - rewrite Hfold, handled_all. done.
Qed.

End loop.

(** X26.  The loop as it is written and the sweep agree.  Taking the
    paths of [_iter_all_paths] one after the other, [stat]ing each on the
    tree as it is by then and deleting it with [delete_path] when it is
    older than the TTL, leaves the tree in which every entry has been
    swept after the entries below it, with the time stamp of a directory
    renewed when an entry was removed from it. *)
Theorem loop_is_sweep (now ttl : Z) (base_dir : option node) :
  cleanup_loop.cleanup_expired_files now base_dir ttl
  = cleanup.cleanup_expired_files now base_dir ttl.
Proof.
  destruct base_dir as [[m|m entries]|]; [done| |done].
  unfold cleanup_loop.cleanup_expired_files. by rewrite fold_iter.
Qed.

End cleanup_loop_facts.
